(** * melody_lab: melodies, the operation library and formula nodes

    A shallow embedding of [melody.py], [service.py] and [formula.py].

    The numbers the caller passes are Python floats (binary64, primitive
    floats here) and the checks and slot counts are computed on them as the
    sources do.  The quarter lengths that music21 stores are exact rationals
    ([Q], compared with [==]).  Every stream keeps the offsets of its
    elements.  The process-wide pseudo-random source is an explicit stream
    of draws threaded through every operation.  Objects that the operations
    mutate in place (streams, notes, rests, formula nodes) live in explicit
    stores. *)

From Stdlib Require Import PrimFloat FloatOps SpecFloat.
From Stdlib Require FloatAxioms.
From Stdlib Require Import QArith ZArith Lia Lqa List Bool String Arith Permutation Finite.
From stdpp Require Import base list strings.
Import ListNotations.

Local Open Scope Q_scope.
Set Warnings "-inexact-float".

(* ===================================================================== *)
(** ** Pitches and events                                                 *)
(* ===================================================================== *)

(** music21's [Pitch]: equality and hashing are structural. *)
Record Pitch : Type := mkPitch { step : string; octave : Z }.

#[global] Instance Pitch_eq_dec : EqDecision Pitch.
Proof. solve_decision. Defined.

Definition pitch_eqb (p q : Pitch) : bool := bool_decide (p = q).

(** A stream element: a [Note] carries a pitch and a quarter length, a
    [Rest] only a quarter length. *)
Inductive Event : Type :=
| Note (p : Pitch) (d : Q)
| Rest (d : Q).

Definition quarterLength (e : Event) : Q :=
  match e with Note _ d => d | Rest d => d end.

Definition is_note (e : Event) : bool :=
  match e with Note _ _ => true | Rest _ => false end.

Definition is_rest (e : Event) : bool := negb (is_note e).

(** The value of a [Melody]: its elements in stream order. *)
Definition Melody : Type := list Event.

(** [Melody.notes]: the notes of the melody, in order. *)
Definition notes (m : Melody) : list Event := List.filter is_note m.

(** [Melody.length]: the number of notes. *)
Definition mlength (m : Melody) : nat := List.length (notes m).

(** The pitches carried by the notes, in order. *)
Fixpoint pitches_of (m : Melody) : list Pitch :=
  match m with
  | [] => []
  | Note p _ :: t => p :: pitches_of t
  | Rest _ :: t => pitches_of t
  end.

(** The sum of the quarter lengths of the elements. *)
Fixpoint total_duration (m : Melody) : Q :=
  match m with
  | [] => 0
  | e :: t => quarterLength e + total_duration t
  end.

(* ===================================================================== *)
(** ** [Melody.normalize]                                                 *)
(* ===================================================================== *)

(** [isinstance(obj, Rest) and obj.duration.quarterLength == 0] *)
Definition is_null_rest (e : Event) : bool :=
  match e with
  | Rest d => Qeq_bool d 0
  | Note _ _ => false
  end.

(** [drop_null_rests]: the null rests are collected and removed. *)
Definition drop_null_rests (m : Melody) : Melody :=
  List.filter (fun e => negb (is_null_rest e)) m.

(** [join_consecutive_rests]: [itertools.pairwise] walks the elements; the
    left element of a pair is the object that the previous pair may already
    have lengthened, so the walk carries it along.  When both are rests the
    right one absorbs the left one's length and the left one becomes null. *)
Fixpoint join_pairs (obj_1 : Event) (rest_of_stream : list Event) : list Event :=
  match rest_of_stream with
  | [] => [obj_1]
  | obj_2 :: t =>
      match obj_1, obj_2 with
      | Rest d1, Rest d2 => Rest 0 :: join_pairs (Rest (d2 + d1)) t
      | _, _ => obj_1 :: join_pairs obj_2 t
      end
  end.

Definition join_consecutive_rests (m : Melody) : Melody :=
  match m with
  | [] => []
  | e :: t => join_pairs e t
  end.

Definition normalize (m : Melody) : Melody :=
  drop_null_rests (join_consecutive_rests (drop_null_rests m)).

(* ===================================================================== *)
(** ** Streams and offsets                                                *)
(* ===================================================================== *)

(** A music21 stream holds every element at an offset. *)
Definition Stream : Type := list (Q * Event).

Definition events (s : Stream) : Melody := List.map snd s.

Definition offsets (s : Stream) : list Q := List.map fst s.

(** [Stream.append(objects)]: every object is placed where the stream
    ends so far, one after the other. *)
Fixpoint append_offsets (highestTime : Q) (objects : list Event) : list Q :=
  match objects with
  | [] => []
  | e :: t => highestTime :: append_offsets (highestTime + quarterLength e) t
  end.

(** [Melody(objects)] for freshly built objects: appended from 0. *)
Definition place (objects : list Event) : Stream :=
  combine (append_offsets 0 objects) objects.

(** [Stream.highestTime]: the latest end of an element, 0 for an empty
    stream.  It is [stream.duration.quarterLength]. *)
Definition highest_time (s : Stream) : Q :=
  fold_left (fun highestTimeSoFar oe =>
               let candidateOffset := fst oe + quarterLength (snd oe) in
               if Qle_bool candidateOffset highestTimeSoFar
               then highestTimeSoFar else candidateOffset)
            s 0.

(** [Melody.normalize] on a stream: removing an element and changing a
    quarter length leave the offsets of the others as they are. *)
Definition drop_null_rests_at (s : Stream) : Stream :=
  List.filter (fun oe => negb (is_null_rest (snd oe))) s.

Fixpoint join_pairs_at (obj_1 : Q * Event) (rest_of_stream : Stream) : Stream :=
  match rest_of_stream with
  | [] => [obj_1]
  | obj_2 :: t =>
      match snd obj_1, snd obj_2 with
      | Rest d1, Rest d2 =>
          (fst obj_1, Rest 0) :: join_pairs_at (fst obj_2, Rest (d2 + d1)) t
      | _, _ => obj_1 :: join_pairs_at obj_2 t
      end
  end.

Definition join_consecutive_rests_at (s : Stream) : Stream :=
  match s with
  | [] => []
  | e :: t => join_pairs_at e t
  end.

Definition normalize_stream (s : Stream) : Stream :=
  drop_null_rests_at (join_consecutive_rests_at (drop_null_rests_at s)).


(** No rest of length zero. *)
Definition no_null_rest (m : Melody) : Prop :=
  Forall (fun e => is_null_rest e = false) m.


(* ===================================================================== *)
(** ** Outcomes, the state monad and the random source                    *)
(* ===================================================================== *)

(** The Python exceptions the modelled code can raise. *)
Inductive exn : Type :=
| ValueError
| IndexError
| ZeroDivisionError
| TypeError
| KeyError
| AttributeError
| OverflowError
| Failure (msg : string).      (* [raise Exception(msg)] *)

(** A call returns, raises, or is cut off by the fuel that bounds the
    loops Python leaves unbounded. *)
Inductive Res (A : Type) : Type :=
| Ok (a : A)
| Raise (e : exn)
| OutOfFuel.
Arguments Ok {A} a.
Arguments Raise {A} e.
Arguments OutOfFuel {A}.

(** Computations over a state [S]. *)
Definition M (S A : Type) : Type := S -> Res (A * S).

Definition ret {S A} (a : A) : M S A := fun s => Ok (a, s).

Definition bind {S A B} (c : M S A) (k : A -> M S B) : M S B :=
  fun s =>
    match c s with
    | Ok (a, s') => k a s'
    | Raise e => Raise e
    | OutOfFuel => OutOfFuel
    end.

Definition raise {S A} (e : exn) : M S A := fun _ => Raise e.

Notation "'do' x <- c ; k" := (bind c (fun x => k))
  (at level 10, x pattern, c at level 100, k at level 200).

(** A list comprehension and a [for] loop whose bodies have effects. *)
Fixpoint traverse {S A B} (f : A -> M S B) (l : list A) : M S (list B) :=
  match l with
  | [] => ret []
  | x :: t => do y <- f x; do ys <- traverse f t; ret (y :: ys)
  end.

Fixpoint for_each {S A} (l : list A) (f : A -> M S unit) : M S unit :=
  match l with
  | [] => ret tt
  | x :: t => do _ <- f x; for_each t f
  end.

(** The pseudo-random source: an infinite stream of draws. *)
Definition Rand : Type := nat -> nat.

Definition draw : M Rand nat :=
  fun r => Ok (r 0%nat, fun i => r (S i)).

(** [l] without its [i]-th element. *)
Definition remove_at {A} (i : nat) (l : list A) : list A :=
  firstn i l ++ skipn (S i) l.

(** [random.choice(seq)]: [IndexError] on an empty sequence. *)
Definition choice {A} (l : list A) : M Rand A :=
  match l with
  | [] => raise IndexError
  | x :: _ => do d <- draw; ret (nth (d mod List.length l) l x)
  end.

(** [k] picks without replacement. *)
Fixpoint sample_go {A} (k : nat) (l : list A) : M Rand (list A) :=
  match k with
  | O => ret []
  | S k' =>
      match l with
      | [] => raise ValueError
      | x :: _ =>
          do d <- draw;
          let i := (d mod List.length l)%nat in
          do rest <- sample_go k' (remove_at i l);
          ret (nth i l x :: rest)
      end
  end.

(** [random.sample(population, k)]: [ValueError] when [k] is negative or
    larger than the population. *)
Definition sample {A} (l : list A) (k : Z) : M Rand (list A) :=
  if ((k <? 0) || (Z.of_nat (List.length l) <? k))%Z then raise ValueError
  else sample_go (Z.to_nat k) l.

(** [random.shuffle(x)]: a random permutation of [x]. *)
Definition shuffle {A} (l : list A) : M Rand (list A) :=
  sample_go (List.length l) l.

(** [random.choices(population, k=k)]: [k] independent picks with
    replacement; a non-positive [k] gives the empty list. *)
Fixpoint choices_go {A} (l : list A) (k : nat) : M Rand (list A) :=
  match k with
  | O => ret []
  | S k' => do x <- choice l; do rest <- choices_go l k'; ret (x :: rest)
  end.

Definition choices {A} (l : list A) (k : Z) : M Rand (list A) :=
  choices_go l (Z.to_nat k).

(** [random.randint(a, b)]: [ValueError] on the empty range [b < a]. *)
Definition randint (a b : Z) : M Rand Z :=
  if (b <? a)%Z then raise ValueError
  else do d <- draw; ret (a + Z.of_nat d mod (b - a + 1))%Z.

(* ===================================================================== *)
(** ** Python numbers                                                     *)
(* ===================================================================== *)

(** A Python [float] is an IEEE 754 binary64 number, here a primitive
    float: [*], [/], [<] and [==] on floats are the machine operations. *)

(** [int(x)] and [x.as_integer_ratio()] of an infinity raise
    [OverflowError], of a NaN [ValueError]. *)
Definition not_finite {S A} (x : float) : M S A :=
  if is_nan x then raise ValueError else raise OverflowError.

(** The exact value of a finite float with sign [s], mantissa [m] and
    exponent [e]. *)
Definition sf_ratio (s : bool) (m : positive) (e : Z) : Q :=
  let n := if s then Zneg m else Zpos m in
  Qred (match e with
        | Zneg k => n # (2 ^ k)%positive
        | _ => inject_Z (n * 2 ^ e)
        end).

(** [x.as_integer_ratio()]: the exact value of a finite float, in lowest
    terms; [None] for an infinity or a NaN. *)
Definition as_integer_ratio (x : float) : option Q :=
  match Prim2SF x with
  | S754_zero _ => Some 0
  | S754_finite s m e => Some (sf_ratio s m e)
  | _ => None
  end.

(** [int(x)]: truncation toward zero. *)
Definition int_of_float {S} (x : float) : M S Z :=
  match as_integer_ratio x with
  | Some q => ret (Z.quot (Qnum q) (Zpos (Qden q)))
  | None => not_finite x
  end.

(** The float nearest to the integer [n]. *)
Definition float_of_Z (n : Z) : float :=
  SF2Prim (binary_normalize prec emax n 0 false).

(** [float(n)] of an [int]: [OverflowError] when [n] is too large. *)
Definition float_of_int {S} (n : Z) : M S float :=
  let x := float_of_Z n in
  if is_infinity x then raise OverflowError else ret x.

(** [n / d] on integers, which is [float(Fraction(n, d))]: the quotient
    rounded to the nearest float, [OverflowError] when it is too large. *)
Definition float_of_Fraction {S} (q : Q) : M S float :=
  match Qnum q with
  | Z0 => ret zero
  | n =>
      let '(m, e, l) :=
        SFdiv_core_binary prec emax (Z.abs n) 0 (Zpos (Qden q)) 0 in
      let x := SF2Prim (binary_round_aux prec emax (n <? 0)%Z m e l) in
      if is_infinity x then raise OverflowError else ret x
  end.

(** [x / y] on floats: [ZeroDivisionError] on a null divisor. *)
Definition float_div {S} (x y : float) : M S float :=
  if (y =? 0)%float then raise ZeroDivisionError else ret (x / y)%float.

(** [n * x] for an [int] and a float. *)
Definition int_mul_float {S} (n : Z) (x : float) : M S float :=
  do n' <- float_of_int n; ret (n' * x)%float.

(** [x * n] for a float and an [int]. *)
Definition float_mul_int {S} (x : float) (n : Z) : M S float :=
  do n' <- float_of_int n; ret (x * n')%float.

(** A float used as a condition: false for [0.0] and [-0.0]. *)
Definition float_truthy (x : float) : bool := negb (x =? 0)%float.

(** [n == x] for an [int] and a float compares the exact values. *)
Definition int_eqb_float (n : Z) (x : float) : bool :=
  match as_integer_ratio x with
  | Some q => Qeq_bool (inject_Z n) q
  | None => false
  end.

Definition Qltb (a b : Q) : bool := negb (Qle_bool b a).

(** A quarter length as music21 hands it out: a float or a [Fraction]. *)
Inductive number : Type :=
| NFloat (x : float)
| NFraction (q : Q).

(** [q < y] for a [Fraction] and a float: the exact values are compared,
    and an infinity or a NaN is compared with [0.0] in place of [q]. *)
Definition Fraction_ltb_float (q : Q) (y : float) : bool :=
  match as_integer_ratio y with
  | Some r => Qltb q r
  | None => (0 <? y)%float
  end.

(** [a < y] *)
Definition number_ltb_float (a : number) (y : float) : bool :=
  match a with
  | NFloat x => (x <? y)%float
  | NFraction q => Fraction_ltb_float q y
  end.

(** [x > a]; against a [Fraction] Python evaluates the reflected [a < x]. *)
Definition float_gtb_number (x : float) (a : number) : bool :=
  match a with
  | NFloat y => (y <? x)%float
  | NFraction q => Fraction_ltb_float q x
  end.

(** [a / y]; a [Fraction] is converted to a float first. *)
Definition number_div_float {S} (a : number) (y : float) : M S float :=
  match a with
  | NFloat x => float_div x y
  | NFraction q => do x <- float_of_Fraction q; float_div x y
  end.

(** *** music21's quarter lengths

    music21 passes every quarter length through [common.opFrac]: a float
    whose exact value has a denominator above [DENOM_LIMIT] is replaced by
    the closest fraction within the limit. *)
Definition DENOM_LIMIT : Z := 65535.

(** The continued-fraction loop of [_preFracLimitDenominator]; it stops
    at the first denominator above the limit, within
    [2 * log2 d + 2] rounds.  The convergents [p0/q0], [p1/q1] and the
    current pair [n], [d] are returned as they are at the [break]. *)
Fixpoint limit_loop (rounds : nat) (p0 q0 p1 q1 n d : Z) : Z * Z * Z * Z :=
  match rounds with
  | O => (p0, q0, p1, q1)
  | S rounds' =>
      let a := (n / d)%Z in
      let q2 := (q0 + a * q1)%Z in
      if (DENOM_LIMIT <? q2)%Z then (p0, q0, p1, q1)
      else limit_loop rounds' p1 q1 (p0 + a * p1)%Z q2 d (n - a * d)%Z
  end.

Definition limit_denominator (x : Q) : Q :=
  let nOrg := Qnum x in
  let dOrg := Zpos (Qden x) in
  if (dOrg <=? DENOM_LIMIT)%Z then x
  else
    let '(p0, q0, p1, q1) :=
      limit_loop (Z.to_nat (Z.log2 dOrg) * 2 + 2) 0 1 1 0 nOrg dOrg in
    let k := ((DENOM_LIMIT - q0) / q1)%Z in
    let bound1n := (p0 + k * p1)%Z in
    let bound1d := (q0 + k * q1)%Z in
    let bound2n := p1 in
    let bound2d := q1 in
    let bound1minusS_n := Z.abs (bound1n * dOrg - nOrg * bound1d) in
    let bound1minusS_d := (dOrg * bound1d)%Z in
    let bound2minusS_n := Z.abs (bound2n * dOrg - nOrg * bound2d) in
    let bound2minusS_d := (dOrg * bound2d)%Z in
    let difference :=
      (bound1minusS_n * bound2minusS_d - bound2minusS_n * bound1minusS_d)%Z in
    Qred (if (0 <? difference)%Z
          then bound2n # Z.to_pos bound2d
          else bound1n # Z.to_pos bound1d).

(** The value [opFrac(x)] stands for; [None] when [x] is an infinity or a
    NaN. *)
Definition opFrac (x : float) : option Q :=
  option_map limit_denominator (as_integer_ratio x).

(** [Duration(x).quarterLength] for a float [x]. *)
Definition Duration {S} (x : float) : M S Q :=
  match opFrac x with
  | Some q => ret q
  | None => not_finite x
  end.

(** [opFrac(q)] of an exact quarter length hands out a float when the
    denominator is a power of two and the [Fraction] itself otherwise. *)
Definition is_power_of_two (d : positive) : bool :=
  (Zpos d =? 2 ^ Z.log2 (Zpos d))%Z.

Definition number_of_Q {S} (q : Q) : M S number :=
  let q := Qred q in
  if is_power_of_two (Qden q)
  then do x <- float_of_Fraction q; ret (NFloat x)
  else ret (NFraction q).

(* ===================================================================== *)
(** ** Python list helpers                                                *)
(* ===================================================================== *)

(** [list(range(a, b))] *)
Definition py_range (a b : Z) : list Z :=
  List.map (fun i => (a + Z.of_nat i)%Z) (seq 0 (Z.to_nat (b - a))).

(** [max(l)]: [ValueError] on an empty list. *)
Definition py_max {S} (l : list Z) : M S Z :=
  match l with
  | [] => raise ValueError
  | x :: t => ret (fold_left Z.max t x)
  end.

(** [list.sort()] on integers (insertion sort). *)
Fixpoint insert_sorted (x : Z) (l : list Z) : list Z :=
  match l with
  | [] => [x]
  | y :: t => if (x <=? y)%Z then x :: l else y :: insert_sorted x t
  end.

Fixpoint py_sort (l : list Z) : list Z :=
  match l with
  | [] => []
  | x :: t => insert_sorted x (py_sort t)
  end.

(** [list(set(pitches))]: the distinct pitches (the order a [set] yields
    them in is not specified; nothing below depends on it). *)
Definition distinct (ps : list Pitch) : list Pitch := remove_dups ps.

(** [l.insert(i, x)] for [0 <= i <= len(l)]. *)
Definition list_insert_at {A} (i : nat) (x : A) (l : list A) : list A :=
  firstn i l ++ x :: skipn i l.

(** [l.remove(x)]: drops the first occurrence. *)
Fixpoint list_remove (x : Z) (l : list Z) : list Z :=
  match l with
  | [] => []
  | y :: t => if (x =? y)%Z then t else y :: list_remove x t
  end.

(* ===================================================================== *)
(** ** [MelodyService.GenerateMelody]                                     *)
(* ===================================================================== *)

Inductive DurationMode : Type := DMinimum | DMaximum | DRandom | DFixed.

Inductive AmountMode : Type := AMinimum | AMaximum | ARandom | AFixed.

(** The pitch of a freshly built [Note(duration=...)]. *)
Definition default_pitch : Pitch := mkPitch "C" 4.

(** The parameter checks, in source order.  [None] stands for the early
    [return Melody()]; otherwise [int(duration / grid_size)], the number
    of grid slots, is returned. *)
Definition check_params {S} (pitches : list Pitch) (length : Z)
    (duration : number) (grid_size : float) (duration_mode : DurationMode)
    (note_duration : option float) (alternate use_all : bool)
    : M S (option Z) :=
  if (length <=? 0)%Z then ret None
  else if number_ltb_float duration grid_size
  then raise (Failure "Duration must be greater than grid_size")
  else
    do quotient <- number_div_float duration grid_size;
    do slots <- int_of_float quotient;
    if negb (int_eqb_float slots quotient)
    then raise (Failure "Duration is not evenly divisible by grid_size")
    else if (slots <? length)%Z
    then raise (Failure "Too many notes for given duration and grid_size")
    else
      do _ <- match duration_mode with
              | DFixed =>
                  match note_duration with
                  | None => raise (Failure "Note length not set")
                  | Some nd =>
                      if negb (float_truthy nd)
                      then raise (Failure "Note length not set")
                      else
                        do needed <- float_mul_int nd length;
                        if float_gtb_number needed duration
                        then raise (Failure "Too many notes for given durations")
                        else if (nd <? grid_size)%float
                        then raise (Failure "Note duration must be greater than grid_size")
                        else
                          do q <- float_div nd grid_size;
                          do k <- int_of_float q;
                          if negb (int_eqb_float k q)
                          then raise (Failure "Note duration is not evenly divisible by grid_size")
                          else ret tt
                  end
              | _ => ret tt
              end;
      if alternate && (List.length pitches <? 2)%nat
      then raise (Failure "Too few pitches to alternate")
      else if use_all && (length <? Z.of_nat (List.length pitches))%Z
      then raise (Failure "Too short length to use all notes")
      else ret (Some slots).

(** [Duration(n * grid_size)] for a number [n] of grid slots. *)
Definition Duration_of_slots {S} (n : Z) (grid_size : float) : M S Q :=
  do x <- int_mul_float n grid_size; Duration x.

(** The body of the loop over [itertools.pairwise(note_indices)]:
    [note_idx] is the left index of the current pair, [others] what is
    still to come. *)
Fixpoint fill_slots (duration_mode : DurationMode) (grid_size : float)
    (note_idx : Z) (others : list Z) : M Rand (list Event) :=
  match others with
  | [] => ret []
  | next_note_idx :: t =>
      let grid_between := (next_note_idx - note_idx)%Z in
      do grids <-
        (if (grid_between =? 0)%Z then ret (1, 0)%Z
         else
           let posible_note_grid := py_range 1 (grid_between + 1) in
           do note_grid <-
             match duration_mode with
             | DRandom => choice posible_note_grid
             | _ => py_max posible_note_grid
             end;
           do top <- py_max posible_note_grid;
           ret (note_grid, top - note_grid)%Z);
      let '(note_grid, rest_grid) := grids in
      do d <- Duration_of_slots note_grid grid_size;
      let note := Note default_pitch d in
      do objs <-
        (if (rest_grid =? 0)%Z then ret [note]
         else do rest_duration <- Duration_of_slots rest_grid grid_size;
              ret [note; Rest rest_duration]);
      do more <- fill_slots duration_mode grid_size next_note_idx t;
      ret (objs ++ more)
  end.

(** Step 1 for [Random] and [Maximum]. *)
Definition rhythm_spread (length slots : Z) (grid_size : float)
    (duration_mode : DurationMode) : M Rand Stream :=
  let grid_indices := py_range 0 slots in
  do picked <- sample grid_indices length;
  let note_indices :=
    py_sort picked ++ [Z.of_nat (List.length grid_indices)] in
  match note_indices with
  | [] => raise IndexError
  | first :: others =>
      do first_rest_duration <- int_mul_float first grid_size;
      do melody_objects <-
        (if float_truthy first_rest_duration
         then do d <- Duration first_rest_duration; ret [Rest d]
         else ret []);
      do filled <- fill_slots duration_mode grid_size first others;
      ret (place (melody_objects ++ filled))
  end.

(** Step 1 for [Minimum] and [Fixed]. *)
Definition rhythm_packed (length slots : Z) (grid_size : float)
    (duration_mode : DurationMode) (note_duration : option float)
    : M Rand Stream :=
  do note_duration <-
    match duration_mode, note_duration with
    | DMinimum, _ => ret grid_size
    | _, Some nd => ret nd
    | _, None => raise TypeError
    end;
  do the_notes <-
    traverse (fun _ => do d <- Duration note_duration;
                       ret (Note default_pitch d))
             (py_range 0 length);
  do needed <- int_mul_float length note_duration;
  do quotient <- float_div needed grid_size;
  do filled <- int_of_float quotient;
  let n_rests := (slots - filled)%Z in
  do the_rests <-
    traverse (fun _ => do d <- Duration grid_size; ret (Rest d))
             (py_range 0 n_rests);
  do shuffled <- shuffle (the_notes ++ the_rests);
  ret (normalize_stream (place shuffled)).

Definition is_spread (duration_mode : DurationMode) : bool :=
  match duration_mode with DRandom | DMaximum => true | _ => false end.

(** Step 1: the lengths of the notes and rests. *)
Definition rhythm (length slots : Z) (grid_size : float)
    (duration_mode : DurationMode) (note_duration : option float)
    : M Rand Stream :=
  if is_spread duration_mode
  then rhythm_spread length slots grid_size duration_mode
  else rhythm_packed length slots grid_size duration_mode note_duration.

(** The inner [while indices_to_insert] loop: [Some] is the list after the
    insertion, [None] means the indices ran out.  One index is dropped per
    round, so [List.length indices_to_insert] rounds are enough. *)
Fixpoint try_insert (rounds : nat) (chosen_pitches : list Pitch)
    (pitch_to_insert : Pitch) (indices_to_insert : list Z)
    : M Rand (option (list Pitch)) :=
  match rounds with
  | O => ret None
  | S rounds' =>
      match indices_to_insert with
      | [] => ret None
      | _ =>
          do idx_to_insert <- choice indices_to_insert;
          let i := Z.to_nat idx_to_insert in
          let prev_pitch :=
            if (0 <? idx_to_insert)%Z then chosen_pitches !! (i - 1)%nat else None in
          let next_pitch :=
            if (idx_to_insert <? Z.of_nat (List.length chosen_pitches))%Z
            then chosen_pitches !! i else None in
          let can_insert_pitch :=
            negb (bool_decide (prev_pitch = Some pitch_to_insert))
            && negb (bool_decide (next_pitch = Some pitch_to_insert)) in
          if can_insert_pitch
          then ret (Some (list_insert_at i pitch_to_insert chosen_pitches))
          else try_insert rounds' chosen_pitches pitch_to_insert
                 (list_remove idx_to_insert indices_to_insert)
      end
  end.

(** The outer [while len(chosen_pitches) < length] loop, on fuel. *)
Fixpoint alternate_loop (fuel : nat) (pitches : list Pitch) (length : Z)
    (chosen_pitches : list Pitch) : M Rand (list Pitch) :=
  if (Z.of_nat (List.length chosen_pitches) <? length)%Z then
    match fuel with
    | O => fun _ => OutOfFuel
    | S fuel' =>
        do pitch_to_insert <- choice pitches;
        let indices_to_insert :=
          py_range 0 (Z.of_nat (List.length chosen_pitches) + 1) in
        do inserted <- try_insert (List.length indices_to_insert)
                         chosen_pitches pitch_to_insert indices_to_insert;
        alternate_loop fuel' pitches length
          (match inserted with Some l => l | None => chosen_pitches end)
    end
  else ret chosen_pitches.

(** Step 2: the pitches for the notes. *)
Definition choose_pitches (fuel : nat) (pitches : list Pitch) (length : Z)
    (alternate use_all : bool) : M Rand (list Pitch) :=
  if negb alternate then
    do chosen_pitches <-
      (if negb use_all then choices pitches length
       else do extra <- choices pitches (length - Z.of_nat (List.length pitches));
            ret (pitches ++ extra));
    shuffle chosen_pitches
  else
    do chosen_pitches <- (if use_all then shuffle pitches else ret []);
    alternate_loop fuel pitches length chosen_pitches.

(** [for note, pitch in zip(melody.notes, chosen_pitches): note.pitch = pitch] *)
Fixpoint assign_pitches (ps : list Pitch) (m : Melody) : Melody :=
  match m with
  | [] => []
  | Rest d :: t => Rest d :: assign_pitches ps t
  | Note p d :: t =>
      match ps with
      | [] => m
      | q :: ps' => Note q d :: assign_pitches ps' t
      end
  end.

(** [MelodyService.GenerateMelody]: the stream it builds.  Setting the
    pitches of the notes leaves the offsets as they are. *)
Definition GenerateStream (fuel : nat) (pitches : list Pitch) (length : Z)
    (duration : number) (grid_size : float) (duration_mode : DurationMode)
    (note_duration : option float) (alternate use_all : bool)
    : M Rand Stream :=
  let pitches := distinct pitches in
  do checked <- check_params pitches length duration grid_size duration_mode
                  note_duration alternate use_all;
  match checked with
  | None => ret []
  | Some slots =>
      do melody <- rhythm length slots grid_size duration_mode note_duration;
      do chosen_pitches <- choose_pitches fuel pitches length alternate use_all;
      ret (combine (offsets melody)
             (assign_pitches chosen_pitches (events melody)))
  end.

(** The elements of the generated melody, in order. *)
Definition GenerateMelody (fuel : nat) (pitches : list Pitch) (length : Z)
    (duration : number) (grid_size : float) (duration_mode : DurationMode)
    (note_duration : option float) (alternate use_all : bool)
    : M Rand Melody :=
  do melody <- GenerateStream fuel pitches length duration grid_size
                 duration_mode note_duration alternate use_all;
  ret (events melody).


(** No two neighbouring pitches are equal. *)
Fixpoint alternating (ps : list Pitch) : Prop :=
  match ps with
  | [] => True
  | p :: t =>
      match t with
      | [] => True
      | q :: _ => p <> q /\ alternating t
      end
  end.

(** A strictly increasing run of integers, given with its first element. *)
Fixpoint chain_lt (x : Z) (l : list Z) : Prop :=
  match l with
  | [] => True
  | y :: t => (x < y)%Z /\ chain_lt y t
  end.

Definition ascending (l : list Z) : Prop :=
  match l with
  | [] => True
  | x :: t => chain_lt x t
  end.

(* ===================================================================== *)
(** ** [Melody.grid_size]                                                 *)
(* ===================================================================== *)

(** Modelled from the spec: [Tools.fraction_gcd] ([library/tools.py] is not
    among the sources).  The spec describes the grid size as the GCD, as exact
    rationals, of the durations; this is the greatest common divisor of two
    fractions over their common denominator. *)
Definition fraction_gcd (a b : Q) : Q :=
  Z.gcd (Qnum a * Zpos (Qden b)) (Qnum b * Zpos (Qden a))
  # (Qden a * Qden b).

(** [functools.reduce(f, l)] without an initial value: [TypeError] on an
    empty sequence. *)
Definition py_reduce {S A} (f : A -> A -> A) (l : list A) : M S A :=
  match l with
  | [] => raise TypeError
  | x :: t => ret (fold_left f t x)
  end.

(** [Melody.grid_size]: the quarter lengths as [Fraction]s, their common
    divisor, and [float] of it. *)
Definition grid_size {S} (m : Melody) : M S float :=
  do d <- py_reduce fraction_gcd (List.map quarterLength m);
  float_of_Fraction d.


(** [d] is [Duration(k * grid_size)] for a number [k] of slots between
    [lo] and [hi]. *)
Definition slot_length (grid_size : float) (lo hi : Z) (d : Q) : Prop :=
  exists k : Z, (lo <= k <= hi)%Z /\ opFrac (float_of_Z k * grid_size) = Some d.

(** [x] is one or more steps of size [g]. *)
Definition steps_of (g x : Q) : Prop :=
  exists k : Z, (1 <= k)%Z /\ x == inject_Z k * g.

(** What step 1 makes of an event in the modes [Minimum] and [Fixed]
    before the null rests are dropped: a note lasts [d], a rest is null or
    lasts one or more times the [Duration] of the grid size. *)
Definition packed_event (g : float) (d : Q) (e : Event) : Prop :=
  match e with
  | Note _ d' => d' = d
  | Rest x =>
      x == 0 \/ exists dg, opFrac g = Some dg /\ steps_of dg x
  end.

(** The note length of the modes [Minimum] and [Fixed]. *)
Definition packed_note_duration (grid_size : float)
    (duration_mode : DurationMode) (note_duration : option float)
    : option float :=
  match duration_mode with
  | DMinimum => Some grid_size
  | _ => note_duration
  end.


(* ===================================================================== *)
(** ** Sample inputs                                                      *)
(* ===================================================================== *)

Definition pitch_C : Pitch := mkPitch "C" 4.
Definition pitch_D : Pitch := mkPitch "D" 4.
Definition pitch_E : Pitch := mkPitch "E" 4.

(** A source of draws: 3, 10, 17, ... *)
Definition sample_draws : Rand := fun i => (i * 7 + 3)%nat.

(** A source whose draws are all 0. *)
Definition zero_draws : Rand := fun _ => 0%nat.

(** The value and the remaining draws of a run that returns. *)
Definition value_of {S A} (c : M S A) (s : S) (default : A) : A :=
  match c s with Ok (a, _) => a | _ => default end.

Definition state_after {S A} (c : M S A) (s : S) : S :=
  match c s with Ok (_, s') => s' | _ => s end.

(* ===================================================================== *)
(** ** The object store                                                   *)
(* ===================================================================== *)

(** The operations work on mutable objects: a [Melody] is a stream object
    that refers to its elements, and every element is a note or rest
    object of its own.  Objects are addressed by their position in the
    store, and a new object is placed at the end.  Pitches are never
    changed in place, so a note holds its pitch by value. *)
Definition loc : Type := nat.

Inductive obj : Type :=
| ONote (p : Pitch) (d : Q)
| ORest (d : Q)
| OStream (elements : list loc) (offsets : list Q).

Abbreviation Heap := (list obj).

Record World : Type := mkWorld { heap : Heap; rand : Rand }.

(** Run a computation that only draws random numbers. *)
Definition liftR {A} (c : M Rand A) : M World A :=
  fun w =>
    match c (rand w) with
    | Ok (a, r') => Ok (a, mkWorld (heap w) r')
    | Raise e => Raise e
    | OutOfFuel => OutOfFuel
    end.

(** Read the store; a dangling or ill-typed reference is a [TypeError]. *)
Definition get {A} (f : Heap -> option A) : M World A :=
  fun w =>
    match f (heap w) with
    | Some a => Ok (a, w)
    | None => Raise TypeError
    end.

Definition alloc (o : obj) : M World loc :=
  fun w => Ok (List.length (heap w), mkWorld (heap w ++ [o]) (rand w)).

Definition obj_of (e : Event) : obj :=
  match e with Note p d => ONote p d | Rest d => ORest d end.

Definition event_of (o : obj) : option Event :=
  match o with
  | ONote p d => Some (Note p d)
  | ORest d => Some (Rest d)
  | OStream _ _ => None
  end.

Definition elements_at (h : Heap) (s : loc) : option (list loc) :=
  match h !! s with
  | Some (OStream els _) => Some els
  | _ => None
  end.

(** The offsets the stream at [s] holds its elements at. *)
Definition offsets_at (h : Heap) (s : loc) : option (list Q) :=
  match h !! s with
  | Some (OStream _ offs) => Some offs
  | _ => None
  end.

Fixpoint events_of (h : Heap) (els : list loc) : option (list Event) :=
  match els with
  | [] => Some []
  | l :: t =>
      match h !! l with
      | Some o =>
          match event_of o, events_of h t with
          | Some e, Some es => Some (e :: es)
          | _, _ => None
          end
      | None => None
      end
  end.

(** The same, with no offsets where there is no stream. *)
Definition stored_offsets (h : Heap) (s : loc) : list Q :=
  match offsets_at h s with
  | Some offs => offs
  | None => []
  end.

(** The value of the melody at [s]: its events, in order. *)
Definition events_at (h : Heap) (s : loc) : option (list Event) :=
  match elements_at h s with
  | Some els => events_of h els
  | None => None
  end.

(** The elements of the stream at [s] with their offsets. *)
Definition stream_at (h : Heap) (s : loc) : option Stream :=
  match offsets_at h s, events_at h s with
  | Some offs, Some evs => Some (combine offs evs)
  | _, _ => None
  end.

(** The elements that are notes. *)
Fixpoint note_locs (h : Heap) (els : list loc) : option (list loc) :=
  match els with
  | [] => Some []
  | l :: t =>
      match h !! l, note_locs h t with
      | Some (ONote _ _), Some ns => Some (l :: ns)
      | Some (ORest _), Some ns => Some ns
      | _, _ => None
      end
  end.

Definition notes_at (h : Heap) (s : loc) : option (list loc) :=
  match elements_at h s with
  | Some els => note_locs h els
  | None => None
  end.

Definition pitch_at (h : Heap) (l : loc) : option Pitch :=
  match h !! l with
  | Some (ONote p _) => Some p
  | _ => None
  end.

(** [note.pitch = p] *)
Definition set_pitch (l : loc) (p : Pitch) : M World unit :=
  fun w =>
    match heap w !! l with
    | Some (ONote _ d) => Ok (tt, mkWorld (<[l := ONote p d]> (heap w)) (rand w))
    | _ => Raise TypeError
    end.

(** Replace the elements of the stream at [s] and their offsets. *)
Definition set_elements (s : loc) (els : list loc) (offs : list Q)
    : M World unit :=
  fun w =>
    match heap w !! s with
    | Some (OStream _ _) =>
        Ok (tt, mkWorld (<[s := OStream els offs]> (heap w)) (rand w))
    | _ => Raise TypeError
    end.

(** [stream.duration.quarterLength] *)
Definition stream_duration (s : loc) : M World Q :=
  do st <- get (fun h => stream_at h s); ret (highest_time st).

(** [stream.remove(list(stream))] *)
Definition stream_clear (s : loc) : M World unit := set_elements s [] [].

(** [stream.append(objects)]: the objects are placed one after the other
    from where the stream ends. *)
Definition stream_append (s : loc) (objects : list loc) : M World unit :=
  do els <- get (fun h => elements_at h s);
  do offs <- get (fun h => offsets_at h s);
  do highestTime <- stream_duration s;
  do evs <- get (fun h => events_of h objects);
  set_elements s (els ++ objects) (offs ++ append_offsets highestTime evs).

(** A new stream object holding new objects for [evs] at [offs]. *)
Definition new_stream (evs : list Event) (offs : list Q) : M World loc :=
  do els <- traverse (fun e => alloc (obj_of e)) evs;
  alloc (OStream els offs).

(** [Melody(objects)] for freshly built objects. *)
Definition new_melody (evs : list Event) : M World loc :=
  new_stream evs (append_offsets 0 evs).

(** [copy.deepcopy(melody)]: a new stream with copies of the elements at
    the same offsets. *)
Definition deepcopy (m : loc) : M World loc :=
  do evs <- get (fun h => events_at h m);
  do offs <- get (fun h => offsets_at h m);
  new_stream evs offs.

(** [copy.deepcopy(melody.notes)]: copies of the given note objects. *)
Definition note_at (h : Heap) (l : loc) : option obj :=
  match h !! l with
  | Some (ONote p d) => Some (ONote p d)
  | _ => None
  end.

Definition deepcopy_notes (ns : list loc) : M World (list loc) :=
  traverse (fun l => do o <- get (fun h => note_at h l); alloc o) ns.

(** [melody.notes] and [melody.length] *)
Definition melody_notes (m : loc) : M World (list loc) :=
  get (fun h => notes_at h m).

Definition melody_length (m : loc) : M World Z :=
  do ns <- melody_notes m; ret (Z.of_nat (List.length ns)).

(** A stream used as a condition is true when it has elements. *)
Definition melody_truthy (m : loc) : M World bool :=
  do els <- get (fun h => elements_at h m);
  ret (match els with [] => false | _ => true end).

(** [for note, other in pairs: note.pitch = other.pitch] *)
Definition copy_pitches (pairs : list (loc * loc)) : M World unit :=
  for_each pairs (fun '(note, other) =>
    do p <- get (fun h => pitch_at h other); set_pitch note p).

(** [Melody.__add__] *)
Definition melody_add (self other : loc) : M World loc :=
  do other <- deepcopy other;
  do melody <- deepcopy self;
  do appended <- get (fun h => elements_at h other);
  do _ <- stream_append melody appended;
  ret melody.

(** The loop of [Melody.crop_length]: the objects kept, given the number
    of notes still wanted. *)
Fixpoint crop_walk (h : Heap) (wanted : nat) (els : list loc)
    : option (list loc) :=
  match els with
  | [] => Some []
  | l :: t =>
      match h !! l with
      | Some (ONote _ _) =>
          match wanted with
          | 1%nat => Some [l]
          | _ => option_map (cons l) (crop_walk h (Nat.pred wanted) t)
          end
      | Some (ORest _) => option_map (cons l) (crop_walk h wanted t)
      | _ => None
      end
  end.

(** [Melody.crop_length] *)
Definition crop_length (self : loc) (limit : Z) : M World unit :=
  if (limit <=? 0)%Z then stream_clear self
  else
    do els <- get (fun h => elements_at h self);
    do new_objects <- get (fun h => crop_walk h (Z.to_nat limit) els);
    do _ <- stream_clear self;
    stream_append self new_objects.

(* ===================================================================== *)
(** ** The transforming and combining operations of [MelodyService]       *)
(* ===================================================================== *)

(** [not amount] for an optional integer. *)
Definition amount_unset (amount : option Z) : bool :=
  match amount with
  | None => true
  | Some a => (a =? 0)%Z
  end.

(** The [if]/[elif] chain that settles [amount] from the mode. *)
Definition amount_for (amount_mode : AmountMode) (amount : option Z)
    (min_amount max_amount random_amount : Z) : option Z :=
  match amount_mode with
  | AMinimum => Some min_amount
  | AMaximum => Some max_amount
  | ARandom => Some random_amount
  | AFixed => amount
  end.

(** [l[a:]] and [l[:a]] with Python's treatment of negative and large
    indices. *)
Definition py_clip (a : Z) (n : nat) : nat :=
  if (a <? 0)%Z then Z.to_nat (Z.max 0 (Z.of_nat n + a))
  else Nat.min (Z.to_nat a) n.

Definition slice_from {A} (a : Z) (l : list A) : list A :=
  skipn (py_clip a (List.length l)) l.

Definition slice_to {A} (a : Z) (l : list A) : list A :=
  firstn (py_clip a (List.length l)) l.

(** [seq[i]] for a non-negative index. *)
Definition item {S A} (l : list A) (i : nat) : M S A :=
  match l !! i with
  | Some x => ret x
  | None => raise IndexError
  end.

(** [MelodyService.GenerateMelody], building the stream object. *)
Definition GenerateMelodyH (fuel : nat) (pitches : list Pitch) (length : Z)
    (duration : number) (grid : float) (duration_mode : DurationMode)
    (note_duration : option float) (alternate use_all : bool) : M World loc :=
  do melody <- liftR (GenerateStream fuel pitches length duration grid
                        duration_mode note_duration alternate use_all);
  new_stream (events melody) (offsets melody).

Definition ChangePitch (melody : loc) (amount_mode : AmountMode)
    (amount : option Z) (pitches : option (list Pitch)) : M World loc :=
  do melody <- deepcopy melody;
  do ns <- melody_notes melody;
  do own <- traverse (fun n => get (fun h => pitch_at h n)) ns;
  let pitches :=
    match pitches with
    | Some (p :: t) => p :: t
    | _ => own
    end in
  let pitches := distinct pitches in
  let length := Z.of_nat (List.length ns) in
  do amount <-
    match amount_mode with
    | AMinimum => ret (Some 1%Z)
    | ARandom => do a <- liftR (randint 1 length); ret (Some a)
    | AMaximum => ret (Some length)
    | AFixed => ret amount
    end;
  do _ <-
    match amount_mode with
    | AFixed =>
        if amount_unset amount then raise (Failure "Invalid amount")
        else
          match amount with
          | Some a => if (length <? a)%Z then raise (Failure "Invalid amount")
                      else ret tt
          | None => ret tt
          end
    | _ => ret tt
    end;
  do notes_to_change <-
    match amount with
    | Some k => liftR (choices ns k)
    | None => raise TypeError
    end;
  do _ <- for_each notes_to_change (fun note =>
            do random_pitch <- liftR (choice pitches);
            set_pitch note random_pitch);
  ret melody.

(** [more_itertools.batched(l, 2)] unpacked into two names. *)
Fixpoint pairs_of {S A} (l : list A) : M S (list (A * A)) :=
  match l with
  | [] => ret []
  | [_] => raise ValueError
  | x :: y :: t => do rest <- pairs_of t; ret ((x, y) :: rest)
  end.

Definition SwapPitch (melody : loc) (amount_mode : AmountMode)
    (amount : option Z) : M World loc :=
  do melody <- deepcopy melody;
  do length <- melody_length melody;
  let min_amount := 1%Z in
  let max_amount := (length / 2)%Z in
  do random_amount <- liftR (randint min_amount max_amount);
  let amount := amount_for amount_mode amount min_amount max_amount random_amount in
  if (length <? 2)%Z then raise (Failure "melody.length < 2")
  else if amount_unset amount then raise (Failure "Invalid amount")
  else
    do ns <- melody_notes melody;
    do picked <-
      match amount with
      | Some a => liftR (sample ns (a * 2))
      | None => raise TypeError
      end;
    do notes_to_change <- liftR (shuffle picked);
    do batches <- pairs_of notes_to_change;
    do _ <- for_each batches (fun '(note_1, note_2) =>
              do p1 <- get (fun h => pitch_at h note_1);
              do p2 <- get (fun h => pitch_at h note_2);
              do _ <- set_pitch note_1 p2;
              set_pitch note_2 p1);
    ret melody.

Definition ShiftPitch (melody : loc) (amount_mode : AmountMode)
    (amount : option Z) : M World loc :=
  do melody <- deepcopy melody;
  do length <- melody_length melody;
  let min_amount := 1%Z in
  let max_amount := (length - 1)%Z in
  do random_amount <- liftR (randint min_amount max_amount);
  let amount := amount_for amount_mode amount min_amount max_amount random_amount in
  if (length <? 2)%Z then ret melody
  else if amount_unset amount then raise (Failure "Invalid amount")
  else
    do ns <- melody_notes melody;
    do shifted_notes <- deepcopy_notes ns;
    do shifted_notes <-
      match amount with
      | Some a => ret (slice_from a shifted_notes ++ slice_to a shifted_notes)
      | None => raise TypeError
      end;
    do _ <- copy_pitches (combine ns shifted_notes);
    ret melody.

Definition ShufflePitch (melody : loc) (amount_mode : AmountMode)
    (amount : option Z) : M World loc :=
  do melody <- deepcopy melody;
  do length <- melody_length melody;
  let min_amount := 2%Z in
  let max_amount := length in
  do random_amount <- liftR (randint min_amount max_amount);
  let amount := amount_for amount_mode amount min_amount max_amount random_amount in
  if (length <? 2)%Z then ret melody
  else if amount_unset amount then raise (Failure "Invalid amount")
  else
    match amount with
    | None => raise TypeError
    | Some a =>
        if (length <? a)%Z then raise (Failure "amount > melody.length")
        else
          do ns <- melody_notes melody;
          do note_indexes <- liftR (sample (py_range 0 length) a);
          do shuffled_indexes <- liftR (shuffle note_indexes);
          do shuffled_pitches <-
            traverse (fun si =>
                        do n <- item ns (Z.to_nat si);
                        get (fun h => pitch_at h n)) shuffled_indexes;
          do _ <- for_each (combine note_indexes shuffled_pitches)
                    (fun '(note_index, shuffled_pitch) =>
                       do n <- item ns (Z.to_nat note_index);
                       set_pitch n shuffled_pitch);
          ret melody
    end.

(** [mapping[key]] for [mapping = dict(zip(keys, values))]. *)
Fixpoint dict_item {S} (mapping : list (Pitch * Pitch)) (key : Pitch)
    : M S Pitch :=
  match mapping with
  | [] => raise KeyError
  | (k, v) :: t => if pitch_eqb k key then ret v else dict_item t key
  end.

Definition RemapPitch (melody : loc) (amount_mode : AmountMode)
    (amount : option Z) : M World loc :=
  do melody <- deepcopy melody;
  do length <- melody_length melody;
  let min_amount := 2%Z in
  let max_amount := length in
  do random_amount <- liftR (randint min_amount max_amount);
  let amount := amount_for amount_mode amount min_amount max_amount random_amount in
  if (length <? 2)%Z then ret melody
  else if amount_unset amount then raise (Failure "Invalid amount")
  else
    match amount with
    | None => raise TypeError
    | Some a =>
        if (length <? a)%Z then raise (Failure "amount > melody.length")
        else
          do ns <- melody_notes melody;
          do notes_to_change <- liftR (sample ns a);
          do pitches <- traverse (fun n => get (fun h => pitch_at h n))
                          notes_to_change;
          let pitches := distinct pitches in
          do shuffled_pitches <- liftR (shuffle pitches);
          let pitches_mapping := combine pitches shuffled_pitches in
          do _ <- for_each notes_to_change (fun note =>
                    do p <- get (fun h => pitch_at h note);
                    do q <- dict_item pitches_mapping p;
                    set_pitch note q);
          ret melody
    end.

Definition RevertPitch (melody : loc) : M World loc :=
  do melody <- deepcopy melody;
  do length <- melody_length melody;
  if (length <? 2)%Z then ret melody
  else
    do ns <- melody_notes melody;
    do melody_notes_copy <- deepcopy_notes ns;
    let reversed_notes := rev melody_notes_copy in
    do _ <- copy_pitches (combine ns reversed_notes);
    ret melody.

(** [melody.duration.quarterLength] as music21 hands it out. *)
Definition melody_duration (melody : loc) : M World number :=
  do highestTime <- stream_duration melody; number_of_Q highestTime.

(** [melody.grid_size] *)
Definition melody_grid_size (melody : loc) : M World float :=
  do evs <- get (fun h => events_at h melody); grid_size evs.

Definition ChangeRhythm (melody : loc) (duration grid : option float)
    (duration_mode : DurationMode) (note_duration : option float)
    : M World loc :=
  do melody <- deepcopy melody;
  do duration <-
    match duration with
    | Some d => if float_truthy d then ret (NFloat d) else melody_duration melody
    | None => melody_duration melody
    end;
  do grid <-
    match grid with
    | Some g => if float_truthy g then ret g else melody_grid_size melody
    | None => melody_grid_size melody
    end;
  do length <- melody_length melody;
  do another_melody <-
    GenerateMelodyH 0 [mkPitch "C" 0] length duration grid duration_mode
      note_duration false false;
  do new_notes <- melody_notes another_melody;
  do old_notes <- melody_notes melody;
  do _ <- for_each (combine (seq 0 (List.length new_notes)) new_notes)
            (fun '(idx, note) =>
               do old <- item old_notes idx;
               do p <- get (fun h => pitch_at h old);
               set_pitch note p);
  ret another_melody.

(** [[m for m in melodies if m]] *)
Fixpoint given_melodies (melodies : list (option loc)) : M World (list loc) :=
  match melodies with
  | [] => ret []
  | None :: t => given_melodies t
  | Some m :: t =>
      do keep <- melody_truthy m;
      do rest <- given_melodies t;
      ret (if keep then m :: rest else rest)
  end.

(** [functools.reduce(lambda x, y: x + y, ...)] from its first element. *)
Fixpoint reduce_add (x : loc) (others : list loc) : M World loc :=
  match others with
  | [] => ret x
  | y :: t => do z <- melody_add x y; reduce_add z t
  end.

Definition ConcatMelodies (melody_1 melody_2 melody_3 melody_4 : option loc)
    : M World loc :=
  do melodies <- given_melodies [melody_1; melody_2; melody_3; melody_4];
  match melodies with
  | [] => new_melody []
  | x :: others => reduce_add x others
  end.

Definition SubstitutePitch (rhythm sequence : loc) (crop_rhythm : bool)
    : M World loc :=
  do rhythm <- deepcopy rhythm;
  do sequence <- deepcopy sequence;
  do rhythm_length <- melody_length rhythm;
  do sequence_length <- melody_length sequence;
  do _ <- (if crop_rhythm && (sequence_length <? rhythm_length)%Z
           then crop_length rhythm sequence_length
           else ret tt);
  do notes_1 <- melody_notes rhythm;
  do notes_2 <- melody_notes sequence;
  do _ <- copy_pitches (combine notes_1 notes_2);
  ret rhythm.

Definition SubstituteRhythm (sequence rhythm : loc) : M World loc :=
  do rhythm <- deepcopy rhythm;
  do sequence <- deepcopy sequence;
  SubstitutePitch rhythm sequence true.

(* ===================================================================== *)
(** ** The operations as one family                                       *)
(* ===================================================================== *)

(** A call of one of the transforming or combining operations. *)
Inductive Operation : Type :=
| CallChangePitch (melody : loc) (amount_mode : AmountMode)
    (amount : option Z) (pitches : option (list Pitch))
| CallSwapPitch (melody : loc) (amount_mode : AmountMode) (amount : option Z)
| CallShiftPitch (melody : loc) (amount_mode : AmountMode) (amount : option Z)
| CallShufflePitch (melody : loc) (amount_mode : AmountMode) (amount : option Z)
| CallRemapPitch (melody : loc) (amount_mode : AmountMode) (amount : option Z)
| CallRevertPitch (melody : loc)
| CallChangeRhythm (melody : loc) (duration grid : option float)
    (duration_mode : DurationMode) (note_duration : option float)
| CallConcatMelodies (melody_1 melody_2 melody_3 melody_4 : option loc)
| CallSubstitutePitch (rhythm sequence : loc) (crop_rhythm : bool)
| CallSubstituteRhythm (sequence rhythm : loc).

Definition call (op : Operation) : M World loc :=
  match op with
  | CallChangePitch m mode a ps => ChangePitch m mode a ps
  | CallSwapPitch m mode a => SwapPitch m mode a
  | CallShiftPitch m mode a => ShiftPitch m mode a
  | CallShufflePitch m mode a => ShufflePitch m mode a
  | CallRemapPitch m mode a => RemapPitch m mode a
  | CallRevertPitch m => RevertPitch m
  | CallChangeRhythm m d g mode nd => ChangeRhythm m d g mode nd
  | CallConcatMelodies m1 m2 m3 m4 => ConcatMelodies m1 m2 m3 m4
  | CallSubstitutePitch r s crop => SubstitutePitch r s crop
  | CallSubstituteRhythm s r => SubstituteRhythm s r
  end.

(** ** Objects created during a call

    [h0] is the store when the call starts.  An object is fresh when it
    was created after that.  The invariant of a call: the store still
    begins with [h0], unchanged, and every fresh stream refers to fresh
    elements only. *)
Definition fresh (h0 : Heap) (l : loc) : Prop := (List.length h0 <= l)%nat.

Definition inv (h0 : Heap) (w : World) : Prop :=
  (exists ext, heap w = h0 ++ ext)
  /\ forall c els offs, fresh h0 c -> heap w !! c = Some (OStream els offs) ->
                        Forall (fresh h0) els.

(** [c] keeps the invariant, and what it returns satisfies [post]. *)
Definition safe {A} (h0 : Heap) (c : M World A) (post : A -> Prop) : Prop :=
  forall w a w', inv h0 w -> c w = Ok (a, w') -> inv h0 w' /\ post a.

(** The places of the notes among objects laid out from [base] on. *)
Fixpoint note_positions (base : nat) (evs : list Event) : list loc :=
  match evs with
  | [] => []
  | Note _ _ :: t => base :: note_positions (S base) t
  | Rest _ :: t => note_positions (S base) t
  end.

(** What [RevertPitch] computes, on values: with fewer than two notes the
    melody is copied as it is, otherwise the pitches are dealt out again
    in reverse order. *)
Definition revert_events (evs : list Event) : list Event :=
  if (Z.of_nat (mlength evs) <? 2)%Z then evs
  else assign_pitches (rev (pitches_of evs)) evs.

(** A store with one melody: C, a rest, D, E. *)
Definition sample_heap : Heap :=
  [ONote pitch_C 1; ORest 1; ONote pitch_D 2; ONote pitch_E 1;
   OStream [0; 1; 2; 3]%nat [0; 1; 2; 4]].

Definition sample_melody : loc := 4%nat.

Definition sample_world : World := mkWorld sample_heap sample_draws.

(** A store with a melody of one note. *)
Definition one_note_world : World :=
  mkWorld [ONote pitch_C 1; OStream [0%nat] [0]] sample_draws.

Definition pitch_G : Pitch := mkPitch "G" 4.

(** The sample store with a source whose draws are all 0. *)
Definition zero_world : World := mkWorld sample_heap zero_draws.

(* ===================================================================== *)
(** ** [MelodyFormula]                                                    *)
(* ===================================================================== *)

(** A call of a formula has to keep what happened before an exception:
    the values cached on the way and the hooks that ran.  So an outcome
    carries the state also when it raises. *)
Inductive Outcome (S A : Type) : Type :=
| Returned (a : A) (s : S)
| Raised (e : exn) (s : S)
| Diverged.
Arguments Returned {S A} a s.
Arguments Raised {S A} e s.
Arguments Diverged {S A}.

Definition G (S A : Type) : Type := S -> Outcome S A.

Definition greturn {S A} (a : A) : G S A := fun s => Returned a s.

Definition gbind {S A B} (c : G S A) (k : A -> G S B) : G S B :=
  fun s =>
    match c s with
    | Returned a s' => k a s'
    | Raised e s' => Raised e s'
    | Diverged => Diverged
    end.

Fixpoint gtraverse {S A B} (f : A -> G S B) (l : list A) : G S (list B) :=
  match l with
  | [] => greturn []
  | x :: t =>
      gbind (f x) (fun y => gbind (gtraverse f t) (fun ys => greturn (y :: ys)))
  end.

(** The values a parameter can hold. *)
Inductive value : Type :=
| VNone
| VBool (b : bool)
| VInt (z : Z)
| VFloat (x : float)
| VPitches (ps : list Pitch)
| VDurationMode (m : DurationMode)
| VAmountMode (m : AmountMode)
| VPath (path : string)
| VMelody (m : loc).

(** An entry of [params]: a plain value or another formula. *)
Inductive binding : Type :=
| Literal (v : value)
| Formula (node : nat).

(** A [MelodyFormula] object.  A hook is present or absent; what a hook
    does is recorded in the trace. *)
Record MelodyFormula : Type := mkFormula {
  method_name : string;
  params : list (string * binding);
  on_success : bool;
  on_error : bool;
  on_clear : bool;
  _value : option loc
}.

Inductive entry : Type :=
| Invoked (node : nat)       (* the service method was called *)
| OnSuccess (node : nat)
| OnError (node : nat)
| OnClear (node : nat).

(** The formulas are shared objects: they live in a store of their own,
    beside the objects of the melodies. *)
Record Graph : Type := mkGraph {
  world : World;
  nodes : list MelodyFormula;
  trace : list entry
}.

(** The operation library as the formulas see it:
    [getattr(MelodyService, method_name)] called with the keyword arguments. *)
Abbreviation Service := (string -> list (string * value) -> G World loc).

Definition with_value (v : option loc) (f : MelodyFormula) : MelodyFormula :=
  mkFormula (method_name f) (params f) (on_success f) (on_error f)
    (on_clear f) v.

Definition with_params (ps : list (string * binding)) (f : MelodyFormula)
    : MelodyFormula :=
  mkFormula (method_name f) ps (on_success f) (on_error f) (on_clear f)
    (_value f).

(** [self._value] used as a condition: [None] is false, and a melody is
    true when its stream has elements. *)
Definition held_value (g : Graph) (f : MelodyFormula) : option loc :=
  match _value f with
  | Some v =>
      match elements_at (heap (world g)) v with
      | Some (_ :: _) => Some v
      | _ => None
      end
  | None => None
  end.

Definition hook (present : bool) (e : entry) : list entry :=
  if present then [e] else [].

(** One item of the [kwargs] comprehension: a formula is replaced by its
    value, anything else is passed on. *)
Definition resolve (eval : nat -> G Graph loc) (kv : string * binding)
    : G Graph (string * value) :=
  match snd kv with
  | Literal v => greturn (fst kv, v)
  | Formula n => gbind (eval n) (fun m => greturn (fst kv, VMelody m))
  end.

(** The property [MelodyFormula.value].  The recursion through the
    formulas of [params] has no bound in the source; [fuel] bounds it. *)
Fixpoint formula_value (service : Service) (fuel : nat) (self : nat)
    : G Graph loc :=
  match fuel with
  | O => fun _ => Diverged
  | S fuel' =>
      fun g =>
        match nodes g !! self with
        | None => Raised AttributeError g
        | Some f =>
            match held_value g f with
            | Some v => Returned v g
            | None =>
                (* kwargs: outside the [try] *)
                match gtraverse (resolve (formula_value service fuel'))
                        (params f) g with
                | Diverged => Diverged
                | Raised e g1 => Raised e g1
                | Returned kwargs g1 =>
                    (* [try: self._value = self.service_method(...)] *)
                    match service (method_name f) kwargs (world g1) with
                    | Diverged => Diverged
                    | Raised e w2 =>
                        Raised e
                          (mkGraph w2 (nodes g1)
                             (trace g1 ++ [Invoked self]
                              ++ hook (on_error f) (OnError self)))
                    | Returned m w2 =>
                        Returned m
                          (mkGraph w2
                             (alter (with_value (Some m)) self (nodes g1))
                             (trace g1 ++ [Invoked self]
                              ++ hook (on_success f) (OnSuccess self)))
                    end
                end
            end
        end
  end.

(** [MelodyFormula.clear_value] *)
Definition clear_value (self : nat) : G Graph unit :=
  fun g =>
    match nodes g !! self with
    | None => Raised AttributeError g
    | Some f =>
        Returned tt
          (mkGraph (world g) (alter (with_value None) self (nodes g))
             (trace g ++ hook (on_clear f) (OnClear self)))
    end.

(** [dict.update] for one key: an existing key keeps its place. *)
Fixpoint dict_set {V} (d : list (string * V)) (k : string) (v : V)
    : list (string * V) :=
  match d with
  | [] => [(k, v)]
  | (k', v') :: t =>
      if String.eqb k k' then (k, v) :: t else (k', v') :: dict_set t k v
  end.

Definition dict_update {V} (d new : list (string * V)) : list (string * V) :=
  fold_left (fun d kv => dict_set d (fst kv) (snd kv)) new d.

Fixpoint dict_get {V} (d : list (string * V)) (k : string) : option V :=
  match d with
  | [] => None
  | (k', v) :: t => if String.eqb k k' then Some v else dict_get t k
  end.

(** [MelodyFormula.update_params] *)
Definition update_params (self : nat) (new : list (string * binding))
    : G Graph unit :=
  fun g =>
    match nodes g !! self with
    | None => Raised AttributeError g
    | Some f =>
        clear_value self
          (mkGraph (world g)
             (alter (fun f => with_params (dict_update (params f) new) f)
                self (nodes g))
             (trace g))
    end.

(** Run an operation of the library for a formula.  When the operation
    raises, the objects it had created are garbage and the store the
    formula goes on with is the one before the call. *)
Definition attempt {A} (c : M World A) : G World A :=
  fun w =>
    match c w with
    | Ok (a, w') => Returned a w'
    | Raise e => Raised e w
    | OutOfFuel => Diverged
    end.

(** A keyword argument that is a melody or [None]. *)
Definition optional_melody (kwargs : list (string * value)) (k : string)
    : M World (option loc) :=
  match dict_get kwargs k with
  | None | Some VNone => ret None
  | Some (VMelody m) => ret (Some m)
  | Some _ => raise TypeError
  end.

(** A library with two of the methods of [MelodyService],
    [ConcatMelodies] and [RevertPitch]; [getattr] fails on any other name.
    [RevertPitch(melody=None)] fails on [melody.length]. *)
Definition two_methods : Service :=
  fun name kwargs =>
    if String.eqb name "ConcatMelodies" then
      attempt (do m1 <- optional_melody kwargs "melody_1";
               do m2 <- optional_melody kwargs "melody_2";
               do m3 <- optional_melody kwargs "melody_3";
               do m4 <- optional_melody kwargs "melody_4";
               ConcatMelodies m1 m2 m3 m4)
    else if String.eqb name "RevertPitch" then
      attempt (do m <- optional_melody kwargs "melody";
               match m with
               | Some m => RevertPitch m
               | None => raise AttributeError
               end)
    else fun w => Raised AttributeError w.

(** [MelodyFormula.for_service_method]: every parameter starts as [None]. *)
Definition new_formula (name : string) (param_names : list string)
    (on_success on_error on_clear : bool) : MelodyFormula :=
  mkFormula name (List.map (fun k => (k, Literal VNone)) param_names)
    on_success on_error on_clear None.

Definition concat_params : list string :=
  ["melody_1"; "melody_2"; "melody_3"; "melody_4"].

(** One formula for [ConcatMelodies] with nothing connected. *)
Definition lone_concat : Graph :=
  mkGraph (mkWorld [] sample_draws)
    [new_formula "ConcatMelodies" concat_params true true true] [].


Definition graph_after {A} (c : G Graph A) (g : Graph) : Graph :=
  match c g with
  | Returned _ g' => g'
  | Raised _ g' => g'
  | Diverged => g
  end.

(** What the pitch-changing operations leave alone in an event: whether
    it is a note or a rest, and how long it lasts. *)
Definition shape (e : Event) : bool * Q := (is_note e, quarterLength e).

Definition rhythm_at (h : Heap) (m : loc) : option (list (bool * Q)) :=
  option_map (List.map shape) (events_at h m).

(** [prog] keeps the rhythm [rho] of the melody at [c], and what it
    returns satisfies [post]. *)
Definition keeps {A} (c : loc) (rho : list (bool * Q)) (prog : M World A)
    (post : A -> Prop) : Prop :=
  forall w a w',
    rhythm_at (heap w) c = Some rho -> prog w = Ok (a, w') ->
    rhythm_at (heap w') c = Some rho /\ post a.

(** The melody a pitch-changing operation works on. *)
Definition pitch_input (op : Operation) : option loc :=
  match op with
  | CallChangePitch m _ _ _ | CallSwapPitch m _ _ | CallShiftPitch m _ _
  | CallShufflePitch m _ _ | CallRemapPitch m _ _ | CallRevertPitch m => Some m
  | _ => None
  end.

(** [l[a:] + l[:a]] *)
Definition rotate {A} (a : Z) (l : list A) : list A :=
  slice_from a l ++ slice_to a l.

(** What [Melody.crop_length] keeps, on values, for a positive limit. *)
Fixpoint crop_events (wanted : nat) (evs : list Event) : list Event :=
  match evs with
  | [] => []
  | Note p d :: t =>
      match wanted with
      | 1%nat => [Note p d]
      | _ => Note p d :: crop_events (Nat.pred wanted) t
      end
  | Rest d :: t => Rest d :: crop_events wanted t
  end.

(** The events of an optional melody argument: none for [None]. *)
Definition events_or_none (h : Heap) (m : option loc) : option (list Event) :=
  match m with
  | None => Some []
  | Some l => events_at h l
  end.

(** A [RevertPitch] formula whose parameter is the sample melody. *)
Definition revert_graph : Graph :=
  mkGraph sample_world
    [with_params [("melody", Literal (VMelody sample_melody))]
       (new_formula "RevertPitch" ["melody"] true true true)] [].

(** [c] neither adds nor removes formulas. *)
Definition keeps_nodes {A} (c : G Graph A) : Prop :=
  forall g, List.length (nodes (graph_after c g)) = List.length (nodes g).

(** What [Melody.crop_length] leaves of the events, for any limit. *)
Definition crop_limit (limit : Z) (evs : list Event) : list Event :=
  if (limit <=? 0)%Z then [] else crop_events (Z.to_nat limit) evs.

(** What [SubstitutePitch] computes, on values. *)
Definition substitute_events (rhythm sequence : list Event)
    (crop_rhythm : bool) : list Event :=
  let kept :=
    if crop_rhythm
       && (Z.of_nat (mlength sequence) <? Z.of_nat (mlength rhythm))%Z
    then crop_limit (Z.of_nat (mlength sequence)) rhythm
    else rhythm in
  assign_pitches (pitches_of sequence) kept.

(** The pitches a call of a pitch-changing operation brings along: the
    [pitches] argument of [ChangePitch], when it is given. *)
Definition offered_pitches (op : Operation) : list Pitch :=
  match op with
  | CallChangePitch _ _ _ (Some ps) => ps
  | _ => []
  end.

(** The state of a pitch-changing operation at work on its copy [c]: the
    notes of the copy are [N], and every note created since the store had
    [b] objects carries a pitch of [P]. *)
Definition closed_state (P : list Pitch) (b : nat) (c : loc) (N : list loc)
    (w : World) : Prop :=
  (b <= List.length (heap w))%nat
  /\ notes_at (heap w) c = Some N
  /\ forall l p, (b <= l)%nat -> pitch_at (heap w) l = Some p -> In p P.

(** [prog] keeps that state, and what it returns satisfies [post]. *)
Definition closed {A} (P : list Pitch) (b : nat) (c : loc) (N : list loc)
    (prog : M World A) (post : A -> Prop) : Prop :=
  forall w a w',
    closed_state P b c N w -> prog w = Ok (a, w') ->
    closed_state P b c N w' /\ post a.

(** The pitch of the note at [n]; the default is never used on a note. *)
Definition pitch_or (h : Heap) (n : loc) : Pitch :=
  match pitch_at h n with
  | Some p => p
  | None => mkPitch "C" 0
  end.

(** The exchange of the locations [a] and [b]. *)
Definition transpose (a b n : loc) : loc :=
  if decide (n = a) then b else if decide (n = b) then a else n.

(** The image of a pitch under the [pitches_mapping] of [RemapPitch]; a
    pitch that is no key of the mapping is left as it is. *)
Fixpoint remap (mapping : list (Pitch * Pitch)) (p : Pitch) : Pitch :=
  match mapping with
  | [] => p
  | (k, v) :: t => if pitch_eqb k p then v else remap t p
  end.

(** The number of notes whose pitch differs between two pitch sequences of
    the same melody. *)
Definition changed_count (after before : list Pitch) : nat :=
  List.length
    (List.filter (fun '(a, b) => negb (pitch_eqb a b)) (combine after before)).









(** [c] only adds to the trace. *)
Definition grows {A} (c : G Graph A) : Prop :=
  forall g, exists added, trace (graph_after c g) = trace g ++ added.

(* ===================================================================== *)
(** * Theorems                                                            *)
(* ===================================================================== *)

(** ** Facts about [normalize] *)



Lemma drop_null_rests_no_null m : no_null_rest (drop_null_rests m).
Proof.
  unfold no_null_rest, drop_null_rests.
  induction m as [|e t IH]; simpl; [constructor|].
  destruct (is_null_rest e) eqn:E; simpl; auto.
Qed.


Lemma notes_drop_null_rests m : notes (drop_null_rests m) = notes m.
Proof.
  unfold notes, drop_null_rests.
  induction m as [|[p d|d] t IH]; simpl; [reflexivity | f_equal; exact IH |].
  destruct (Qeq_bool d 0); simpl; exact IH.
Qed.

Lemma notes_join_pairs e t : notes (join_pairs e t) = notes (e :: t).
Proof.
  revert e; induction t as [|e2 t IH]; intros e; [reflexivity|].
  destruct e as [p d|d], e2 as [p2 d2|d2]; simpl;
    unfold notes in *; simpl; rewrite IH; reflexivity.
Qed.

Lemma notes_join_consecutive_rests m :
  notes (join_consecutive_rests m) = notes m.
Proof. destruct m; [reflexivity | apply notes_join_pairs]. Qed.

Lemma total_drop_null_rests m :
  total_duration (drop_null_rests m) == total_duration m.
Proof.
  induction m as [|[p d|d] t IH]; simpl; [reflexivity | rewrite IH; reflexivity |].
  destruct (Qeq_bool d 0) eqn:E; simpl.
  - apply Qeq_bool_eq in E. unfold drop_null_rests in IH. rewrite IH, E. ring.
  - unfold drop_null_rests in IH. rewrite IH. reflexivity.
Qed.

Lemma total_join_pairs e t :
  total_duration (join_pairs e t) == total_duration (e :: t).
Proof.
  revert e; induction t as [|e2 t IH]; intros e; [reflexivity|].
  destruct e as [p d|d], e2 as [p2 d2|d2]; simpl;
    rewrite IH; simpl; ring.
Qed.

Lemma total_join_consecutive_rests m :
  total_duration (join_consecutive_rests m) == total_duration m.
Proof. destruct m; [reflexivity | apply total_join_pairs]. Qed.




Lemma normalize_no_null_rest m : no_null_rest (normalize m).
Proof. apply drop_null_rests_no_null. Qed.


Lemma notes_normalize m : notes (normalize m) = notes m.
Proof.
  unfold normalize.
  now rewrite notes_drop_null_rests, notes_join_consecutive_rests,
    notes_drop_null_rests.
Qed.

Lemma total_normalize m : total_duration (normalize m) == total_duration m.
Proof.
  unfold normalize.
  now rewrite total_drop_null_rests, total_join_consecutive_rests,
    total_drop_null_rests.
Qed.


(** ** The monad *)

Lemma bind_Ok {S A B} (c : M S A) (k : A -> M S B) s b s' :
  bind c k s = Ok (b, s') ->
  exists a s1, c s = Ok (a, s1) /\ k a s1 = Ok (b, s').
Proof.
  unfold bind. destruct (c s) as [[a s1]| |]; try discriminate.
  intros H. exists a, s1. split; [reflexivity | exact H].
Qed.

Lemma bind_step {S A B} (c : M S A) (k : A -> M S B) s a s1 :
  c s = Ok (a, s1) -> bind c k s = k a s1.
Proof. unfold bind. intros ->. reflexivity. Qed.

Ltac inv_bind H :=
  let a := fresh "a" in
  let s := fresh "s" in
  let H1 := fresh H "a" in
  apply bind_Ok in H; destruct H as (a & s & H1 & H).

Ltac inv_ret H :=
  unfold ret in H; injection H as <- <-.

(** ** The random source *)

Lemma nth_remove_at_perm {A} (i : nat) (l : list A) (x : A) :
  (i < List.length l)%nat -> Permutation (nth i l x :: remove_at i l) l.
Proof.
  unfold remove_at. revert i; induction l as [|a t IH]; intros i Hi; simpl in *.
  - lia.
  - destruct i as [|j]; simpl.
    + unfold skipn. reflexivity.
    + etransitivity; [apply perm_swap | apply perm_skip, IH; lia].
Qed.

Lemma length_remove_at {A} (i : nat) (l : list A) :
  (i < List.length l)%nat -> List.length (remove_at i l) = Nat.pred (List.length l).
Proof.
  intros Hi. unfold remove_at.
  rewrite List.length_app, List.length_firstn, List.length_skipn. lia.
Qed.

Lemma draw_Ok r : draw r = Ok (r 0%nat, fun i => r (S i)).
Proof. reflexivity. Qed.

Lemma choice_cons {A} (a : A) (t : list A) r :
  choice (a :: t) r
  = Ok (nth (r 0%nat mod List.length (a :: t)) (a :: t) a, fun i => r (S i)).
Proof. reflexivity. Qed.

Lemma choice_total {A} (l : list A) r :
  l <> [] -> exists x r', choice l r = Ok (x, r') /\ In x l.
Proof.
  destruct l as [|a t]; [congruence|]. intros _.
  rewrite choice_cons. eexists _, _. split; [reflexivity|].
  apply nth_In, Nat.mod_upper_bound. discriminate.
Qed.

Lemma choice_In {A} (l : list A) r x r' :
  choice l r = Ok (x, r') -> In x l.
Proof.
  destruct l as [|a t]; [discriminate|].
  rewrite choice_cons. intros H.
  assert (E : x = nth (r 0%nat mod List.length (a :: t)) (a :: t) a) by congruence.
  rewrite E. apply nth_In, Nat.mod_upper_bound. discriminate.
Qed.

Lemma sample_go_cons {A} (k : nat) (a : A) (t : list A) r :
  sample_go (S k) (a :: t) r
  = match sample_go k (remove_at (r 0%nat mod List.length (a :: t)) (a :: t))
            (fun j => r (S j)) with
    | Ok (rest, r') =>
        Ok (nth (r 0%nat mod List.length (a :: t)) (a :: t) a :: rest, r')
    | Raise e => Raise e
    | OutOfFuel => OutOfFuel
    end.
Proof.
  cbn [sample_go]. unfold bind at 1. rewrite draw_Ok. unfold bind, ret.
  destruct (sample_go k _ _) as [[rest r']| |]; reflexivity.
Qed.

Lemma sample_go_spec {A} (k : nat) (l : list A) r res r' :
  sample_go k l r = Ok (res, r') ->
  List.length res = k /\ exists rest, Permutation (res ++ rest) l.
Proof.
  revert l r res r'; induction k as [|k IH]; intros l r res r' H.
  - simpl in H. inv_ret H. split; [reflexivity|]. exists l. reflexivity.
  - destruct l as [|a t]; [discriminate|].
    rewrite sample_go_cons in H.
    remember (r 0%nat mod List.length (a :: t))%nat as i eqn:Ei.
    assert (Hi : (i < List.length (a :: t))%nat)
      by (subst i; apply Nat.mod_upper_bound; discriminate).
    destruct (sample_go k _ _) as [[rest0 r0]| |] eqn:E; try discriminate.
    apply IH in E as [Hlen [rest Hp]].
    injection H as <- <-.
    split; [simpl; congruence|].
    exists rest. rewrite <- app_comm_cons, Hp.
    exact (nth_remove_at_perm i (a :: t) a Hi).
Qed.

Lemma sample_go_total {A} (k : nat) (l : list A) r :
  (k <= List.length l)%nat -> exists res r', sample_go k l r = Ok (res, r').
Proof.
  revert l r; induction k as [|k IH]; intros l r Hk.
  - eexists _, _. reflexivity.
  - destruct l as [|a t]; [simpl in Hk; lia|].
    rewrite sample_go_cons.
    set (i := (r 0%nat mod List.length (a :: t))%nat).
    assert (Hi : (i < List.length (a :: t))%nat)
      by (apply Nat.mod_upper_bound; discriminate).
    destruct (IH (remove_at i (a :: t)) (fun j => r (S j))) as (res & r' & E).
    { rewrite length_remove_at by exact Hi. simpl in *. lia. }
    rewrite E. eexists _, _. reflexivity.
Qed.

Lemma sample_go_NoDup {A} (k : nat) (l : list A) r res r' :
  sample_go k l r = Ok (res, r') -> List.NoDup l -> List.NoDup res.
Proof.
  intros H Hnd. apply sample_go_spec in H as [_ [rest Hp]].
  apply (Permutation_NoDup (Permutation_sym Hp)) in Hnd.
  apply NoDup_app_remove_r in Hnd. exact Hnd.
Qed.

Lemma sample_go_In {A} (k : nat) (l : list A) r res r' x :
  sample_go k l r = Ok (res, r') -> In x res -> In x l.
Proof.
  intros H Hx. apply sample_go_spec in H as [_ [rest Hp]].
  apply (Permutation_in _ Hp). apply in_or_app. left; exact Hx.
Qed.

Lemma shuffle_total {A} (l : list A) r :
  exists res r', shuffle l r = Ok (res, r') /\ Permutation res l.
Proof.
  destruct (sample_go_total (List.length l) l r (le_n _)) as (res & r' & E).
  exists res, r'. split; [exact E|].
  apply sample_go_spec in E as [Hlen [rest Hp]].
  assert (rest = []) as ->.
  { apply Permutation_length in Hp. rewrite List.length_app in Hp.
    destruct rest; [reflexivity | simpl in Hp; lia]. }
  rewrite app_nil_r in Hp. exact Hp.
Qed.

Lemma shuffle_Permutation {A} (l : list A) r res r' :
  shuffle l r = Ok (res, r') -> Permutation res l.
Proof.
  intros H. destruct (shuffle_total l r) as (res0 & r0 & E & Hp).
  rewrite E in H. injection H as <- _. exact Hp.
Qed.

Lemma choices_go_spec {A} (l : list A) (k : nat) r res r' :
  choices_go l k r = Ok (res, r') ->
  List.length res = k /\ Forall (fun x => In x l) res.
Proof.
  revert r res r'; induction k as [|k IH]; intros r res r' H; simpl in H.
  - inv_ret H. split; [reflexivity | constructor].
  - inv_bind H. inv_bind H. inv_ret H.
    apply choice_In in Ha. apply IH in Ha0 as [Hlen Hall].
    split; [simpl; congruence | constructor; assumption].
Qed.

Lemma choices_go_total {A} (l : list A) (k : nat) r :
  l <> [] -> exists res r', choices_go l k r = Ok (res, r').
Proof.
  intros Hl. revert r; induction k as [|k IH]; intros r; simpl.
  - eexists _, _. reflexivity.
  - destruct (choice_total l r Hl) as (x & r1 & E & _).
    rewrite (bind_step _ _ _ _ _ E).
    destruct (IH r1) as (res & r2 & E2).
    rewrite (bind_step _ _ _ _ _ E2). eexists _, _. reflexivity.
Qed.

Lemma choices_go_fuel {A} (l : list A) (k : nat) r :
  choices_go l k r <> OutOfFuel.
Proof.
  revert r; induction k as [|k IH]; intros r; [discriminate|].
  cbn [choices_go]. unfold bind at 1.
  destruct l as [|a t]; [discriminate|].
  rewrite choice_cons. unfold bind.
  specialize (IH (fun i => r (S i))).
  destruct (choices_go (a :: t) k _) as [[rest r1]|e|];
    [discriminate | discriminate | congruence].
Qed.

Lemma choices_go_empty {A} (k : nat) r :
  (0 < k)%nat -> choices_go (@nil A) k r = Raise IndexError.
Proof. destruct k; [lia | reflexivity]. Qed.

(** ** Ranges, maxima and sorting *)

Lemma In_py_range a b x : In x (py_range a b) <-> (a <= x < b)%Z.
Proof.
  unfold py_range. rewrite in_map_iff. split.
  - intros (i & <- & Hi). apply in_seq in Hi. lia.
  - intros H. exists (Z.to_nat (x - a)). split; [lia|]. apply in_seq. lia.
Qed.

Lemma length_py_range a b : List.length (py_range a b) = Z.to_nat (b - a).
Proof. unfold py_range. now rewrite List.length_map, List.length_seq. Qed.

Lemma NoDup_py_range a b : List.NoDup (py_range a b).
Proof.
  unfold py_range. apply Finite.Injective_map_NoDup; [|apply seq_NoDup].
  intros i j H. lia.
Qed.

Lemma fold_max_spec (l : list Z) (x : Z) :
  (x <= fold_left Z.max l x)%Z
  /\ Forall (fun y => (y <= fold_left Z.max l x)%Z) l
  /\ In (fold_left Z.max l x) (x :: l).
Proof.
  revert x; induction l as [|y t IH]; intros x; simpl.
  - repeat split; [lia | constructor | now left].
  - destruct (IH (Z.max x y)) as (H1 & H2 & H3). repeat split.
    + lia.
    + constructor; [lia | exact H2].
    + destruct H3 as [H3|H3]; [|now right; right].
      rewrite <- H3. destruct (Z.max_spec x y) as [[_ ->]|[_ ->]]; auto.
Qed.

Lemma py_max_range {S} a b (s : S) :
  (a < b)%Z -> py_max (py_range a b) s = Ok ((b - 1)%Z, s).
Proof.
  intros Hab. destruct (py_range a b) as [|x t] eqn:E.
  - apply (f_equal (@List.length Z)) in E. rewrite length_py_range in E.
    simpl in E. lia.
  - unfold py_max, ret. do 2 f_equal.
    destruct (fold_max_spec t x) as (H1 & H2 & H3).
    rewrite <- E in H3. apply In_py_range in H3.
    assert (Hin : In (b - 1)%Z (x :: t)) by (rewrite <- E; apply In_py_range; lia).
    destruct Hin as [Hx|Hin]; [lia|].
    rewrite List.Forall_forall in H2. apply H2 in Hin. lia.
Qed.

Lemma In_insert_sorted x y l : In y (insert_sorted x l) <-> y = x \/ In y l.
Proof.
  induction l as [|z t IH]; simpl; [intuition congruence|].
  destruct (x <=? z)%Z; simpl; [intuition congruence|].
  rewrite IH. intuition congruence.
Qed.

Lemma In_py_sort y l : In y (py_sort l) <-> In y l.
Proof.
  induction l as [|x t IH]; simpl; [tauto|].
  rewrite In_insert_sorted, IH. intuition congruence.
Qed.

Lemma length_insert_sorted x l :
  List.length (insert_sorted x l) = S (List.length l).
Proof.
  induction l as [|z t IH]; simpl; [reflexivity|].
  destruct (x <=? z)%Z; simpl; congruence.
Qed.

Lemma length_py_sort l : List.length (py_sort l) = List.length l.
Proof.
  induction l as [|x t IH]; simpl; [reflexivity|].
  rewrite length_insert_sorted. congruence.
Qed.

Lemma chain_insert_sorted y x t :
  chain_lt y t -> (y < x)%Z -> ~ In x t -> chain_lt y (insert_sorted x t).
Proof.
  revert y; induction t as [|z t IH]; intros y Hc Hyx Hx; simpl in *.
  - auto.
  - destruct Hc as [Hyz Hc]. destruct (Z.leb_spec x z); simpl.
    + repeat split; auto. assert (x <> z) by intuition. lia.
    + split; [exact Hyz|]. apply IH; [exact Hc | lia | tauto].
Qed.

Lemma ascending_insert_sorted x l :
  ascending l -> ~ In x l -> ascending (insert_sorted x l).
Proof.
  destruct l as [|z t]; simpl; [auto|]. intros Hc Hx.
  destruct (Z.leb_spec x z); simpl.
  - split; [|exact Hc]. assert (x <> z) by intuition. lia.
  - apply chain_insert_sorted; [exact Hc | lia | tauto].
Qed.

Lemma ascending_py_sort l : List.NoDup l -> ascending (py_sort l).
Proof.
  induction 1 as [|x t Hx _ IH]; simpl; [exact I|].
  apply ascending_insert_sorted; [exact IH|]. now rewrite In_py_sort.
Qed.

Lemma chain_lt_snoc x s n :
  chain_lt x s -> (x < n)%Z -> (forall y, In y s -> (y < n)%Z) ->
  chain_lt x (s ++ [n]).
Proof.
  revert x; induction s as [|y t IH]; intros x Hc Hx Hall; simpl in *.
  - auto.
  - destruct Hc as [Hxy Hc]. split; [exact Hxy|].
    apply IH; auto.
Qed.

(** ** Durations *)

Lemma total_duration_app a b :
  total_duration (a ++ b) == total_duration a + total_duration b.
Proof.
  induction a as [|e t IH]; simpl; [ring | rewrite IH; ring].
Qed.

Lemma mlength_app a b : mlength (a ++ b) = (mlength a + mlength b)%nat.
Proof. unfold mlength, notes. now rewrite List.filter_app, List.length_app. Qed.

Lemma total_duration_Permutation a b :
  Permutation a b -> total_duration a == total_duration b.
Proof.
  induction 1 as [|x l l' _ IH|x y l|l l' l'' _ IH1 _ IH2]; simpl.
  - reflexivity.
  - rewrite IH. reflexivity.
  - ring.
  - rewrite IH1. exact IH2.
Qed.

Lemma mlength_Permutation a b : Permutation a b -> mlength a = mlength b.
Proof.
  unfold mlength, notes.
  induction 1 as [|x l l' _ IH|x y l|l l' l'' _ IH1 _ IH2]; simpl.
  - reflexivity.
  - destruct (is_note x); simpl; congruence.
  - destruct (is_note x), (is_note y); reflexivity.
  - congruence.
Qed.

Lemma total_duration_repeat e n :
  total_duration (repeat e n) == inject_Z (Z.of_nat n) * quarterLength e.
Proof.
  induction n as [|n IH].
  - simpl. ring.
  - cbn [repeat total_duration]. rewrite IH, Nat2Z.inj_succ.
    unfold Z.succ. rewrite inject_Z_plus. ring.
Qed.

Lemma mlength_repeat_note p d n : mlength (repeat (Note p d) n) = n.
Proof.
  unfold mlength, notes. induction n as [|n IH]; simpl; congruence.
Qed.

Lemma mlength_repeat_rest d n : mlength (repeat (Rest d) n) = 0%nat.
Proof.
  unfold mlength, notes. induction n as [|n IH]; simpl; congruence.
Qed.

Lemma mlength_normalize m : mlength (normalize m) = mlength m.
Proof. unfold mlength. now rewrite notes_normalize. Qed.

(** ** Streams and their elements *)

Lemma length_append_offsets (t : Q) (m : Melody) :
  List.length (append_offsets t m) = List.length m.
Proof.
  revert t; induction m as [|e m IH]; intros t; simpl; [|rewrite IH];
    reflexivity.
Qed.

Lemma events_combine (offs : list Q) (m : Melody) :
  List.length offs = List.length m -> events (combine offs m) = m.
Proof.
  unfold events. revert m; induction offs as [|o offs IH]; intros [|e m] H;
    try discriminate; [reflexivity|].
  simpl. f_equal. apply IH. simpl in H. lia.
Qed.

Lemma offsets_combine (offs : list Q) (m : Melody) :
  List.length offs = List.length m -> offsets (combine offs m) = offs.
Proof.
  unfold offsets. revert m; induction offs as [|o offs IH]; intros [|e m] H;
    try discriminate; [reflexivity|].
  simpl. f_equal. apply IH. simpl in H. lia.
Qed.

Lemma events_place (m : Melody) : events (place m) = m.
Proof. apply events_combine, length_append_offsets. Qed.

Lemma offsets_place (m : Melody) : offsets (place m) = append_offsets 0 m.
Proof. apply offsets_combine, length_append_offsets. Qed.

Lemma length_events_offsets (s : Stream) :
  List.length (offsets s) = List.length (events s).
Proof. unfold offsets, events. now rewrite !List.length_map. Qed.

Lemma events_drop_null_rests_at (s : Stream) :
  events (drop_null_rests_at s) = drop_null_rests (events s).
Proof.
  unfold events, drop_null_rests_at, drop_null_rests.
  induction s as [|[o e] s IH]; simpl; [reflexivity|].
  destruct (is_null_rest e); simpl; congruence.
Qed.

Lemma events_join_pairs_at (s : Stream) :
  forall oe, events (join_pairs_at oe s) = join_pairs (snd oe) (events s).
Proof.
  induction s as [|[o2 e2] s IH]; intros [o1 e1]; [reflexivity|].
  destruct e1 as [p1 d1|d1], e2 as [p2 d2|d2]; simpl;
    rewrite IH; reflexivity.
Qed.

Lemma events_normalize_stream (s : Stream) :
  events (normalize_stream s) = normalize (events s).
Proof.
  unfold normalize_stream, normalize.
  rewrite events_drop_null_rests_at. f_equal.
  rewrite <- events_drop_null_rests_at.
  destruct (drop_null_rests_at s) as [|oe t]; [reflexivity|].
  apply events_join_pairs_at.
Qed.

(** A property of events that the null rest has and that joining two rests
    keeps is kept by [normalize]. *)
Lemma normalize_Forall (P : Event -> Prop) (m : Melody) :
  P (Rest 0) ->
  (forall d1 d2, P (Rest d1) -> P (Rest d2) -> P (Rest (d2 + d1))) ->
  Forall P m -> Forall P (normalize m).
Proof.
  intros H0 Hsum H.
  assert (Hdrop : forall l, Forall P l -> Forall P (drop_null_rests l)).
  { unfold drop_null_rests. induction 1 as [|e t He _ IH]; simpl;
      [constructor|].
    destruct (is_null_rest e); simpl; [exact IH | constructor; assumption]. }
  assert (Hjoin : forall t e, P e -> Forall P t -> Forall P (join_pairs e t)).
  { induction t as [|e2 t IH]; intros e He Ht; simpl.
    - repeat constructor. exact He.
    - inversion Ht as [|? ? He2 Ht']; subst.
      destruct e as [p d|d], e2 as [p2 d2|d2];
        try (constructor; [assumption | apply IH; assumption]).
      constructor; [exact H0|].
      apply IH; [apply Hsum; assumption | exact Ht']. }
  unfold normalize. apply Hdrop. apply Hdrop in H.
  destruct (drop_null_rests m) as [|e t]; [constructor|].
  inversion H; subst. apply Hjoin; assumption.
Qed.

(** ** Python numbers *)

Lemma Qltb_false a b : Qltb a b = false -> b <= a.
Proof.
  unfold Qltb. intros H. apply Qle_bool_iff.
  destruct (Qle_bool b a); [reflexivity | discriminate].
Qed.

Lemma not_finite_Ok {S A} (x : float) (s s' : S) (a : A) :
  not_finite x s = Ok (a, s') -> False.
Proof. unfold not_finite. destruct (is_nan x); discriminate. Qed.

Lemma float_of_int_Ok {S} (n : Z) (x : float) (s s' : S) :
  float_of_int n s = Ok (x, s') -> x = float_of_Z n /\ s' = s.
Proof.
  unfold float_of_int. cbv zeta.
  destruct (is_infinity (float_of_Z n)); [discriminate|].
  intros H. inv_ret H. split; reflexivity.
Qed.

Lemma int_mul_float_Ok {S} (n : Z) (y x : float) (s s' : S) :
  int_mul_float n y s = Ok (x, s') ->
  x = (float_of_Z n * y)%float /\ s' = s.
Proof.
  unfold int_mul_float. intros H. inv_bind H.
  apply float_of_int_Ok in Ha as [-> ->]. inv_ret H. split; reflexivity.
Qed.

Lemma float_mul_int_Ok {S} (y : float) (n : Z) (x : float) (s s' : S) :
  float_mul_int y n s = Ok (x, s') ->
  x = (y * float_of_Z n)%float /\ s' = s.
Proof.
  unfold float_mul_int. intros H. inv_bind H.
  apply float_of_int_Ok in Ha as [-> ->]. inv_ret H. split; reflexivity.
Qed.

Lemma float_div_Ok {S} (x y q : float) (s s' : S) :
  float_div x y s = Ok (q, s') ->
  q = (x / y)%float /\ (y =? 0)%float = false /\ s' = s.
Proof.
  unfold float_div. destruct (y =? 0)%float; [discriminate|].
  intros H. inv_ret H. repeat split.
Qed.

Lemma int_of_float_Ok {S} (x : float) (z : Z) (s s' : S) :
  int_of_float x s = Ok (z, s') ->
  (exists q, as_integer_ratio x = Some q
             /\ z = Z.quot (Qnum q) (Zpos (Qden q)))
  /\ s' = s.
Proof.
  unfold int_of_float. destruct (as_integer_ratio x) as [q|].
  - intros H. inv_ret H. split; [|reflexivity]. exists q. split; reflexivity.
  - intros H. apply not_finite_Ok in H. contradiction.
Qed.

Lemma float_of_Fraction_Ok {S} (q : Q) (x : float) (s s' : S) :
  float_of_Fraction q s = Ok (x, s') -> s' = s.
Proof.
  unfold float_of_Fraction. destruct (Qnum q) as [|n|n].
  - intros H. inv_ret H. reflexivity.
  - destruct (SFdiv_core_binary _ _ _ _ _ _) as [[m e] l].
    destruct (is_infinity _); [discriminate|].
    intros H. inv_ret H. reflexivity.
  - destruct (SFdiv_core_binary _ _ _ _ _ _) as [[m e] l].
    destruct (is_infinity _); [discriminate|].
    intros H. inv_ret H. reflexivity.
Qed.

Lemma number_div_float_Ok {S} (a : number) (y q : float) (s s' : S) :
  number_div_float a y s = Ok (q, s') -> (y =? 0)%float = false /\ s' = s.
Proof.
  destruct a as [x|f]; simpl; intros H.
  - apply float_div_Ok in H as (_ & H1 & H2). split; assumption.
  - inv_bind H. apply float_of_Fraction_Ok in Ha as ->.
    apply float_div_Ok in H as (_ & H1 & H2). split; assumption.
Qed.

Lemma number_of_Q_Ok {S} (q : Q) (a : number) (s s' : S) :
  number_of_Q q s = Ok (a, s') -> s' = s.
Proof.
  unfold number_of_Q. cbv zeta. destruct (is_power_of_two _).
  - intros H. apply bind_Ok in H as (x & s1 & Hx & H).
    apply float_of_Fraction_Ok in Hx as ->. inv_ret H. reflexivity.
  - intros H. inv_ret H. reflexivity.
Qed.

Lemma Duration_Ok {S} (x : float) (d : Q) (s s' : S) :
  Duration x s = Ok (d, s') -> opFrac x = Some d /\ s' = s.
Proof.
  unfold Duration. destruct (opFrac x) as [q|].
  - intros H. inv_ret H. split; reflexivity.
  - intros H. apply not_finite_Ok in H. contradiction.
Qed.

Lemma Duration_of_slots_Ok {S} (n : Z) (g : float) (d : Q) (s s' : S) :
  Duration_of_slots n g s = Ok (d, s') ->
  opFrac (float_of_Z n * g) = Some d /\ s' = s.
Proof.
  unfold Duration_of_slots. intros H. inv_bind H.
  apply int_mul_float_Ok in Ha as [-> ->]. apply Duration_Ok in H. exact H.
Qed.

(** The product of no slots and a float is null when it has a
    [Duration] at all. *)
Lemma no_slots_null (g : float) (d : Q) :
  opFrac (float_of_Z 0 * g) = Some d ->
  float_truthy (float_of_Z 0 * g) = false.
Proof.
  unfold opFrac, as_integer_ratio, float_truthy.
  rewrite FloatAxioms.eqb_spec, FloatAxioms.mul_spec.
  change (Prim2SF (float_of_Z 0)) with (S754_zero false).
  change (Prim2SF 0) with (S754_zero false).
  destruct (Prim2SF g) as [sg| | |sg mg eg]; simpl;
    intros H; try discriminate; reflexivity.
Qed.

(** A comprehension whose elements are all built from [Duration(x)]. *)
Lemma traverse_Duration_Ok {S} (make : Q -> Event) (x : float) (l : list Z)
    (res : list Event) (s s' : S) :
  traverse (fun _ => do d <- Duration x; ret (make d)) l s = Ok (res, s') ->
  s' = s
  /\ ((l = [] /\ res = [])
      \/ exists d, opFrac x = Some d /\ res = repeat (make d) (List.length l)).
Proof.
  unfold Duration. destruct (opFrac x) as [d|].
  - intros H. assert (E : res = repeat (make d) (List.length l) /\ s' = s).
    { revert res s H; induction l as [|a l IH]; intros res s H.
      - inv_ret H. split; reflexivity.
      - cbn [traverse] in H. inv_bind H. inv_bind Ha. inv_ret Ha. inv_ret Haa.
        inv_bind H. inv_ret H. apply IH in Ha as [-> ->].
        split; reflexivity. }
    destruct E as [-> ->]. split; [reflexivity|]. right. exists d.
    split; reflexivity.
  - destruct l as [|a l]; intros H.
    + inv_ret H. split; [reflexivity|]. left. split; reflexivity.
    + cbn [traverse] in H. inv_bind H. inv_bind Ha.
      apply not_finite_Ok in Haa. contradiction.
Qed.

(** ** What the parameter checks establish *)

Lemma check_params_Ok {S} (pitches : list Pitch) (length : Z)
    (duration : number) (g : float) (mode : DurationMode)
    (note_duration : option float) (alternate use_all : bool)
    (s s' : S) (slots : Z) :
  check_params pitches length duration g mode note_duration alternate use_all s
  = Ok (Some slots, s') ->
  s' = s
  /\ (0 < length <= slots)%Z
  /\ (alternate = true -> (2 <= List.length pitches)%nat)
  /\ (use_all = true -> (Z.of_nat (List.length pitches) <= length)%Z).
Proof.
  unfold check_params.
  destruct (Z.leb_spec length 0) as [|Hlen]; [discriminate|].
  destruct (number_ltb_float duration g); [discriminate|].
  intros H. apply bind_Ok in H as (q & s1 & Hq & H).
  apply number_div_float_Ok in Hq as [_ ->].
  apply bind_Ok in H as (n & s2 & Hn & H).
  apply int_of_float_Ok in Hn as [_ ->].
  destruct (negb _) in H; [discriminate|].
  destruct (Z.ltb_spec n length) as [|Hfit]; [discriminate|].
  apply bind_Ok in H as (u & s3 & Hu & H).
  destruct (alternate && _) eqn:E4 in H; [discriminate|].
  destruct (use_all && _) eqn:E5 in H; [discriminate|].
  unfold ret in H. injection H as <- <-.
  assert (s3 = s) as ->.
  { destruct mode; try (unfold ret in Hu; congruence).
    destruct note_duration as [nd|]; [|discriminate].
    destruct (negb (float_truthy nd)); [discriminate|].
    apply bind_Ok in Hu as (x & s4 & Hx & Hu).
    apply float_mul_int_Ok in Hx as [_ ->].
    destruct (float_gtb_number x duration); [discriminate|].
    destruct (nd <? g)%float; [discriminate|].
    apply bind_Ok in Hu as (y & s5 & Hy & Hu).
    apply float_div_Ok in Hy as (_ & _ & ->).
    apply bind_Ok in Hu as (k & s6 & Hk & Hu).
    apply int_of_float_Ok in Hk as [_ ->].
    destruct (negb _) in Hu; [discriminate|].
    unfold ret in Hu. congruence. }
  repeat split; auto; try lia.
  - intros ->. simpl in E4. apply Nat.ltb_ge in E4. exact E4.
  - intros ->. simpl in E5. apply Z.ltb_ge in E5. exact E5.
Qed.

Lemma check_params_None {S} (pitches : list Pitch) (length : Z)
    (duration : number) (g : float) (mode : DurationMode)
    (note_duration : option float) (alternate use_all : bool) (s s' : S) :
  check_params pitches length duration g mode note_duration alternate use_all s
  = Ok (None, s') ->
  (length <= 0)%Z.
Proof.
  unfold check_params.
  destruct (Z.leb_spec length 0) as [|Hlen]; [intros _; assumption|].
  destruct (number_ltb_float duration g); [discriminate|].
  intros H. apply bind_Ok in H as (q & s1 & Hq & H).
  apply bind_Ok in H as (n & s2 & Hn & H).
  destruct (negb _) in H; [discriminate|].
  destruct (n <? length)%Z; [discriminate|].
  apply bind_Ok in H as (u & s3 & Hu & H).
  destruct (alternate && _) in H; [discriminate|].
  destruct (use_all && _) in H; discriminate.
Qed.

(** In the mode [Fixed] the checks have seen a note length. *)
Lemma check_params_Fixed {S} (pitches : list Pitch) (length : Z)
    (duration : number) (g : float) (note_duration : option float)
    (alternate use_all : bool) (s s' : S) (slots : Z) :
  check_params pitches length duration g DFixed note_duration alternate
    use_all s = Ok (Some slots, s') ->
  exists nd, note_duration = Some nd /\ float_truthy nd = true.
Proof.
  unfold check_params.
  destruct (length <=? 0)%Z; [discriminate|].
  destruct (number_ltb_float duration g); [discriminate|].
  intros H. apply bind_Ok in H as (q & s1 & Hq & H).
  apply bind_Ok in H as (n & s2 & Hn & H).
  destruct (negb _) in H; [discriminate|].
  destruct (n <? length)%Z; [discriminate|].
  apply bind_Ok in H as (u & s3 & Hu & H).
  destruct note_duration as [nd|]; [|discriminate].
  exists nd. split; [reflexivity|].
  destruct (float_truthy nd); [reflexivity | discriminate].
Qed.

(** ** Step 1 of [GenerateMelody]: the rhythm *)

Lemma last_cons_default {A} (x d : A) (t : list A) :
  List.last (x :: t) d = List.last t x.
Proof.
  revert x d; induction t as [|y t IH]; intros x d; [reflexivity|].
  change (List.last (x :: y :: t) d) with (List.last (y :: t) d).
  rewrite (IH y d), (IH y x). reflexivity.
Qed.

Lemma chain_lt_last (x : Z) (l : list Z) :
  chain_lt x l -> (x <= List.last l x)%Z.
Proof.
  revert x; induction l as [|y t IH]; intros x H; [simpl; lia|].
  destruct H as [Hlt Hc]. rewrite last_cons_default.
  specialize (IH y Hc). lia.
Qed.

Lemma py_max_range_Ok {S} (a b x : Z) (s s' : S) :
  py_max (py_range a b) s = Ok (x, s') ->
  (a < b)%Z /\ x = (b - 1)%Z /\ s' = s.
Proof.
  destruct (Z.ltb_spec a b) as [Hlt|Hge].
  - rewrite py_max_range by exact Hlt. intros H. inv_ret H. auto.
  - unfold py_range. replace (Z.to_nat (b - a)) with 0%nat by lia.
    discriminate.
Qed.

Lemma note_grid_Ok (mode : DurationMode) (gb ng : Z) (r r' : Rand) :
  match mode with
  | DRandom => choice (py_range 1 (gb + 1))
  | _ => py_max (py_range 1 (gb + 1))
  end r = Ok (ng, r') ->
  (1 <= ng <= gb)%Z /\ (mode = DMaximum -> ng = gb).
Proof.
  destruct mode; intros H;
    try (apply py_max_range_Ok in H as (H1 & -> & _);
         split; [lia | intros _; lia]).
  apply choice_In, In_py_range in H. split; [lia | discriminate].
Qed.

Lemma slot_length_wider (g : float) (lo hi hi' : Z) (d : Q) :
  (hi <= hi')%Z -> slot_length g lo hi d -> slot_length g lo hi' d.
Proof. intros Hle (k & Hk & E). exists k. split; [lia | exact E]. Qed.

Lemma fill_slots_Ok (mode : DurationMode) (g : float) (others : list Z) :
  forall (idx : Z) (r : Rand) (evs : list Event) (r' : Rand),
  fill_slots mode g idx others r = Ok (evs, r') ->
  chain_lt idx others ->
  mlength evs = List.length others
  /\ Forall (fun e => slot_length g 1 (List.last others idx - idx)
                        (quarterLength e)) evs
  /\ (mode = DMaximum -> Forall (fun e => is_note e = true) evs).
Proof.
  induction others as [|next t IH]; intros idx r evs r' H Hc.
  - inv_ret H. repeat split; constructor.
  - destruct Hc as [Hlt Hc]. cbn [fill_slots] in H.
    apply bind_Ok in H as ([note_grid rest_grid] & r1 & Hgrids & H).
    apply bind_Ok in H as (d & r2 & Hd & H).
    apply Duration_of_slots_Ok in Hd as [Hd ->].
    apply bind_Ok in H as (objs & r3 & Hobjs & H).
    apply bind_Ok in H as (more & r4 & Hmore & H). inv_ret H.
    apply IH in Hmore as (Hlen & Hgrid & Hmax); [|exact Hc].
    pose proof (chain_lt_last next t Hc) as Hlast.
    rewrite last_cons_default.
    assert (Hg : (1 <= note_grid <= next - idx)%Z
                 /\ rest_grid = (next - idx - note_grid)%Z
                 /\ (mode = DMaximum -> rest_grid = 0%Z)).
    { destruct (Z.eqb_spec (next - idx) 0) as [|Hne]; [lia|].
      apply bind_Ok in Hgrids as (ng & r5 & Hng & Hgrids).
      apply bind_Ok in Hgrids as (top & r6 & Htop & Hgrids).
      apply note_grid_Ok in Hng as [H1 H2].
      apply py_max_range_Ok in Htop as (_ & -> & _).
      unfold ret in Hgrids. injection Hgrids as <- <- _.
      repeat split; try lia. intros Hm. specialize (H2 Hm). lia. }
    destruct Hg as (Hng & -> & Hmaxr).
    assert (Hnote : slot_length g 1 (List.last t next - idx) d).
    { exists note_grid. split; [lia | exact Hd]. }
    assert (Hmore : Forall (fun e => slot_length g 1 (List.last t next - idx)
                                       (quarterLength e)) more).
    { eapply List.Forall_impl; [|exact Hgrid]. intros e.
      apply slot_length_wider. lia. }
    destruct (Z.eqb_spec (next - idx - note_grid) 0) as [E0|E0].
    + inv_ret Hobjs. repeat split.
      * rewrite mlength_app, Hlen. reflexivity.
      * constructor; assumption.
      * intros Hm. constructor; [reflexivity | auto].
    + apply bind_Ok in Hobjs as (rd & r7 & Hrd & Hobjs).
      apply Duration_of_slots_Ok in Hrd as [Hrd ->]. inv_ret Hobjs.
      repeat split.
      * rewrite mlength_app, Hlen. reflexivity.
      * constructor; [exact Hnote|]. constructor; [|exact Hmore].
        exists (next - idx - note_grid)%Z. split; [lia | exact Hrd].
      * intros Hm. specialize (Hmaxr Hm). contradiction.
Qed.

Lemma rhythm_spread_Ok (length slots : Z) (g : float) (mode : DurationMode)
    (r r' : Rand) (s : Stream) :
  rhythm_spread length slots g mode r = Ok (s, r') ->
  (0 < length)%Z ->
  mlength (events s) = Z.to_nat length
  /\ Forall (fun e => slot_length g 1 slots (quarterLength e)) (events s)
  /\ (mode = DMaximum ->
      Forall (fun e => is_note e = true) (List.tl (events s))).
Proof.
  intros H Hl. unfold rhythm_spread, sample in H.
  apply bind_Ok in H as (picked & r1 & Hpick & H).
  destruct ((length <? 0)%Z || _) eqn:Erange in Hpick; [discriminate|].
  apply orb_false_iff in Erange as [_ Erange].
  rewrite length_py_range, Z.sub_0_r in Erange, H.
  apply Z.ltb_ge in Erange.
  assert (Hslots : Z.of_nat (Z.to_nat slots) = slots) by lia.
  rewrite Hslots in H. clear Erange Hslots.
  pose proof (sample_go_NoDup _ _ _ _ _ Hpick (NoDup_py_range 0 slots)) as Hnd.
  assert (Hin : forall y, In y (py_sort picked) -> (0 <= y < slots)%Z).
  { intros y Hy. apply (proj1 (In_py_sort y picked)) in Hy.
    apply (sample_go_In _ _ _ _ _ _ Hpick) in Hy.
    apply (proj1 (In_py_range 0 slots y)) in Hy. exact Hy. }
  apply sample_go_spec in Hpick as [Hlen _].
  pose proof (ascending_py_sort picked Hnd) as Hasc.
  pose proof (length_py_sort picked) as Hls.
  destruct (py_sort picked) as [|first rest] eqn:Es.
  { simpl in Hls. lia. }
  rewrite <- app_comm_cons in H.
  assert (Hc : chain_lt first (rest ++ [slots])).
  { apply chain_lt_snoc; [exact Hasc | apply Hin; now left |].
    intros y Hy. apply Hin. now right. }
  assert (Hfirst : (0 <= first < slots)%Z) by (apply Hin; now left).
  apply bind_Ok in H as (x & r2 & Hx & H).
  apply int_mul_float_Ok in Hx as [-> ->].
  apply bind_Ok in H as (objs & r3 & Hobjs & H).
  apply bind_Ok in H as (filled & r4 & Hfill & H). inv_ret H.
  apply fill_slots_Ok in Hfill as (Hflen & Hfgrid & Hfmax); [|exact Hc].
  rewrite List.last_last in Hfgrid. rewrite events_place.
  assert (Hfilled : Forall (fun e => slot_length g 1 slots (quarterLength e))
                      filled).
  { eapply List.Forall_impl; [|exact Hfgrid]. intros e.
    apply slot_length_wider. lia. }
  rewrite List.length_app in Hflen. simpl in Hflen, Hls.
  destruct (float_truthy (float_of_Z first * g)) eqn:Et.
  - apply bind_Ok in Hobjs as (d & r5 & Hd & Hobjs).
    apply Duration_Ok in Hd as [Hd ->]. inv_ret Hobjs.
    repeat split.
    + rewrite mlength_app, Hflen. unfold mlength. simpl. lia.
    + constructor; [|exact Hfilled]. exists first. split; [|exact Hd].
      split; [|lia]. destruct (Z.eq_dec first 0%Z) as [->|]; [|lia].
      apply no_slots_null in Hd. congruence.
    + intros Hm. simpl. auto.
  - inv_ret Hobjs. repeat split.
    + rewrite mlength_app, Hflen. unfold mlength. simpl. lia.
    + exact Hfilled.
    + intros Hm. simpl. specialize (Hfmax Hm).
      destruct filled; [constructor|]. simpl. inversion Hfmax; assumption.
Qed.

Lemma rhythm_packed_Ok (length slots : Z) (g : float) (mode : DurationMode)
    (note_duration : option float) (r r' : Rand) (s : Stream) :
  rhythm_packed length slots g mode note_duration r = Ok (s, r') ->
  (0 < length)%Z -> is_spread mode = false ->
  exists nd d,
    packed_note_duration g mode note_duration = Some nd
    /\ opFrac nd = Some d
    /\ mlength (events s) = Z.to_nat length
    /\ Forall (packed_event g d) (events s)
    /\ no_null_rest (events s).
Proof.
  intros H Hl Hmode. unfold rhythm_packed in H.
  apply bind_Ok in H as (nd & r1 & Hnd & H).
  assert (End : packed_note_duration g mode note_duration = Some nd /\ r1 = r).
  { destruct mode; try discriminate; simpl.
    - inv_ret Hnd. split; reflexivity.
    - destruct note_duration; [|discriminate]. inv_ret Hnd.
      split; reflexivity. }
  destruct End as [End ->]. clear Hnd.
  apply bind_Ok in H as (the_notes & r2 & Hnotes & H).
  apply traverse_Duration_Ok in Hnotes as [-> Hnotes].
  destruct Hnotes as [[E _]|(d & Hd & ->)].
  { apply (f_equal (@List.length Z)) in E.
    rewrite length_py_range in E. simpl in E. lia. }
  rewrite length_py_range, Z.sub_0_r in H.
  apply bind_Ok in H as (x & r3 & Hx & H).
  apply int_mul_float_Ok in Hx as [_ ->].
  apply bind_Ok in H as (y & r4 & Hy & H).
  apply float_div_Ok in Hy as (_ & _ & ->).
  apply bind_Ok in H as (filled & r5 & Hfilled & H).
  apply int_of_float_Ok in Hfilled as [_ ->].
  apply bind_Ok in H as (the_rests & r6 & Hrests & H).
  apply traverse_Duration_Ok in Hrests as [-> Hrests].
  apply bind_Ok in H as (shuffled & r7 & Hsh & H). inv_ret H.
  apply shuffle_Permutation in Hsh.
  exists nd, d. split; [exact End|]. split; [exact Hd|].
  rewrite events_normalize_stream, events_place.
  assert (Hr : mlength the_rests = 0%nat
               /\ Forall (packed_event g d) the_rests).
  { destruct Hrests as [[_ ->]|(dg & Hdg & ->)]; [split; [reflexivity|constructor]|].
    split; [apply mlength_repeat_rest|].
    apply List.Forall_forall. intros e He. apply repeat_spec in He. subst e.
    right. exists dg. split; [exact Hdg|]. exists 1%Z. split; [lia|].
    simpl. ring. }
  destruct Hr as [Hr0 Hrg]. split; [|split; [|apply normalize_no_null_rest]].
  - rewrite mlength_normalize, (mlength_Permutation _ _ Hsh).
    rewrite mlength_app, mlength_repeat_note, Hr0. lia.
  - apply normalize_Forall.
    + left. reflexivity.
    + intros d1 d2 [H1|(dg1 & E1 & k1 & Hk1 & H1)]
                   [H2|(dg2 & E2 & k2 & Hk2 & H2)].
      * left. rewrite H1, H2. ring.
      * right. exists dg2. split; [exact E2|]. exists k2. split; [exact Hk2|].
        rewrite H1, H2. ring.
      * right. exists dg1. split; [exact E1|]. exists k1. split; [exact Hk1|].
        rewrite H1, H2. ring.
      * right. exists dg1. split; [exact E1|]. exists (k2 + k1)%Z.
        split; [lia|]. assert (dg2 = dg1) as -> by congruence.
        rewrite H1, H2, inject_Z_plus. ring.
    + apply (Permutation_Forall (Permutation_sym Hsh)).
      apply Forall_app. split; [|exact Hrg].
      apply List.Forall_forall. intros e He. apply repeat_spec in He.
      subst e. reflexivity.
Qed.

Lemma rhythm_Ok (length slots : Z) (g : float) (mode : DurationMode)
    (note_duration : option float) (r r' : Rand) (s : Stream) :
  rhythm length slots g mode note_duration r = Ok (s, r') ->
  (0 < length)%Z ->
  mlength (events s) = Z.to_nat length.
Proof.
  intros H Hl. unfold rhythm in H. destruct (is_spread mode) eqn:Es.
  - apply rhythm_spread_Ok in H as (H & _); assumption.
  - apply rhythm_packed_Ok in H as (nd & d & _ & _ & H & _ & _); assumption.
Qed.

(** ** Step 2 of [GenerateMelody]: the pitches *)

Lemma pitches_of_assign ps m :
  List.length ps = mlength m -> pitches_of (assign_pitches ps m) = ps.
Proof.
  revert ps; induction m as [|[p d|d] t IH]; intros ps H.
  - destruct ps; [reflexivity | discriminate].
  - destruct ps as [|q ps']; [discriminate|].
    simpl. f_equal. apply IH. unfold mlength in *. simpl in H. lia.
  - simpl. apply IH. exact H.
Qed.

Lemma durations_assign ps m :
  List.map quarterLength (assign_pitches ps m) = List.map quarterLength m.
Proof.
  revert ps; induction m as [|[p d|d] t IH]; intros ps; simpl.
  - reflexivity.
  - destruct ps; simpl; [reflexivity | f_equal; apply IH].
  - f_equal; apply IH.
Qed.

Lemma total_duration_map m :
  total_duration m = fold_right Qplus 0 (List.map quarterLength m).
Proof. induction m as [|e t IH]; simpl; congruence. Qed.

Lemma total_duration_assign ps m :
  total_duration (assign_pitches ps m) = total_duration m.
Proof. now rewrite !total_duration_map, durations_assign. Qed.

Lemma mlength_assign ps m : mlength (assign_pitches ps m) = mlength m.
Proof.
  unfold mlength, notes.
  revert ps; induction m as [|[p d|d] t IH]; intros ps; simpl.
  - reflexivity.
  - destruct ps; simpl; [reflexivity | f_equal; apply IH].
  - apply IH.
Qed.

Lemma length_list_insert_at {A} (i : nat) (x : A) (l : list A) :
  List.length (list_insert_at i x l) = S (List.length l).
Proof.
  unfold list_insert_at.
  rewrite List.length_app. simpl.
  rewrite List.length_firstn, List.length_skipn. lia.
Qed.

Lemma alternating_insert (p : Pitch) (l : list Pitch) :
  forall i : nat,
  alternating l -> (i <= List.length l)%nat ->
  ((0 < i)%nat -> l !! (i - 1)%nat <> Some p) ->
  l !! i <> Some p ->
  alternating (list_insert_at i p l).
Proof.
  unfold list_insert_at.
  induction l as [|a t IH]; intros i Halt Hi Hprev Hnext.
  - destruct i; simpl; exact I.
  - destruct i as [|j].
    + simpl. split; [|exact Halt]. intros ->. apply Hnext. reflexivity.
    + assert (Ht : alternating t) by (destruct t; [exact I | apply Halt]).
      assert (IHj : alternating (firstn j t ++ p :: skipn j t)).
      { apply IH; [exact Ht | simpl in Hi; lia | | exact Hnext].
        intros Hj. specialize (Hprev ltac:(lia)).
        replace (S j - 1)%nat with (S (j - 1)) in Hprev by lia.
        exact Hprev. }
      change (alternating (a :: (firstn j t ++ p :: skipn j t))).
      destruct j as [|j'].
      * simpl. split; [|exact IHj].
        intros ->. apply Hprev; [lia | reflexivity].
      * destruct t as [|b t']; [simpl in Hi; lia|].
        simpl in *. split; [apply Halt | exact IHj].
Qed.

Lemma Forall_list_remove (P : Z -> Prop) x l :
  Forall P l -> Forall P (list_remove x l).
Proof.
  induction 1 as [|y t Hy Ht IH]; simpl; [constructor|].
  destruct (x =? y)%Z; [exact Ht | constructor; assumption].
Qed.

Lemma try_insert_spec (rounds : nat) (chosen : list Pitch) (p : Pitch) :
  forall indices r l r',
  try_insert rounds chosen p indices r = Ok (Some l, r') ->
  alternating chosen ->
  Forall (fun i => (0 <= i <= Z.of_nat (List.length chosen))%Z) indices ->
  alternating l /\ List.length l = S (List.length chosen).
Proof.
  induction rounds as [|n IH]; intros indices r l r' H Halt Hind.
  - discriminate.
  - cbn [try_insert] in H. destruct indices as [|i0 rest]; [discriminate|].
    inv_bind H. apply choice_In in Ha.
    rewrite List.Forall_forall in Hind. pose proof (Hind _ Ha) as Hrange.
    destruct (negb _ && negb _) eqn:Ecan in H.
    + inv_ret H. split; [|apply length_list_insert_at].
      apply andb_true_iff in Ecan as [E1 E2].
      apply negb_true_iff, bool_decide_eq_false in E1, E2.
      apply alternating_insert; [exact Halt | lia | |].
      * intros Hpos. destruct (Z.ltb_spec 0 a) as [_|]; [exact E1 | lia].
      * destruct (Z.ltb_spec a (Z.of_nat (List.length chosen))) as [_|Hge];
          [exact E2|].
        rewrite lookup_ge_None_2 by lia. discriminate.
    + apply IH in H; [exact H | exact Halt |].
      apply Forall_list_remove, List.Forall_forall, Hind.
Qed.

Lemma try_insert_total (rounds : nat) (chosen : list Pitch) (p : Pitch) :
  forall indices r,
  exists o r', try_insert rounds chosen p indices r = Ok (o, r').
Proof.
  induction rounds as [|n IH]; intros indices r.
  - eexists _, _. reflexivity.
  - cbn [try_insert]. destruct indices as [|i0 rest].
    + eexists _, _. reflexivity.
    + destruct (choice_total (i0 :: rest) r) as (i & r1 & E & _);
        [discriminate|].
      rewrite (bind_step _ _ _ _ _ E).
      destruct (negb _ && negb _).
      * eexists _, _. reflexivity.
      * apply IH.
Qed.

Lemma alternate_loop_spec (pitches : list Pitch) (length : Z) (fuel : nat) :
  forall chosen r res r',
  alternate_loop fuel pitches length chosen r = Ok (res, r') ->
  alternating chosen ->
  (Z.of_nat (List.length chosen) <= length)%Z ->
  alternating res /\ Z.of_nat (List.length res) = length.
Proof.
  induction fuel as [|n IH]; intros chosen r res r' H Halt Hlen.
  - simpl in H.
    destruct (Z.ltb_spec (Z.of_nat (List.length chosen)) length);
      [discriminate|].
    inv_ret H. split; [exact Halt | lia].
  - cbn [alternate_loop] in H.
    destruct (Z.ltb_spec (Z.of_nat (List.length chosen)) length) as [Hlt|Hge].
    + inv_bind H. inv_bind H.
      destruct a0 as [l|].
      * apply try_insert_spec in Ha0 as [Hl1 Hl2]; [|exact Halt|].
        -- apply IH in H; [exact H | exact Hl1 | lia].
        -- apply List.Forall_forall. intros i Hi.
           apply In_py_range in Hi. lia.
      * apply IH in H; [exact H | exact Halt | lia].
    + inv_ret H. split; [exact Halt | lia].
Qed.

Lemma alternate_loop_no_raise (pitches : list Pitch) (length : Z) (fuel : nat) :
  pitches <> [] ->
  forall chosen r e,
  alternate_loop fuel pitches length chosen r <> Raise e.
Proof.
  intros Hp. induction fuel as [|n IH]; intros chosen r e.
  - simpl. destruct (_ <? _)%Z; discriminate.
  - cbn [alternate_loop]. destruct (_ <? _)%Z; [|discriminate].
    destruct (choice_total pitches r Hp) as (p & r1 & E & _).
    rewrite (bind_step _ _ _ _ _ E).
    destruct (try_insert_total
                (List.length (py_range 0 (Z.of_nat (List.length chosen) + 1)))
                chosen p (py_range 0 (Z.of_nat (List.length chosen) + 1)) r1)
      as (o & r2 & E2).
    rewrite (bind_step _ _ _ _ _ E2). apply IH.
Qed.

Lemma alternating_NoDup (ps : list Pitch) : List.NoDup ps -> alternating ps.
Proof.
  induction 1 as [|p t Hp Hnd IH]; [exact I|].
  destruct t as [|q t']; [exact I|].
  split; [|exact IH]. intros ->. apply Hp. now left.
Qed.

Lemma distinct_nil (ps : list Pitch) : distinct ps = [] -> ps = [].
Proof.
  destruct ps as [|p t]; [reflexivity|]. intros H.
  assert (Hin : p ∈ distinct (p :: t))
    by (apply elem_of_remove_dups; left).
  rewrite H in Hin. inversion Hin.
Qed.

Lemma choose_pitches_spec (fuel : nat) (pitches : list Pitch) (length : Z)
    (alternate use_all : bool) r ps r' :
  choose_pitches fuel pitches length alternate use_all r = Ok (ps, r') ->
  List.NoDup pitches -> (0 < length)%Z ->
  (use_all = true -> (Z.of_nat (List.length pitches) <= length)%Z) ->
  List.length ps = Z.to_nat length
  /\ (alternate = true -> alternating ps).
Proof.
  intros H Hnd Hlen Hall. unfold choose_pitches in H.
  destruct alternate; simpl negb in H; cbv iota in H.
  - inv_bind H.
    assert (alternating a /\ (Z.of_nat (List.length a) <= length)%Z)
      as [Halt Hle].
    { destruct use_all.
      - pose proof (shuffle_Permutation _ _ _ _ Ha) as Hp.
        split.
        + apply alternating_NoDup.
          apply (Permutation_NoDup (Permutation_sym Hp)), Hnd.
        + rewrite (Permutation_length Hp). auto.
      - inv_ret Ha. split; [exact I | simpl; lia]. }
    apply alternate_loop_spec in H as [H1 H2]; [|exact Halt|exact Hle].
    split; [lia | intros _; exact H1].
  - inv_bind H. apply shuffle_Permutation in H.
    split; [|discriminate].
    rewrite (Permutation_length H).
    destruct use_all; simpl negb in Ha; cbv iota in Ha.
    + inv_bind Ha. inv_ret Ha. apply choices_go_spec in Haa as [Hl _].
      rewrite List.length_app, Hl. specialize (Hall eq_refl). lia.
    + apply choices_go_spec in Ha as [Hl _]. exact Hl.
Qed.

Lemma choose_pitches_outcome (fuel : nat) (pitches : list Pitch) (length : Z)
    (alternate use_all : bool) r :
  (alternate = true -> (2 <= List.length pitches)%nat) ->
  match choose_pitches fuel pitches length alternate use_all r with
  | Ok _ => True
  | Raise _ => pitches = []
  | OutOfFuel => alternate = true
  end.
Proof.
  intros Halt. unfold choose_pitches.
  destruct alternate; cbn [negb].
  - assert (Hp : pitches <> [])
      by (specialize (Halt eq_refl); destruct pitches; [simpl in Halt; lia | discriminate]).
    assert (Hseed : exists seed r1,
      (if use_all then shuffle pitches else ret []) r = Ok (seed, r1)).
    { destruct use_all; [|eexists _, _; reflexivity].
      destruct (shuffle_total pitches r) as (s & r1 & E & _). eauto. }
    destruct Hseed as (seed & r1 & E). rewrite (bind_step _ _ _ _ _ E).
    pose proof (alternate_loop_no_raise pitches length fuel Hp seed r1) as Hnr.
    destruct (alternate_loop fuel pitches length seed r1) as [[? ?]|e|];
      [exact I | exfalso; apply (Hnr e); reflexivity | reflexivity].
  - destruct pitches as [|p t].
    + assert (Hc : forall k r0,
        match choices (@nil Pitch) k r0 with
        | Ok (c, r1) => exists x r2, shuffle c r1 = Ok (x, r2)
        | Raise _ => True
        | OutOfFuel => False
        end).
      { intros k r0. pose proof (choices_go_fuel (@nil Pitch) (Z.to_nat k) r0).
        unfold choices.
        destruct (choices_go [] (Z.to_nat k) r0) as [[c r1]|e|];
          [|exact I|congruence].
        destruct (shuffle_total c r1) as (x & r2 & E & _). eauto. }
      destruct use_all; cbn [negb]; unfold bind.
      * specialize (Hc (length - Z.of_nat (List.length (@nil Pitch)))%Z r).
        destruct (choices [] _ r) as [[c r1]|e|]; [|reflexivity|contradiction].
        unfold ret. destruct (shuffle_total ([] ++ c) r1) as (x & r2 & E & _).
        rewrite E. exact I.
      * specialize (Hc length r).
        destruct (choices [] length r) as [[c r1]|e|];
          [|reflexivity|contradiction].
        destruct Hc as (x & r2 & E). rewrite E. exact I.
    + assert (Hp : p :: t <> []) by discriminate.
      assert (Hc : exists c r1,
        (if negb use_all then choices (p :: t) length
         else do extra <- choices (p :: t)
                            (length - Z.of_nat (List.length (p :: t)));
              ret ((p :: t) ++ extra)) r = Ok (c, r1)).
      { destruct use_all; cbn [negb]; unfold choices.
        - destruct (choices_go_total (p :: t)
                      (Z.to_nat (length - Z.of_nat (List.length (p :: t)))) r Hp)
            as (x & r1 & E).
          rewrite (bind_step _ _ _ _ _ E). eexists _, _. reflexivity.
        - apply choices_go_total, Hp. }
      destruct Hc as (c & r1 & E). rewrite (bind_step _ _ _ _ _ E).
      destruct (shuffle_total c r1) as (x & r2 & E2 & _). rewrite E2. exact I.
Qed.

(** ** [GenerateMelody] as a whole *)

Lemma length_assign_pitches ps m :
  List.length (assign_pitches ps m) = List.length m.
Proof.
  rewrite <- (List.length_map quarterLength (assign_pitches ps m)).
  rewrite durations_assign. apply List.length_map.
Qed.

Lemma GenerateStream_inv (fuel : nat) (pitches : list Pitch) (length : Z)
    (duration : number) (g : float) (mode : DurationMode)
    (note_duration : option float) (alternate use_all : bool)
    (r r' : Rand) (s : Stream) :
  GenerateStream fuel pitches length duration g mode note_duration
    alternate use_all r = Ok (s, r') ->
  ((length <= 0)%Z /\ s = [])
  \/ exists slots melody chosen r1,
       check_params (distinct pitches) length duration g mode note_duration
         alternate use_all r = Ok (Some slots, r)
       /\ rhythm length slots g mode note_duration r = Ok (melody, r1)
       /\ choose_pitches fuel (distinct pitches) length alternate use_all r1
          = Ok (chosen, r')
       /\ List.length chosen = mlength (events melody)
       /\ events s = assign_pitches chosen (events melody)
       /\ offsets s = offsets melody.
Proof.
  intros H. unfold GenerateStream in H.
  apply bind_Ok in H as (checked & r0 & Hc & H).
  destruct checked as [slots|].
  - right. pose proof Hc as Hc'.
    apply check_params_Ok in Hc' as (-> & Hl & _ & Hall).
    apply bind_Ok in H as (melody & r1 & Hm & H).
    apply bind_Ok in H as (chosen & r2 & Hp & H). inv_ret H.
    exists slots, melody, chosen, r1.
    assert (Hlen : List.length (offsets melody)
                   = List.length (assign_pitches chosen (events melody))).
    { rewrite length_assign_pitches. apply length_events_offsets. }
    repeat split; auto.
    + apply choose_pitches_spec in Hp as [Hc1 _];
        [|apply NoDup_ListNoDup, NoDup_remove_dups|lia|exact Hall].
      apply rhythm_Ok in Hm; [congruence | lia].
    + apply events_combine, Hlen.
    + apply offsets_combine, Hlen.
  - left. inv_ret H. split; [|reflexivity].
    eapply check_params_None, Hc.
Qed.

Lemma GenerateMelody_Stream (fuel : nat) (pitches : list Pitch) (length : Z)
    (duration : number) (g : float) (mode : DurationMode)
    (note_duration : option float) (alternate use_all : bool)
    (r r' : Rand) (m : Melody) :
  GenerateMelody fuel pitches length duration g mode note_duration
    alternate use_all r = Ok (m, r') <->
  exists s, GenerateStream fuel pitches length duration g mode note_duration
              alternate use_all r = Ok (s, r') /\ m = events s.
Proof.
  unfold GenerateMelody. split.
  - intros H. apply bind_Ok in H as (s & r1 & Hs & H). inv_ret H.
    exists s. split; [exact Hs | reflexivity].
  - intros (s & Hs & ->). rewrite (bind_step _ _ _ _ _ Hs). reflexivity.
Qed.

Lemma GenerateMelody_inv (fuel : nat) (pitches : list Pitch) (length : Z)
    (duration : number) (g : float) (mode : DurationMode)
    (note_duration : option float) (alternate use_all : bool)
    (r r' : Rand) (m : Melody) :
  GenerateMelody fuel pitches length duration g mode note_duration
    alternate use_all r = Ok (m, r') ->
  ((length <= 0)%Z /\ m = [])
  \/ exists slots melody chosen r1,
       check_params (distinct pitches) length duration g mode note_duration
         alternate use_all r = Ok (Some slots, r)
       /\ rhythm length slots g mode note_duration r = Ok (melody, r1)
       /\ choose_pitches fuel (distinct pitches) length alternate use_all r1
          = Ok (chosen, r')
       /\ List.length chosen = mlength (events melody)
       /\ m = assign_pitches chosen (events melody).
Proof.
  intros H. apply GenerateMelody_Stream in H as (s & H & ->).
  apply GenerateStream_inv in H
    as [[Hl ->]|(slots & melody & chosen & r1 & H1 & H2 & H3 & H4 & H5 & _)].
  - left. split; [exact Hl | reflexivity].
  - right. exists slots, melody, chosen, r1. repeat split; assumption.
Qed.

(** The melody returned has [length] notes. *)
Lemma GenerateMelody_mlength (fuel : nat) (pitches : list Pitch) (length : Z)
    (duration : number) (g : float) (mode : DurationMode)
    (note_duration : option float) (alternate use_all : bool)
    (r r' : Rand) (m : Melody) :
  GenerateMelody fuel pitches length duration g mode note_duration
    alternate use_all r = Ok (m, r') ->
  mlength m = Z.to_nat length.
Proof.
  intros H. apply GenerateMelody_inv in H
    as [[Hl ->]|(slots & melody & chosen & r1 & Hc & Hr & _ & _ & ->)].
  - unfold mlength. simpl. lia.
  - apply check_params_Ok in Hc as (_ & Hl & _).
    rewrite mlength_assign. apply rhythm_Ok in Hr; [exact Hr | lia].
Qed.

(** C1 (code bug): parameters that pass every check and a melody whose
    lengths do not add up to [duration].  With 3 notes, a duration of 2.8
    and a grid of 0.7 in the mode [Minimum] there are 4 slots, and
    [int(3 * 0.7 / 0.7)] is 2 in floats, so 2 rests are added where 1 is
    free: whatever the draws, the melody has 3 notes and lasts 7/2, while
    the duration asked for is 14/5. *)
Theorem GenerateMelody_packed_overshoots (fuel : nat) (r : Rand) :
  check_params (distinct [pitch_C]) 3 (NFloat 2.8) 0.7 DMinimum None
    false false r = Ok (Some 4%Z, r)
  /\ opFrac 2.8 = Some (14 # 5)
  /\ exists m r',
       GenerateMelody fuel [pitch_C] 3 (NFloat 2.8) 0.7 DMinimum None
         false false r = Ok (m, r')
       /\ mlength m = 3%nat
       /\ total_duration m == 7 # 2
       /\ ~ total_duration m == 14 # 5.
Proof.
  assert (Hc : check_params (distinct [pitch_C]) 3 (NFloat 2.8) 0.7 DMinimum
                 None false false r = Ok (Some 4%Z, r)) by reflexivity.
  split; [exact Hc|]. split; [reflexivity|].
  set (objs := repeat (Note default_pitch (7 # 10)) 3
               ++ repeat (Rest (7 # 10)) 2).
  destruct (shuffle_total objs r) as (shuffled & r1 & Hsh & Hp).
  assert (Hr : rhythm 3 4 0.7 DMinimum None r
               = Ok (normalize_stream (place shuffled), r1)).
  { unfold rhythm, rhythm_packed. cbn [is_spread].
    change (bind (ret 0.7%float) ?k r) with (k 0.7%float r). cbv beta.
    assert (E1 : traverse (fun _ : Z => do d <- Duration 0.7;
                                        ret (Note default_pitch d))
                   (py_range 0 3) r
                 = Ok (repeat (Note default_pitch (7 # 10)) 3, r))
      by reflexivity.
    rewrite (bind_step _ _ _ _ _ E1).
    assert (E2 : int_mul_float 3 0.7 r = Ok ((3 * 0.7)%float, r))
      by reflexivity.
    rewrite (bind_step _ _ _ _ _ E2).
    assert (E3 : float_div (3 * 0.7) 0.7 r = Ok ((3 * 0.7 / 0.7)%float, r))
      by reflexivity.
    rewrite (bind_step _ _ _ _ _ E3).
    assert (E4 : int_of_float (3 * 0.7 / 0.7) r = Ok (2%Z, r)) by reflexivity.
    rewrite (bind_step _ _ _ _ _ E4).
    assert (E5 : traverse (fun _ : Z => do d <- Duration 0.7; ret (Rest d))
                   (py_range 0 (4 - 2)) r
                 = Ok (repeat (Rest (7 # 10)) 2, r)) by reflexivity.
    rewrite (bind_step _ _ _ _ _ E5).
    fold objs. rewrite (bind_step _ _ _ _ _ Hsh). reflexivity. }
  assert (Hch : exists chosen r2,
            choose_pitches fuel (distinct [pitch_C]) 3 false false r1
            = Ok (chosen, r2)).
  { unfold choose_pitches. cbn [negb]. unfold choices.
    destruct (choices_go_total (distinct [pitch_C]) (Z.to_nat 3) r1)
      as (c & r2 & Ec); [discriminate|].
    rewrite (bind_step _ _ _ _ _ Ec).
    destruct (shuffle_total c r2) as (x & r3 & Ex & _). eauto. }
  destruct Hch as (chosen & r2 & Hch).
  assert (HG : GenerateMelody fuel [pitch_C] 3 (NFloat 2.8) 0.7 DMinimum None
                 false false r
               = Ok (assign_pitches chosen (normalize shuffled), r2)).
  { apply GenerateMelody_Stream. eexists. split.
    - unfold GenerateStream. cbv zeta.
      rewrite (bind_step _ _ _ _ _ Hc), (bind_step _ _ _ _ _ Hr).
      rewrite (bind_step _ _ _ _ _ Hch). reflexivity.
    - rewrite events_combine, events_normalize_stream, events_place;
        [reflexivity|].
      rewrite length_assign_pitches. apply length_events_offsets. }
  exists (assign_pitches chosen (normalize shuffled)), r2.
  split; [exact HG|].
  assert (Ht : total_duration (assign_pitches chosen (normalize shuffled))
               == 7 # 2).
  { rewrite total_duration_assign, total_normalize.
    rewrite (total_duration_Permutation _ _ Hp). reflexivity. }
  repeat split.
  - rewrite mlength_assign, mlength_normalize, (mlength_Permutation _ _ Hp).
    reflexivity.
  - exact Ht.
  - rewrite Ht. discriminate.
Qed.

(** C2: with [alternate] set, no two neighbouring notes of a returned
    melody carry the same pitch, whatever the random draws and whether or
    not [use_all] is set. *)
Theorem GenerateMelody_alternates (fuel : nat) (pitches : list Pitch)
    (length : Z) (duration : number) (g : float) (mode : DurationMode)
    (note_duration : option float) (use_all : bool) (r r' : Rand)
    (m : Melody) :
  GenerateMelody fuel pitches length duration g mode note_duration
    true use_all r = Ok (m, r') ->
  alternating (pitches_of m).
Proof.
  intros H. apply GenerateMelody_inv in H
    as [[_ ->]|(slots & melody & chosen & r1 & Hc & Hr & Hp & Hlen & ->)].
  - exact I.
  - apply check_params_Ok in Hc as (_ & Hl & _ & Hall).
    apply choose_pitches_spec in Hp as [_ Halt];
      [|apply NoDup_ListNoDup, NoDup_remove_dups|lia|exact Hall].
    rewrite pitches_of_assign by exact Hlen. auto.
Qed.

Lemma GenerateMelody_alternates_witness :
  alternating
    (pitches_of
       (value_of (GenerateMelody 50 [pitch_C; pitch_D; pitch_E] 4 (NFloat 8)
                    0.5 DRandom None true false) sample_draws [])).
Proof.
  apply (GenerateMelody_alternates 50 [pitch_C; pitch_D; pitch_E] 4 (NFloat 8)
           0.5 DRandom None false sample_draws
           (state_after (GenerateMelody 50 [pitch_C; pitch_D; pitch_E] 4
                           (NFloat 8) 0.5 DRandom None true false)
              sample_draws)).
  vm_compute; reflexivity.
Defined.





(** ** The frame invariant of the operations *)

Lemma inv_start (w : World) : inv (heap w) w.
Proof.
  split; [exists []; now rewrite app_nil_r|].
  intros c els offs Hc Hl. apply lookup_lt_Some in Hl. unfold fresh in Hc. lia.
Qed.

Lemma safe_ret {A} h0 (a : A) (post : A -> Prop) :
  post a -> safe h0 (ret a) post.
Proof. intros Hp w a' w' Hi H. inv_ret H. auto. Qed.

Lemma safe_raise {A} h0 e (post : A -> Prop) : safe h0 (raise e) post.
Proof. intros w a w' _ H. discriminate. Qed.

Lemma safe_bind {A B} h0 (c : M World A) (k : A -> M World B)
    (mid : A -> Prop) (post : B -> Prop) :
  safe h0 c mid -> (forall a, mid a -> safe h0 (k a) post) ->
  safe h0 (bind c k) post.
Proof.
  intros Hc Hk w b w' Hi H. inv_bind H.
  destruct (Hc _ _ _ Hi Ha) as [Hi1 Hm].
  exact (Hk _ Hm _ _ _ Hi1 H).
Qed.

Lemma safe_weaken {A} h0 (c : M World A) (post post' : A -> Prop) :
  safe h0 c post -> (forall a, post a -> post' a) -> safe h0 c post'.
Proof.
  intros Hc Hp w a w' Hi H. destruct (Hc _ _ _ Hi H). auto.
Qed.

Lemma safe_liftR {A} h0 (c : M Rand A) (post : A -> Prop) :
  (forall r a r', c r = Ok (a, r') -> post a) -> safe h0 (liftR c) post.
Proof.
  intros Hp w a w' Hi H. unfold liftR in H.
  destruct (c (rand w)) as [[a0 r']| |] eqn:E; try discriminate.
  injection H as <- <-. split; [exact Hi | eauto].
Qed.

Lemma safe_get {A} h0 (f : Heap -> option A) (post : A -> Prop) :
  (forall w a, inv h0 w -> f (heap w) = Some a -> post a) ->
  safe h0 (get f) post.
Proof.
  intros Hp w a w' Hi H. unfold get in H.
  destruct (f (heap w)) as [a0|] eqn:E; [|discriminate].
  injection H as <- <-. eauto.
Qed.

Lemma safe_alloc h0 (o : obj) :
  (forall els offs, o = OStream els offs -> Forall (fresh h0) els) ->
  safe h0 (alloc o) (fresh h0).
Proof.
  intros Ho w a w' [[ext Hext] Hs] H. unfold alloc in H.
  injection H as <- <-. simpl. repeat split.
  - exists (ext ++ [o]). rewrite Hext. now rewrite app_assoc.
  - intros c els offs Hc Hl. cbn [heap] in Hl.
    destruct (decide (c < List.length (heap w))%nat) as [Hlt|Hge].
    + rewrite lookup_app_l in Hl by exact Hlt. eauto.
    + rewrite lookup_app_r in Hl by lia.
      destruct (c - List.length (heap w))%nat; simpl in Hl; [|discriminate].
      injection Hl as ->. eauto.
  - unfold fresh. rewrite Hext, List.length_app. lia.
Qed.

Lemma inv_insert h0 (w : World) (l : loc) (o : obj) :
  inv h0 w -> fresh h0 l ->
  (forall els offs, o = OStream els offs -> Forall (fresh h0) els) ->
  inv h0 (mkWorld (<[l := o]> (heap w)) (rand w)).
Proof.
  intros [[ext Hext] Hs] Hl Ho. split; simpl.
  - exists (<[(l - List.length h0)%nat := o]> ext).
    rewrite Hext. apply insert_app_r_alt. exact Hl.
  - intros c els offs Hc Hlook. cbn [heap] in Hlook.
    destruct (decide (l = c)) as [->|Hne].
    + apply lookup_lt_Some in Hlook as Hlt. rewrite length_insert in Hlt.
      rewrite list_lookup_insert_eq in Hlook by exact Hlt.
      injection Hlook as ->. eauto.
    + rewrite list_lookup_insert_ne in Hlook by exact Hne. eauto.
Qed.

Lemma safe_set_pitch h0 (l : loc) (p : Pitch) :
  fresh h0 l -> safe h0 (set_pitch l p) (fun _ => True).
Proof.
  intros Hl w a w' Hi H. unfold set_pitch in H.
  destruct (heap w !! l) as [[q d|d|els]|]; try discriminate.
  injection H as <- <-. split; [|exact I].
  apply inv_insert; [exact Hi | exact Hl | discriminate].
Qed.

Lemma safe_set_elements h0 (s : loc) (els : list loc) (offs : list Q) :
  fresh h0 s -> Forall (fresh h0) els ->
  safe h0 (set_elements s els offs) (fun _ => True).
Proof.
  intros Hl Hels w a w' Hi H. unfold set_elements in H.
  destruct (heap w !! s) as [[q d|d|els0 offs0]|]; try discriminate.
  injection H as <- <-. split; [|exact I].
  apply inv_insert; [exact Hi | exact Hl |].
  intros els' offs' E. injection E as <- _. exact Hels.
Qed.

Lemma safe_traverse {A B} h0 (f : A -> M World B) (l : list A)
    (post : B -> Prop) :
  (forall x, In x l -> safe h0 (f x) post) ->
  safe h0 (traverse f l) (Forall post).
Proof.
  induction l as [|x t IH]; intros Hf; simpl.
  - apply safe_ret. constructor.
  - eapply safe_bind; [apply Hf; now left|]. intros y Hy.
    eapply safe_bind; [apply IH; intros; apply Hf; now right|]. intros ys Hys.
    apply safe_ret. constructor; assumption.
Qed.

Lemma safe_for_each {A} h0 (l : list A) (f : A -> M World unit) :
  (forall x, In x l -> safe h0 (f x) (fun _ => True)) ->
  safe h0 (for_each l f) (fun _ => True).
Proof.
  induction l as [|x t IH]; intros Hf; simpl.
  - apply safe_ret. exact I.
  - eapply safe_bind; [apply Hf; now left|]. intros _ _.
    apply IH. intros; apply Hf; now right.
Qed.

Lemma safe_new_stream h0 (evs : list Event) (offs : list Q) :
  safe h0 (new_stream evs offs) (fresh h0).
Proof.
  unfold new_stream.
  eapply safe_bind.
  - apply safe_traverse. intros e _. apply safe_alloc.
    intros els offs' E. destruct e; discriminate.
  - intros els Hels. apply safe_alloc. intros els' offs' E.
    injection E as <- _. exact Hels.
Qed.

Lemma safe_new_melody h0 (evs : list Event) :
  safe h0 (new_melody evs) (fresh h0).
Proof. apply safe_new_stream. Qed.

Lemma safe_deepcopy h0 (m : loc) : safe h0 (deepcopy m) (fresh h0).
Proof.
  unfold deepcopy. eapply safe_bind; [apply safe_get; intros; exact I|].
  intros evs _. eapply safe_bind; [apply safe_get; intros; exact I|].
  intros offs _. apply safe_new_stream.
Qed.

Lemma safe_deepcopy_notes h0 (ns : list loc) :
  safe h0 (deepcopy_notes ns) (Forall (fresh h0)).
Proof.
  unfold deepcopy_notes. apply safe_traverse. intros l _.
  eapply safe_bind.
  - apply safe_get with
      (post := fun o => forall els offs, o <> OStream els offs).
    intros w o _ H els. unfold note_at in H.
    destruct (heap w !! l) as [[p d|d|els0]|]; try discriminate.
    injection H as <-. discriminate.
  - intros o Ho. apply safe_alloc. intros els offs E. destruct (Ho els offs E).
Qed.

Lemma note_locs_incl (h : Heap) (els ns : list loc) :
  note_locs h els = Some ns -> incl ns els.
Proof.
  revert ns; induction els as [|l t IH]; intros ns H; simpl in H.
  - injection H as <-. apply incl_nil_l.
  - destruct (h !! l) as [[p d|d|els0]|]; try discriminate;
      destruct (note_locs h t) as [ns0|]; try discriminate;
      injection H as <-.
    + apply incl_cons; [now left | apply incl_tl, IH; reflexivity].
    + apply incl_tl, IH. reflexivity.
Qed.

Lemma Forall_incl {A} (P : A -> Prop) (l l' : list A) :
  incl l l' -> Forall P l' -> Forall P l.
Proof.
  intros Hi Hl. apply List.Forall_forall. intros x Hx.
  rewrite List.Forall_forall in Hl. apply Hl, Hi, Hx.
Qed.

Lemma inv_elements h0 (w : World) (m : loc) (els : list loc) :
  inv h0 w -> fresh h0 m -> elements_at (heap w) m = Some els ->
  Forall (fresh h0) els.
Proof.
  intros [_ Hs] Hm H. unfold elements_at in H.
  destruct (heap w !! m) as [[p d|d|els0]|] eqn:E; try discriminate.
  injection H as <-. eauto.
Qed.

Lemma safe_melody_notes h0 (m : loc) :
  fresh h0 m -> safe h0 (melody_notes m) (Forall (fresh h0)).
Proof.
  intros Hm. unfold melody_notes. apply safe_get. intros w ns Hi H.
  unfold notes_at in H.
  destruct (elements_at (heap w) m) as [els|] eqn:E; [|discriminate].
  eapply Forall_incl; [eapply note_locs_incl, H|].
  eapply inv_elements; eassumption.
Qed.

Lemma safe_melody_length h0 (m : loc) :
  safe h0 (melody_length m) (fun _ => True).
Proof.
  unfold melody_length, melody_notes.
  eapply safe_bind; [apply safe_get; intros; exact I|].
  intros ns _. apply safe_ret. exact I.
Qed.

Lemma safe_copy_pitches h0 (pairs : list (loc * loc)) :
  Forall (fun pr => fresh h0 (fst pr)) pairs ->
  safe h0 (copy_pitches pairs) (fun _ => True).
Proof.
  intros Hp. unfold copy_pitches. apply safe_for_each.
  intros [note other] Hin. rewrite List.Forall_forall in Hp.
  specialize (Hp _ Hin). simpl in Hp.
  eapply safe_bind; [apply safe_get; intros; exact I|].
  intros p _. apply safe_set_pitch, Hp.
Qed.

Lemma Forall_combine_fst {A B} (P : A -> Prop) (l : list A) (l' : list B) :
  Forall P l -> Forall (fun pr => P (fst pr)) (combine l l').
Proof.
  intros H. apply List.Forall_forall. intros [a b] Hin.
  apply in_combine_l in Hin. rewrite List.Forall_forall in H. auto.
Qed.

Lemma safe_stream_clear h0 (s : loc) :
  fresh h0 s -> safe h0 (stream_clear s) (fun _ => True).
Proof. intros Hs. apply safe_set_elements; [exact Hs | constructor]. Qed.

Lemma safe_stream_append h0 (s : loc) (objects : list loc) :
  fresh h0 s -> Forall (fresh h0) objects ->
  safe h0 (stream_append s objects) (fun _ => True).
Proof.
  intros Hs Hobjs. unfold stream_append, stream_duration.
  eapply safe_bind.
  { apply safe_get with (post := Forall (fresh h0)).
    intros w els Hi H. exact (inv_elements h0 w s els Hi Hs H). }
  intros els Hels.
  eapply safe_bind; [apply safe_get; intros; exact I|]. intros offs _.
  eapply safe_bind.
  { eapply safe_bind; [apply safe_get; intros; exact I|]. intros st _.
    apply (safe_ret h0 _ (fun _ => True)). exact I. }
  intros highestTime _.
  eapply safe_bind; [apply safe_get; intros; exact I|]. intros evs _.
  apply safe_set_elements; [exact Hs | apply Forall_app; split; assumption].
Qed.

Lemma safe_melody_add h0 (self other : loc) :
  safe h0 (melody_add self other) (fresh h0).
Proof.
  unfold melody_add.
  eapply safe_bind; [apply safe_deepcopy|]. intros o Ho.
  eapply safe_bind; [apply safe_deepcopy|]. intros m Hm.
  eapply safe_bind.
  { apply safe_get with (post := Forall (fresh h0)).
    intros w els Hi H. exact (inv_elements h0 w o els Hi Ho H). }
  intros appended Happ.
  eapply safe_bind; [apply safe_stream_append; assumption|].
  intros _ _. apply safe_ret. exact Hm.
Qed.

Lemma crop_walk_incl (h : Heap) (els : list loc) :
  forall (wanted : nat) (kept : list loc),
  crop_walk h wanted els = Some kept -> incl kept els.
Proof.
  induction els as [|l t IH]; intros wanted kept H; simpl in H.
  - injection H as <-. apply incl_nil_l.
  - destruct (h !! l) as [[p d|d|els0]|]; try discriminate.
    + destruct wanted as [|[|n]].
      * destruct (crop_walk h (Nat.pred 0) t) as [k|] eqn:E; [|discriminate].
        injection H as <-.
        apply incl_cons; [now left | apply incl_tl; eapply IH, E].
      * injection H as <-. apply incl_cons; [now left | apply incl_nil_l].
      * destruct (crop_walk h (Nat.pred (S (S n))) t) as [k|] eqn:E;
          [|discriminate].
        injection H as <-.
        apply incl_cons; [now left | apply incl_tl; eapply IH, E].
    + destruct (crop_walk h wanted t) as [k|] eqn:E; [|discriminate].
      injection H as <-.
      apply incl_cons; [now left | apply incl_tl; eapply IH, E].
Qed.

Lemma safe_crop_length h0 (self : loc) (limit : Z) :
  fresh h0 self -> safe h0 (crop_length self limit) (fun _ => True).
Proof.
  intros Hs. unfold crop_length. destruct (limit <=? 0)%Z.
  - apply safe_stream_clear, Hs.
  - eapply safe_bind.
    { apply safe_get with (post := Forall (fresh h0)).
      intros w els Hi H. eapply inv_elements; eassumption. }
    intros els Hels.
    eapply safe_bind.
    { apply safe_get with (post := Forall (fresh h0)).
      intros w kept _ H. eapply Forall_incl; [eapply crop_walk_incl, H|].
      exact Hels. }
    intros kept Hkept.
    eapply safe_bind; [apply safe_stream_clear, Hs|]. intros _ _.
    apply safe_stream_append; assumption.
Qed.

Lemma safe_any_liftR {A} h0 (c : M Rand A) :
  safe h0 (liftR c) (fun _ => True).
Proof. apply safe_liftR. auto. Qed.

Lemma safe_any_get {A} h0 (f : Heap -> option A) :
  safe h0 (get f) (fun _ => True).
Proof. apply safe_get. auto. Qed.

Lemma safe_item {A} h0 (P : A -> Prop) (l : list A) (i : nat) :
  Forall P l -> safe h0 (item l i) P.
Proof.
  intros Hl. unfold item. destruct (l !! i) as [x|] eqn:E.
  - apply safe_ret. rewrite List.Forall_forall in Hl.
    apply Hl. apply list_elem_of_In. eapply list_elem_of_lookup_2, E.
  - apply safe_raise.
Qed.

Lemma safe_dict_item h0 (mapping : list (Pitch * Pitch)) (key : Pitch) :
  safe h0 (dict_item mapping key) (fun _ => True).
Proof.
  induction mapping as [|[k v] t IH]; simpl.
  - apply safe_raise.
  - destruct (pitch_eqb k key); [apply safe_ret; exact I | exact IH].
Qed.

Lemma safe_pure {A} h0 (c : M World A) :
  (forall w a w', c w = Ok (a, w') -> w' = w) ->
  safe h0 c (fun _ => True).
Proof.
  intros Hc w a w' Hi H. apply Hc in H as ->. split; [exact Hi | exact I].
Qed.

Lemma safe_grid_size h0 (evs : list Event) :
  safe h0 (grid_size evs) (fun _ => True).
Proof.
  unfold grid_size, py_reduce.
  eapply safe_bind with (mid := fun _ => True).
  - destruct (List.map quarterLength evs);
      [apply safe_raise | apply safe_ret; exact I].
  - intros d _. apply safe_pure. intros w a w'.
    apply float_of_Fraction_Ok.
Qed.

Lemma safe_melody_grid_size h0 (m : loc) :
  safe h0 (melody_grid_size m) (fun _ => True).
Proof.
  unfold melody_grid_size.
  eapply safe_bind; [apply safe_get; intros; exact I|]. intros evs _.
  apply safe_grid_size.
Qed.

Lemma safe_melody_duration h0 (m : loc) :
  safe h0 (melody_duration m) (fun _ => True).
Proof.
  unfold melody_duration, stream_duration.
  eapply safe_bind with (mid := fun _ => True).
  - eapply safe_bind; [apply safe_get; intros; exact I|]. intros st _.
    apply safe_ret. exact I.
  - intros t _. apply safe_pure. intros w a w'. apply number_of_Q_Ok.
Qed.

Lemma safe_pairs_of h0 (P : loc -> Prop) (l : list loc) :
  (Forall P l ->
   safe h0 (pairs_of l) (Forall (fun pr => P (fst pr) /\ P (snd pr))))
  /\ (forall x, Forall P (x :: l) ->
      safe h0 (pairs_of (x :: l)) (Forall (fun pr => P (fst pr) /\ P (snd pr)))).
Proof.
  induction l as [|y t [IH1 IH2]].
  - split.
    + intros _. apply safe_ret. constructor.
    + intros x _. apply safe_raise.
  - split.
    + intros H. inversion H; subst. apply IH2. exact H.
    + intros x H. inversion H as [|? ? Hx H']; subst.
      inversion H' as [|? ? Hy Ht]; subst.
      change (pairs_of (x :: y :: t))
        with (do rest <- @pairs_of World loc t; ret ((x, y) :: rest)).
      eapply safe_bind; [apply IH1, Ht|]. intros rest Hrest.
      apply safe_ret. constructor; [split; assumption | exact Hrest].
Qed.

Lemma choices_incl {A} (l : list A) (k : Z) r res r' (P : A -> Prop) :
  choices l k r = Ok (res, r') -> Forall P l -> Forall P res.
Proof.
  intros H Hl. apply choices_go_spec in H as [_ H].
  rewrite List.Forall_forall in *. auto.
Qed.

Lemma sample_incl {A} (l : list A) (k : Z) r res r' (P : A -> Prop) :
  sample l k r = Ok (res, r') -> Forall P l -> Forall P res.
Proof.
  unfold sample. destruct (_ || _); [discriminate|]. intros H Hl.
  apply List.Forall_forall. intros x Hx.
  rewrite List.Forall_forall in Hl. apply Hl.
  eapply sample_go_In; eassumption.
Qed.

Lemma shuffle_incl {A} (l : list A) r res r' (P : A -> Prop) :
  shuffle l r = Ok (res, r') -> Forall P l -> Forall P res.
Proof.
  intros H Hl. apply shuffle_Permutation in H.
  apply (Permutation_Forall (Permutation_sym H)), Hl.
Qed.

Ltac sbind lem := eapply safe_bind; [lem|].

Lemma safe_GenerateMelodyH h0 fuel pitches length duration grid mode nd alt ua :
  safe h0 (GenerateMelodyH fuel pitches length duration grid mode nd alt ua)
    (fresh h0).
Proof.
  unfold GenerateMelodyH. sbind ltac:(apply safe_any_liftR).
  intros melody _. apply safe_new_stream.
Qed.

Lemma safe_ChangePitch h0 melody amount_mode amount pitches :
  safe h0 (ChangePitch melody amount_mode amount pitches) (fun _ => True).
Proof.
  unfold ChangePitch.
  sbind ltac:(apply safe_deepcopy). intros c Hc.
  sbind ltac:(apply safe_melody_notes, Hc). intros ns Hns.
  sbind ltac:(apply safe_traverse; intros; apply safe_any_get). intros own _.
  eapply safe_bind with (mid := fun _ => True).
  { destruct amount_mode; try (apply safe_ret; exact I).
    sbind ltac:(apply safe_any_liftR). intros. apply safe_ret. exact I. }
  intros amount' _.
  eapply safe_bind with (mid := fun _ => True).
  { destruct amount_mode; try (apply safe_ret; exact I).
    destruct (amount_unset amount'); [apply safe_raise|].
    destruct amount'; [|apply safe_ret; exact I].
    destruct (_ <? _)%Z; [apply safe_raise | apply safe_ret; exact I]. }
  intros _ _.
  eapply safe_bind with (mid := Forall (fresh h0)).
  { destruct amount'; [|apply safe_raise].
    apply safe_liftR. intros r a r' H. eapply choices_incl; eassumption. }
  intros notes_to_change Hn.
  sbind ltac:(apply safe_for_each).
  - intros note Hin. sbind ltac:(apply safe_any_liftR). intros p _.
    apply safe_set_pitch. rewrite List.Forall_forall in Hn. auto.
  - intros _ _. apply safe_ret. exact I.
Qed.

Lemma safe_SwapPitch h0 melody amount_mode amount :
  safe h0 (SwapPitch melody amount_mode amount) (fun _ => True).
Proof.
  unfold SwapPitch.
  sbind ltac:(apply safe_deepcopy). intros c Hc.
  sbind ltac:(apply safe_melody_length). intros length _.
  sbind ltac:(apply safe_any_liftR). intros random_amount _.
  destruct (length <? 2)%Z; [apply safe_raise|].
  destruct (amount_unset _); [apply safe_raise|].
  sbind ltac:(apply safe_melody_notes, Hc). intros ns Hns.
  eapply safe_bind with (mid := Forall (fresh h0)).
  { destruct (amount_for _ _ _ _ _); [|apply safe_raise].
    apply safe_liftR. intros r a r' H. eapply sample_incl; eassumption. }
  intros picked Hp.
  eapply safe_bind with (mid := Forall (fresh h0)).
  { apply safe_liftR. intros r a r' H. eapply shuffle_incl; eassumption. }
  intros notes_to_change Hn.
  sbind ltac:(apply (proj1 (safe_pairs_of h0 (fresh h0) notes_to_change) Hn)).
  intros batches Hb.
  sbind ltac:(apply safe_for_each).
  - intros [note_1 note_2] Hin. rewrite List.Forall_forall in Hb.
    destruct (Hb _ Hin) as [H1 H2]. simpl in H1, H2.
    sbind ltac:(apply safe_any_get). intros p1 _.
    sbind ltac:(apply safe_any_get). intros p2 _.
    sbind ltac:(apply safe_set_pitch, H1). intros _ _.
    apply safe_set_pitch, H2.
  - intros _ _. apply safe_ret. exact I.
Qed.

Lemma safe_ShiftPitch h0 melody amount_mode amount :
  safe h0 (ShiftPitch melody amount_mode amount) (fun _ => True).
Proof.
  unfold ShiftPitch.
  sbind ltac:(apply safe_deepcopy). intros c Hc.
  sbind ltac:(apply safe_melody_length). intros length _.
  sbind ltac:(apply safe_any_liftR). intros random_amount _.
  destruct (length <? 2)%Z; [apply safe_ret; exact I|].
  destruct (amount_unset _); [apply safe_raise|].
  sbind ltac:(apply safe_melody_notes, Hc). intros ns Hns.
  sbind ltac:(apply safe_deepcopy_notes). intros copies _.
  eapply safe_bind with (mid := fun _ => True).
  { destruct (amount_for _ _ _ _ _); [apply safe_ret; exact I|apply safe_raise]. }
  intros shifted _.
  sbind ltac:(apply safe_copy_pitches, Forall_combine_fst, Hns).
  intros _ _. apply safe_ret. exact I.
Qed.

Lemma safe_ShufflePitch h0 melody amount_mode amount :
  safe h0 (ShufflePitch melody amount_mode amount) (fun _ => True).
Proof.
  unfold ShufflePitch.
  sbind ltac:(apply safe_deepcopy). intros c Hc.
  sbind ltac:(apply safe_melody_length). intros length _.
  sbind ltac:(apply safe_any_liftR). intros random_amount _.
  destruct (length <? 2)%Z; [apply safe_ret; exact I|].
  destruct (amount_unset _); [apply safe_raise|].
  destruct (amount_for _ _ _ _ _) as [a|]; [|apply safe_raise].
  destruct (length <? a)%Z; [apply safe_raise|].
  sbind ltac:(apply safe_melody_notes, Hc). intros ns Hns.
  sbind ltac:(apply safe_any_liftR). intros note_indexes _.
  sbind ltac:(apply safe_any_liftR). intros shuffled_indexes _.
  eapply safe_bind with (mid := fun _ => True).
  { eapply safe_weaken; [apply safe_traverse with (post := fun _ => True)|auto].
    intros si _. sbind ltac:(apply safe_item, Hns). intros n _.
    apply safe_any_get. }
  intros shuffled_pitches _.
  sbind ltac:(apply safe_for_each).
  - intros [note_index shuffled_pitch] _.
    sbind ltac:(apply safe_item, Hns). intros n Hn.
    apply safe_set_pitch, Hn.
  - intros _ _. apply safe_ret. exact I.
Qed.

Lemma safe_RemapPitch h0 melody amount_mode amount :
  safe h0 (RemapPitch melody amount_mode amount) (fun _ => True).
Proof.
  unfold RemapPitch.
  sbind ltac:(apply safe_deepcopy). intros c Hc.
  sbind ltac:(apply safe_melody_length). intros length _.
  sbind ltac:(apply safe_any_liftR). intros random_amount _.
  destruct (length <? 2)%Z; [apply safe_ret; exact I|].
  destruct (amount_unset _); [apply safe_raise|].
  destruct (amount_for _ _ _ _ _) as [a|]; [|apply safe_raise].
  destruct (length <? a)%Z; [apply safe_raise|].
  sbind ltac:(apply safe_melody_notes, Hc). intros ns Hns.
  eapply safe_bind with (mid := Forall (fresh h0)).
  { apply safe_liftR. intros r x r' H. eapply sample_incl; eassumption. }
  intros notes_to_change Hn.
  sbind ltac:(apply safe_traverse; intros; apply safe_any_get).
  intros pitches _.
  sbind ltac:(apply safe_any_liftR). intros shuffled_pitches _.
  sbind ltac:(apply safe_for_each).
  - intros note Hin.
    sbind ltac:(apply safe_any_get). intros p _.
    sbind ltac:(apply safe_dict_item). intros q _.
    apply safe_set_pitch. rewrite List.Forall_forall in Hn. auto.
  - intros _ _. apply safe_ret. exact I.
Qed.

Lemma safe_RevertPitch h0 melody :
  safe h0 (RevertPitch melody) (fun _ => True).
Proof.
  unfold RevertPitch.
  sbind ltac:(apply safe_deepcopy). intros c Hc.
  sbind ltac:(apply safe_melody_length). intros length _.
  destruct (length <? 2)%Z; [apply safe_ret; exact I|].
  sbind ltac:(apply safe_melody_notes, Hc). intros ns Hns.
  sbind ltac:(apply safe_deepcopy_notes). intros copies _.
  sbind ltac:(apply safe_copy_pitches, Forall_combine_fst, Hns).
  intros _ _. apply safe_ret. exact I.
Qed.

Lemma safe_ChangeRhythm h0 melody duration grid duration_mode note_duration :
  safe h0 (ChangeRhythm melody duration grid duration_mode note_duration)
    (fun _ => True).
Proof.
  unfold ChangeRhythm.
  sbind ltac:(apply safe_deepcopy). intros c Hc.
  eapply safe_bind with (mid := fun _ => True).
  { destruct duration as [d|]; [destruct (float_truthy d)|];
      first [apply safe_ret; exact I | apply safe_melody_duration]. }
  intros d _.
  eapply safe_bind with (mid := fun _ => True).
  { destruct grid as [g|]; [destruct (float_truthy g)|];
      first [apply safe_ret; exact I | apply safe_melody_grid_size]. }
  intros g _.
  sbind ltac:(apply safe_melody_length). intros length _.
  sbind ltac:(apply safe_GenerateMelodyH). intros another Ha.
  sbind ltac:(apply safe_melody_notes, Ha). intros new_notes Hnew.
  sbind ltac:(apply safe_any_get). intros old_notes _.
  sbind ltac:(apply safe_for_each).
  - intros [idx note] Hin. apply in_combine_r in Hin.
    sbind ltac:(apply safe_item with (P := fun _ => True)).
    { apply List.Forall_forall. auto. }
    intros old _.
    sbind ltac:(apply safe_any_get). intros p _.
    apply safe_set_pitch. rewrite List.Forall_forall in Hnew. auto.
  - intros _ _. apply safe_ret. exact I.
Qed.

Lemma safe_given_melodies h0 (melodies : list (option loc)) :
  safe h0 (given_melodies melodies) (fun _ => True).
Proof.
  induction melodies as [|[m|] t IH]; simpl.
  - apply safe_ret. exact I.
  - eapply safe_bind with (mid := fun _ => True).
    { unfold melody_truthy. sbind ltac:(apply safe_any_get).
      intros els _. apply safe_ret. exact I. }
    intros keep _. sbind ltac:(exact IH). intros rest _.
    apply safe_ret. exact I.
  - exact IH.
Qed.

Lemma safe_reduce_add h0 (others : list loc) :
  forall x, safe h0 (reduce_add x others) (fun _ => True).
Proof.
  induction others as [|y t IH]; intros x; simpl.
  - apply safe_ret. exact I.
  - sbind ltac:(apply safe_melody_add). intros z _. apply IH.
Qed.

Lemma safe_ConcatMelodies h0 m1 m2 m3 m4 :
  safe h0 (ConcatMelodies m1 m2 m3 m4) (fun _ => True).
Proof.
  unfold ConcatMelodies.
  sbind ltac:(apply safe_given_melodies). intros [|x others] _.
  - eapply safe_weaken; [apply safe_new_melody | auto].
  - apply safe_reduce_add.
Qed.

Lemma safe_SubstitutePitch h0 rhythm sequence crop_rhythm :
  safe h0 (SubstitutePitch rhythm sequence crop_rhythm) (fun _ => True).
Proof.
  unfold SubstitutePitch.
  sbind ltac:(apply safe_deepcopy). intros r Hr.
  sbind ltac:(apply safe_deepcopy). intros s Hs.
  sbind ltac:(apply safe_melody_length). intros rl _.
  sbind ltac:(apply safe_melody_length). intros sl _.
  eapply safe_bind with (mid := fun _ => True).
  { destruct (_ && _); [apply safe_crop_length, Hr | apply safe_ret; exact I]. }
  intros _ _.
  sbind ltac:(apply safe_melody_notes, Hr). intros notes_1 H1.
  sbind ltac:(apply safe_any_get). intros notes_2 _.
  sbind ltac:(apply safe_copy_pitches, Forall_combine_fst, H1).
  intros _ _. apply safe_ret. exact I.
Qed.

Lemma safe_SubstituteRhythm h0 sequence rhythm :
  safe h0 (SubstituteRhythm sequence rhythm) (fun _ => True).
Proof.
  unfold SubstituteRhythm.
  sbind ltac:(apply safe_deepcopy). intros r _.
  sbind ltac:(apply safe_deepcopy). intros s _.
  apply safe_SubstitutePitch.
Qed.

Lemma safe_call h0 (op : Operation) : safe h0 (call op) (fun _ => True).
Proof.
  destruct op; simpl.
  - apply safe_ChangePitch.
  - apply safe_SwapPitch.
  - apply safe_ShiftPitch.
  - apply safe_ShufflePitch.
  - apply safe_RemapPitch.
  - apply safe_RevertPitch.
  - apply safe_ChangeRhythm.
  - apply safe_ConcatMelodies.
  - apply safe_SubstitutePitch.
  - apply safe_SubstituteRhythm.
Qed.

Lemma events_of_extend (h ext : Heap) (els : list loc) (evs : list Event) :
  events_of h els = Some evs -> events_of (h ++ ext) els = Some evs.
Proof.
  revert evs; induction els as [|l t IH]; intros evs H; simpl in *.
  - exact H.
  - destruct (h !! l) as [o|] eqn:E; [|discriminate].
    rewrite (lookup_app_l_Some _ _ _ _ E).
    destruct (event_of o); [|discriminate].
    destruct (events_of h t) as [es|]; [|discriminate].
    rewrite (IH es eq_refl). exact H.
Qed.

Lemma events_at_extend (h ext : Heap) (m : loc) (evs : list Event) :
  events_at h m = Some evs -> events_at (h ++ ext) m = Some evs.
Proof.
  unfold events_at, elements_at.
  destruct (h !! m) as [o|] eqn:E; [|discriminate].
  rewrite (lookup_app_l_Some _ _ _ _ E).
  destruct o; try discriminate. apply events_of_extend.
Qed.

(** C7: a call of any of the ten transforming and combining operations
    leaves every object that existed before the call untouched; so every
    melody of the store, the inputs of the call among them, has the same
    events (pitches, durations, order) after the call as before. *)
Theorem operations_do_not_mutate_inputs (op : Operation) (w w' : World)
    (result m : loc) (evs : list Event) :
  call op w = Ok (result, w') ->
  events_at (heap w) m = Some evs ->
  events_at (heap w') m = Some evs.
Proof.
  intros Hcall Hm.
  destruct (safe_call (heap w) op w result w' (inv_start w) Hcall)
    as [[[ext Hext] _] _].
  rewrite Hext. apply events_at_extend, Hm.
Qed.

Lemma operations_do_not_mutate_inputs_witness :
  events_at
    (heap (state_after (call (CallShufflePitch sample_melody AMaximum None))
             sample_world)) sample_melody
  = Some [Note pitch_C 1; Rest 1; Note pitch_D 2; Note pitch_E 1].
Proof.
  apply (operations_do_not_mutate_inputs
           (CallShufflePitch sample_melody AMaximum None) sample_world
           (state_after (call (CallShufflePitch sample_melody AMaximum None))
              sample_world)
           (value_of (call (CallShufflePitch sample_melody AMaximum None))
              sample_world 0%nat)
           sample_melody);
    vm_compute; reflexivity.
Defined.

(** ** The store after building or copying a melody *)

Lemma traverse_alloc_run (evs : list Event) :
  forall w,
  traverse (fun e => alloc (obj_of e)) evs w
  = Ok (seq (List.length (heap w)) (List.length evs),
        mkWorld (heap w ++ List.map obj_of evs) (rand w)).
Proof.
  induction evs as [|e t IH]; intros w; simpl.
  - unfold ret. rewrite app_nil_r. destruct w; reflexivity.
  - unfold bind at 1. unfold alloc at 1.
    unfold bind. rewrite IH. simpl. unfold ret.
    rewrite List.length_app, <- app_assoc. simpl.
    replace (List.length (heap w) + 1)%nat with (S (List.length (heap w))) by lia.
    reflexivity.
Qed.

Lemma new_stream_run (evs : list Event) (offs : list Q) (w : World) :
  new_stream evs offs w
  = Ok ((List.length (heap w) + List.length evs)%nat,
        mkWorld (heap w ++ List.map obj_of evs
                 ++ [OStream (seq (List.length (heap w)) (List.length evs))
                       offs])
                (rand w)).
Proof.
  unfold new_stream, bind. rewrite traverse_alloc_run. unfold alloc. simpl.
  rewrite List.length_app, List.length_map, <- app_assoc. reflexivity.
Qed.

Lemma new_melody_run (evs : list Event) (w : World) :
  new_melody evs w
  = Ok ((List.length (heap w) + List.length evs)%nat,
        mkWorld (heap w ++ List.map obj_of evs
                 ++ [OStream (seq (List.length (heap w)) (List.length evs))
                       (append_offsets 0 evs)])
                (rand w)).
Proof. apply new_stream_run. Qed.

Lemma offsets_at_stored (h : Heap) (m : loc) (evs : list Event) :
  events_at h m = Some evs -> offsets_at h m = Some (stored_offsets h m).
Proof.
  unfold events_at, elements_at, stored_offsets, offsets_at.
  destruct (h !! m) as [[p d|d|els offs]|]; try discriminate. reflexivity.
Qed.

Lemma deepcopy_run (m : loc) (w : World) (evs : list Event) :
  events_at (heap w) m = Some evs ->
  deepcopy m w
  = Ok ((List.length (heap w) + List.length evs)%nat,
        mkWorld (heap w ++ List.map obj_of evs
                 ++ [OStream (seq (List.length (heap w)) (List.length evs))
                       (stored_offsets (heap w) m)])
                (rand w)).
Proof.
  intros H. unfold deepcopy, bind, get.
  rewrite H, (offsets_at_stored _ _ _ H). apply new_stream_run.
Qed.

Lemma lookup_middle (h tail : Heap) (o : obj) :
  (h ++ o :: tail) !! List.length h = Some o.
Proof. rewrite lookup_app_r by lia. now rewrite Nat.sub_diag. Qed.

Lemma shift_head (h : Heap) (o : obj) (rest : list obj) :
  h ++ o :: rest = (h ++ [o]) ++ rest.
Proof. now rewrite <- app_assoc. Qed.

Lemma length_snoc (h : Heap) (o : obj) :
  List.length (h ++ [o]) = S (List.length h).
Proof. rewrite List.length_app. simpl. lia. Qed.

Lemma events_of_laid_out (evs : list Event) :
  forall (h tail : Heap),
  events_of (h ++ List.map obj_of evs ++ tail)
    (seq (List.length h) (List.length evs)) = Some evs.
Proof.
  induction evs as [|e t IH]; intros h tail; [reflexivity|].
  cbn [List.map List.length seq events_of app].
  rewrite lookup_middle.
  rewrite shift_head, <- (length_snoc h (obj_of e)), IH.
  destruct e; reflexivity.
Qed.

Lemma note_locs_laid_out (evs : list Event) :
  forall (h tail : Heap),
  note_locs (h ++ List.map obj_of evs ++ tail)
    (seq (List.length h) (List.length evs))
  = Some (note_positions (List.length h) evs).
Proof.
  induction evs as [|e t IH]; intros h tail; [reflexivity|].
  cbn [List.map List.length seq note_locs app].
  rewrite lookup_middle.
  rewrite shift_head, <- (length_snoc h (obj_of e)), IH.
  rewrite length_snoc. destruct e; reflexivity.
Qed.

Lemma length_note_positions (base : nat) (evs : list Event) :
  List.length (note_positions base evs) = mlength evs.
Proof.
  unfold mlength, notes.
  revert base; induction evs as [|[p d|d] t IH]; intros base; simpl; auto.
Qed.

Lemma stream_laid_out {offs : list Q} (h : Heap) (objs tail : list obj)
    (els : list loc) :
  elements_at (h ++ objs ++ OStream els offs :: tail)
    (List.length h + List.length objs)%nat = Some els.
Proof.
  unfold elements_at. rewrite app_assoc.
  rewrite <- List.length_app, lookup_middle. reflexivity.
Qed.

Lemma events_at_laid_out {offs : list Q} (h tail : Heap) (evs : list Event) :
  events_at (h ++ List.map obj_of evs
             ++ OStream (seq (List.length h) (List.length evs)) offs :: tail)
    (List.length h + List.length evs)%nat = Some evs.
Proof.
  unfold events_at.
  rewrite <- (List.length_map obj_of evs) at 2.
  rewrite stream_laid_out. apply events_of_laid_out.
Qed.

Lemma notes_at_laid_out {offs : list Q} (h tail : Heap) (evs : list Event) :
  notes_at (h ++ List.map obj_of evs
            ++ OStream (seq (List.length h) (List.length evs)) offs :: tail)
    (List.length h + List.length evs)%nat
  = Some (note_positions (List.length h) evs).
Proof.
  unfold notes_at.
  rewrite <- (List.length_map obj_of evs) at 2.
  rewrite stream_laid_out. apply note_locs_laid_out.
Qed.

Lemma melody_length_laid_out {offs : list Q} (h tail : Heap)
    (evs : list Event) (r : Rand) :
  let w := mkWorld (h ++ List.map obj_of evs
                    ++ OStream (seq (List.length h) (List.length evs)) offs
                       :: tail) r in
  melody_length (List.length h + List.length evs)%nat w
  = Ok (Z.of_nat (mlength evs), w).
Proof.
  intros w. unfold melody_length, melody_notes, bind, get. subst w.
  cbn [heap]. rewrite notes_at_laid_out. unfold ret.
  now rewrite length_note_positions.
Qed.

(** ** [ShiftPitch] and [ShufflePitch] on fewer than two notes *)

Lemma randint_empty (a b : Z) (w : World) :
  (b < a)%Z -> liftR (randint a b) w = Raise ValueError.
Proof.
  intros H. unfold liftR, randint.
  destruct (Z.ltb_spec b a); [reflexivity | lia].
Qed.

(** C3 (as the code behaves): on a melody with fewer than two notes both
    [ShiftPitch] and [ShufflePitch] raise [ValueError], whatever the amount
    mode: the random amount is drawn from an empty range before the length
    is checked, so the early [return melody] is never reached. *)
Theorem ShiftPitch_ShufflePitch_short_melody_raise (w : World) (m : loc)
    (evs : list Event) (amount_mode : AmountMode) (amount : option Z) :
  events_at (heap w) m = Some evs ->
  (mlength evs < 2)%nat ->
  ShiftPitch m amount_mode amount w = Raise ValueError
  /\ ShufflePitch m amount_mode amount w = Raise ValueError.
Proof.
  intros Hm Hlen.
  pose proof (deepcopy_run m w evs Hm) as Hcopy.
  pose proof (melody_length_laid_out (offs := stored_offsets (heap w) m)
                (heap w) [] evs (rand w)) as Hl.
  cbv zeta in Hl.
  split.
  - unfold ShiftPitch.
    rewrite (bind_step _ _ _ _ _ Hcopy), (bind_step _ _ _ _ _ Hl).
    unfold bind. rewrite randint_empty by lia. reflexivity.
  - unfold ShufflePitch.
    rewrite (bind_step _ _ _ _ _ Hcopy), (bind_step _ _ _ _ _ Hl).
    unfold bind. rewrite randint_empty by lia. reflexivity.
Qed.

Lemma ShiftPitch_ShufflePitch_short_melody_raise_witness :
  ShiftPitch 1%nat AMinimum None one_note_world = Raise ValueError
  /\ ShufflePitch 1%nat AMinimum None one_note_world = Raise ValueError.
Proof.
  apply (ShiftPitch_ShufflePitch_short_melody_raise one_note_world 1%nat
           [Note pitch_C 1] AMinimum None).
  - vm_compute; reflexivity.
  - vm_compute; lia.
Defined.

(** ** [ChangePitch] picks its notes with replacement *)

(** C8 (as the code behaves): [ChangePitch] selects the notes with
    [random.choices], that is with replacement.  In [Maximum] mode on the
    sample melody of three notes, when every draw is 0 the first note is
    picked three times and the other two keep their pitches. *)
Theorem ChangePitch_Maximum_can_miss_notes :
  events_at
    (heap (state_after
             (ChangePitch sample_melody AMaximum None (Some [pitch_G]))
             zero_world))
    (value_of (ChangePitch sample_melody AMaximum None (Some [pitch_G]))
       zero_world 0%nat)
  = Some [Note pitch_G 1; Rest 1; Note pitch_D 2; Note pitch_E 1].
Proof. vm_compute. reflexivity. Qed.

(** ** [RevertPitch] on values *)

Lemma note_at_extend (h ext : Heap) (l : loc) (o : obj) :
  note_at h l = Some o -> note_at (h ++ ext) l = Some o.
Proof.
  unfold note_at. destruct (h !! l) as [o'|] eqn:E; [|discriminate].
  rewrite (lookup_app_l_Some _ _ _ _ E). auto.
Qed.

Lemma deepcopy_notes_run (ns : list loc) :
  forall (w : World) (os : list obj),
  Forall2 (fun l o => note_at (heap w) l = Some o) ns os ->
  deepcopy_notes ns w
  = Ok (seq (List.length (heap w)) (List.length ns),
        mkWorld (heap w ++ os) (rand w)).
Proof.
  unfold deepcopy_notes.
  induction ns as [|l t IH]; intros w os H.
  - inversion H; subst. simpl. unfold ret. rewrite app_nil_r.
    destruct w; reflexivity.
  - inversion H as [|? o ? os' Hl Ht]; subst.
    assert (E1 : (do o <- get (fun h => note_at h l); alloc o) w
                 = Ok (List.length (heap w), mkWorld (heap w ++ [o]) (rand w))).
    { unfold bind, get. rewrite Hl. reflexivity. }
    assert (E2 : Forall2 (fun l' x => note_at (heap w ++ [o]) l' = Some x) t os')
      by (eapply Forall2_impl; [exact Ht|];
          intros l' o' H'; apply note_at_extend, H').
    cbn [traverse]. rewrite (bind_step _ _ _ _ _ E1).
    rewrite (bind_step _ _ _ _ _
               (IH (mkWorld (heap w ++ [o]) (rand w)) os' E2)).
    cbn [heap rand]. unfold ret. rewrite length_snoc, <- app_assoc.
    reflexivity.
Qed.

Lemma notes_laid_out (evs : list Event) :
  forall (h tail : Heap),
  Forall2 (fun l o => note_at (h ++ List.map obj_of evs ++ tail) l = Some o)
    (note_positions (List.length h) evs) (List.map obj_of (notes evs)).
Proof.
  induction evs as [|e t IH]; intros h tail; [constructor|].
  specialize (IH (h ++ [obj_of e]) tail).
  rewrite length_snoc, <- shift_head in IH.
  destruct e as [p d|d]; cbn [note_positions notes List.filter is_note List.map].
  - constructor; [|exact IH].
    unfold note_at. cbn [obj_of app]. rewrite lookup_middle. reflexivity.
  - exact IH.
Qed.

Lemma lookup_tail (h objs tail : Heap) (k : nat) :
  (h ++ objs ++ tail) !! (List.length h + List.length objs + k)%nat = tail !! k.
Proof.
  rewrite app_assoc, lookup_app_r by (rewrite List.length_app; lia).
  f_equal. rewrite List.length_app. lia.
Qed.

Lemma insert_middle (h tail : Heap) (o o' : obj) :
  <[List.length h := o']> (h ++ o :: tail) = h ++ o' :: tail.
Proof.
  rewrite insert_app_r_alt by lia. now rewrite Nat.sub_diag.
Qed.

Lemma copy_pitches_run (evs : list Event) :
  forall (h tail : Heap) (srcs : list loc) (qs : list Pitch) (r : Rand),
  Forall2 (fun s q => exists k,
             s = (List.length h + List.length evs + k)%nat
             /\ pitch_at tail k = Some q) srcs qs ->
  copy_pitches (combine (note_positions (List.length h) evs) srcs)
    (mkWorld (h ++ List.map obj_of evs ++ tail) r)
  = Ok (tt, mkWorld (h ++ List.map obj_of (assign_pitches qs evs) ++ tail) r).
Proof.
  unfold copy_pitches.
  induction evs as [|e t IH]; intros h tail srcs qs r H.
  - reflexivity.
  - assert (Hshift : Forall2 (fun s q => exists k,
               s = (S (List.length h) + List.length t + k)%nat
               /\ pitch_at tail k = Some q) srcs qs).
    { eapply Forall2_impl; [exact H|]. intros s q (k & -> & Hk).
      exists k. split; [simpl; lia | exact Hk]. }
    destruct e as [p d|d].
    + cbn [note_positions].
      destruct H as [|s q srcs' qs' (k & Hs & Hk) H'].
      * reflexivity.
      * cbn [combine for_each assign_pitches List.map obj_of].
        unfold bind at 1. unfold bind at 1. unfold get at 1.
        cbn [heap].
        assert (Hsrc : pitch_at (h ++ List.map obj_of (Note p d :: t) ++ tail) s
                       = Some q).
        { unfold pitch_at. rewrite Hs, <- (List.length_map obj_of (Note p d :: t)).
          rewrite lookup_tail. exact Hk. }
        cbn [List.map obj_of] in Hsrc. rewrite Hsrc.
        unfold set_pitch at 1. cbn [heap rand].
        rewrite <- app_comm_cons, lookup_middle, insert_middle.
        inversion Hshift as [|? ? ? ? _ Hshift']; subst.
        specialize (IH (h ++ [ONote q d]) tail srcs' qs' r).
        rewrite length_snoc, <- !shift_head in IH.
        apply IH. exact Hshift'.
    + cbn [note_positions assign_pitches List.map obj_of].
      specialize (IH (h ++ [ORest d]) tail srcs qs r).
      rewrite length_snoc, <- !shift_head in IH.
      rewrite <- !app_comm_cons. apply IH. exact Hshift.
Qed.

Lemma Forall2_rev_rev {A B} (P : A -> B -> Prop) (l : list A) (k : list B) :
  Forall2 P l k -> Forall2 P (rev l) (rev k).
Proof.
  induction 1 as [|x y l k Hxy _ IH]; simpl; [constructor|].
  apply Forall2_app; [exact IH | repeat constructor; exact Hxy].
Qed.

Lemma mlength_cons_note p d t : mlength (Note p d :: t) = S (mlength t).
Proof. reflexivity. Qed.

Lemma mlength_cons_rest d t : mlength (Rest d :: t) = mlength t.
Proof. reflexivity. Qed.

Lemma copies_laid_out (base : nat) (evs : list Event) :
  forall pre : list obj,
  Forall2 (fun s q => exists k,
             s = (base + k)%nat
             /\ pitch_at (pre ++ List.map obj_of (notes evs)) k = Some q)
    (seq (base + List.length pre) (mlength evs)) (pitches_of evs).
Proof.
  induction evs as [|[p d|d] t IH]; intros pre.
  - constructor.
  - rewrite mlength_cons_note.
    cbn [seq pitches_of notes List.filter is_note List.map obj_of].
    constructor.
    + exists (List.length pre). split; [reflexivity|].
      unfold pitch_at. rewrite lookup_middle. reflexivity.
    + specialize (IH (pre ++ [ONote p d])).
      rewrite length_snoc, <- shift_head in IH.
      replace (base + S (List.length pre))%nat
        with (S (base + List.length pre)) in IH by lia.
      exact IH.
  - rewrite mlength_cons_rest. cbn [pitches_of notes List.filter is_note].
    apply IH.
Qed.

Lemma RevertPitch_run (w : World) (m : loc) (evs : list Event) :
  events_at (heap w) m = Some evs ->
  exists w',
    RevertPitch m w = Ok ((List.length (heap w) + List.length evs)%nat, w')
    /\ events_at (heap w') (List.length (heap w) + List.length evs)%nat
       = Some (revert_events evs)
    /\ rand w' = rand w.
Proof.
  intros Hm. unfold RevertPitch, revert_events.
  pose proof (melody_length_laid_out (offs := stored_offsets (heap w) m)
                (heap w) [] evs (rand w)) as Hl.
  cbv zeta in Hl.
  rewrite (bind_step _ _ _ _ _ (deepcopy_run m w evs Hm)).
  rewrite (bind_step _ _ _ _ _ Hl).
  destruct (Z.of_nat (mlength evs) <? 2)%Z.
  - eexists. split; [reflexivity|]. split; [|reflexivity].
    cbn [heap]. apply events_at_laid_out.
  - set (h := heap w).
    set (offs := stored_offsets h m).
    set (els := seq (List.length h) (List.length evs)).
    assert (En : melody_notes (List.length h + List.length evs)%nat
                   (mkWorld (h ++ List.map obj_of evs ++ [OStream els offs]) (rand w))
                 = Ok (note_positions (List.length h) evs,
                       mkWorld (h ++ List.map obj_of evs ++ [OStream els offs])
                         (rand w))).
    { unfold melody_notes, get. cbn [heap]. subst els.
      rewrite notes_at_laid_out. reflexivity. }
    rewrite (bind_step _ _ _ _ _ En).
    pose proof (deepcopy_notes_run (note_positions (List.length h) evs)
                  (mkWorld (h ++ List.map obj_of evs ++ [OStream els offs]) (rand w))
                  (List.map obj_of (notes evs))
                  (notes_laid_out evs h [OStream els offs])) as Ec.
    rewrite (bind_step _ _ _ _ _ Ec). cbn [heap rand].
    rewrite length_note_positions.
    assert (Hsrc : Forall2 (fun s q => exists k,
               s = (List.length h + List.length evs + k)%nat
               /\ pitch_at (OStream els offs :: List.map obj_of (notes evs)) k
                  = Some q)
             (rev (seq (List.length (h ++ List.map obj_of evs ++ [OStream els offs]))
                     (mlength evs)))
             (rev (pitches_of evs))).
    { apply Forall2_rev_rev.
      pose proof (copies_laid_out (List.length h + List.length evs) evs
                    [OStream els offs]) as Hc.
      simpl List.length in Hc.
      replace (List.length (h ++ List.map obj_of evs ++ [OStream els offs]))
        with (List.length h + List.length evs + 1)%nat
        by (rewrite !List.length_app, List.length_map; simpl; lia).
      exact Hc. }
    pose proof (copy_pitches_run evs h
                  (OStream els offs :: List.map obj_of (notes evs)) _ _ (rand w) Hsrc)
      as Ep.
    replace ((h ++ List.map obj_of evs ++ [OStream els offs])
             ++ List.map obj_of (notes evs))
      with (h ++ List.map obj_of evs
            ++ OStream els offs :: List.map obj_of (notes evs))
      by (now rewrite <- !app_assoc).
    rewrite (bind_step _ _ _ _ _ Ep). unfold ret.
    eexists. split; [reflexivity|]. split; [|reflexivity].
    cbn [heap]. subst els.
    rewrite <- (length_assign_pitches (rev (pitches_of evs)) evs).
    apply events_at_laid_out.
Qed.

Lemma assign_own_pitches m : assign_pitches (pitches_of m) m = m.
Proof.
  induction m as [|[p d|d] t IH]; simpl; congruence.
Qed.

Lemma assign_assign ps qs m :
  List.length ps = mlength m -> List.length qs = mlength m ->
  assign_pitches ps (assign_pitches qs m) = assign_pitches ps m.
Proof.
  revert ps qs; induction m as [|[p d|d] t IH]; intros ps qs Hp Hq.
  - reflexivity.
  - rewrite mlength_cons_note in Hp, Hq.
    destruct ps as [|p' ps], qs as [|q' qs]; try discriminate.
    simpl. f_equal. apply IH; simpl in *; lia.
  - rewrite mlength_cons_rest in Hp, Hq. simpl. f_equal. apply IH; assumption.
Qed.

Lemma length_pitches_of m : List.length (pitches_of m) = mlength m.
Proof.
  induction m as [|[p d|d] t IH]; simpl; auto.
  rewrite mlength_cons_note. congruence.
Qed.

Lemma revert_events_involutive (evs : list Event) :
  revert_events (revert_events evs) = evs.
Proof.
  unfold revert_events.
  destruct (Z.of_nat (mlength evs) <? 2)%Z eqn:E.
  - rewrite E. reflexivity.
  - rewrite mlength_assign, E.
    rewrite pitches_of_assign
      by (rewrite List.length_rev; apply length_pitches_of).
    rewrite List.rev_involutive.
    rewrite assign_assign.
    + apply assign_own_pitches.
    + apply length_pitches_of.
    + rewrite List.length_rev. apply length_pitches_of.
Qed.

(** C10: [RevertPitch] draws no random number, and applying it twice gives
    a melody with the events of the one it started from: the same pitches
    and durations in the same order, for melodies of any length. *)
Theorem RevertPitch_twice (w : World) (m : loc) (evs : list Event) :
  events_at (heap w) m = Some evs ->
  exists m1 w1 m2 w2,
    RevertPitch m w = Ok (m1, w1)
    /\ RevertPitch m1 w1 = Ok (m2, w2)
    /\ events_at (heap w2) m2 = Some evs
    /\ rand w2 = rand w.
Proof.
  intros Hm.
  destruct (RevertPitch_run w m evs Hm) as (w1 & E1 & Hv1 & Hr1).
  destruct (RevertPitch_run w1 _ _ Hv1) as (w2 & E2 & Hv2 & Hr2).
  eexists _, w1, _, w2. repeat split; [exact E1 | exact E2 | | congruence].
  rewrite Hv2, revert_events_involutive. reflexivity.
Qed.

Lemma RevertPitch_twice_witness :
  exists m1 w1 m2 w2,
    RevertPitch sample_melody sample_world = Ok (m1, w1)
    /\ RevertPitch m1 w1 = Ok (m2, w2)
    /\ events_at (heap w2) m2
       = Some [Note pitch_C 1; Rest 1; Note pitch_D 2; Note pitch_E 1]
    /\ rand w2 = rand sample_world.
Proof.
  apply (RevertPitch_twice sample_world sample_melody
           [Note pitch_C 1; Rest 1; Note pitch_D 2; Note pitch_E 1]).
  vm_compute. reflexivity.
Defined.

(** ** Formulas: caching and failure *)

(** C4 (as the code behaves): a formula whose result is an empty melody is
    evaluated again on every access.  [ConcatMelodies] with nothing
    connected returns an empty melody; the second access calls the method
    again, runs the on-success hook again and returns a new object. *)
Theorem formula_recomputes_empty_melody :
  formula_value two_methods 1 0%nat lone_concat
  = Returned 0%nat (graph_after (formula_value two_methods 1 0%nat) lone_concat)
  /\ trace (graph_after (formula_value two_methods 1 0%nat) lone_concat)
     = [Invoked 0%nat; OnSuccess 0%nat]
  /\ formula_value two_methods 1 0%nat
       (graph_after (formula_value two_methods 1 0%nat) lone_concat)
     = Returned 1%nat
         (graph_after (formula_value two_methods 1 0%nat)
            (graph_after (formula_value two_methods 1 0%nat) lone_concat))
  /\ trace (graph_after (formula_value two_methods 1 0%nat)
              (graph_after (formula_value two_methods 1 0%nat) lone_concat))
     = [Invoked 0%nat; OnSuccess 0%nat; Invoked 0%nat; OnSuccess 0%nat].
Proof. vm_compute. repeat split. Qed.


(** *** What an evaluation leaves alone in an acyclic wiring *)















(** * Further properties of the modelled code *)

(** ** [GenerateMelody]: which pitches and which lengths *)

Lemma try_insert_shape (rounds : nat) (chosen : list Pitch) (p : Pitch) :
  forall indices r l r',
  try_insert rounds chosen p indices r = Ok (Some l, r') ->
  exists i, l = list_insert_at i p chosen.
Proof.
  induction rounds as [|n IH]; intros indices r l r' H; [discriminate|].
  cbn [try_insert] in H. destruct indices as [|i0 rest]; [discriminate|].
  inv_bind H. destruct (negb _ && negb _) in H.
  - inv_ret H. eauto.
  - eapply IH, H.
Qed.

Lemma In_list_insert_at {A} (i : nat) (x y : A) (l : list A) :
  In y (list_insert_at i x l) <-> y = x \/ In y l.
Proof.
  unfold list_insert_at. rewrite in_app_iff. simpl.
  rewrite <- (firstn_skipn i l) at 3. rewrite in_app_iff.
  intuition congruence.
Qed.

Lemma alternate_loop_elements (pitches : list Pitch) (length : Z) (fuel : nat) :
  forall chosen r res r',
  alternate_loop fuel pitches length chosen r = Ok (res, r') ->
  incl chosen pitches -> incl res pitches /\ incl chosen res.
Proof.
  induction fuel as [|n IH]; intros chosen r res r' H Hin.
  - simpl in H. destruct (_ <? _)%Z; [discriminate|].
    inv_ret H. split; [exact Hin | apply incl_refl].
  - cbn [alternate_loop] in H. destruct (_ <? _)%Z.
    + inv_bind H. inv_bind H. apply choice_In in Ha.
      destruct a0 as [l|].
      * apply try_insert_shape in Ha0 as [i ->].
        apply IH in H as [H1 H2].
        -- split; [exact H1|]. intros x Hx. apply H2.
           apply In_list_insert_at. now right.
        -- intros x Hx. apply In_list_insert_at in Hx as [->|Hx]; auto.
      * apply IH in H; auto.
    + inv_ret H. split; [exact Hin | apply incl_refl].
Qed.

Lemma choose_pitches_elements (fuel : nat) (pitches : list Pitch) (length : Z)
    (alternate use_all : bool) r ps r' :
  choose_pitches fuel pitches length alternate use_all r = Ok (ps, r') ->
  incl ps pitches /\ (use_all = true -> incl pitches ps).
Proof.
  intros H. unfold choose_pitches in H.
  destruct alternate; cbn [negb] in H.
  - inv_bind H.
    assert (incl a pitches /\ (use_all = true -> incl pitches a)) as [H1 H2].
    { destruct use_all.
      - apply shuffle_Permutation in Ha. split.
        + intros x Hx. eapply Permutation_in; eassumption.
        + intros _ x Hx. eapply Permutation_in; [symmetry|]; eassumption.
      - inv_ret Ha. split; [apply incl_nil_l | discriminate]. }
    apply alternate_loop_elements in H as [H3 H4]; [|exact H1].
    split; [exact H3|]. intros Hu x Hx. apply H4, H2; assumption.
  - inv_bind H. apply shuffle_Permutation in H.
    assert (incl a pitches /\ (use_all = true -> incl pitches a)) as [H1 H2].
    { destruct use_all; cbn [negb] in Ha.
      - inv_bind Ha. inv_ret Ha. apply choices_go_spec in Haa as [_ Hc].
        rewrite List.Forall_forall in Hc. split.
        + intros x Hx. apply in_app_or in Hx as [Hx|Hx]; auto.
        + intros _ x Hx. apply in_or_app. now left.
      - apply choices_go_spec in Ha as [_ Hc].
        rewrite List.Forall_forall in Hc. split; [exact Hc | discriminate]. }
    split.
    + intros x Hx. apply H1. eapply Permutation_in; eassumption.
    + intros Hu x Hx. eapply Permutation_in; [symmetry; exact H|].
      apply H2; assumption.
Qed.

Lemma In_distinct (p : Pitch) (ps : list Pitch) :
  In p (distinct ps) <-> In p ps.
Proof.
  unfold distinct. rewrite <- !list_elem_of_In. apply elem_of_remove_dups.
Qed.

(** X1: every pitch of a generated melody is one of the pitches given. *)
Theorem GenerateMelody_pitches_from_input (fuel : nat) (pitches : list Pitch)
    (length : Z) (duration : number) (g : float) (mode : DurationMode)
    (note_duration : option float) (alternate use_all : bool) (r r' : Rand)
    (m : Melody) (p : Pitch) :
  GenerateMelody fuel pitches length duration g mode note_duration
    alternate use_all r = Ok (m, r') ->
  In p (pitches_of m) -> In p pitches.
Proof.
  intros H Hp.
  apply GenerateMelody_inv in H
    as [[_ ->]|(slots & melody & chosen & r1 & _ & _ & Hc & Hlen & ->)].
  - destruct Hp.
  - rewrite pitches_of_assign in Hp by exact Hlen.
    apply choose_pitches_elements in Hc as [Hc _].
    apply In_distinct, Hc, Hp.
Qed.

Lemma GenerateMelody_pitches_from_input_witness :
  In pitch_D [pitch_C; pitch_D].
Proof.
  apply (GenerateMelody_pitches_from_input 50 [pitch_C; pitch_D] 4 (NFloat 4)
           1 DFixed (Some 1%float) true true sample_draws
           (state_after (GenerateMelody 50 [pitch_C; pitch_D] 4 (NFloat 4) 1
                           DFixed (Some 1%float) true true) sample_draws)
           (value_of (GenerateMelody 50 [pitch_C; pitch_D] 4 (NFloat 4) 1
                        DFixed (Some 1%float) true true) sample_draws [])).
  - vm_compute; reflexivity.
  - vm_compute. auto.
Defined.

(** X2: with [use_all] set and a positive length, every pitch given
    occurs in the generated melody. *)
Theorem GenerateMelody_use_all (fuel : nat) (pitches : list Pitch)
    (length : Z) (duration : number) (g : float) (mode : DurationMode)
    (note_duration : option float) (alternate : bool) (r r' : Rand)
    (m : Melody) (p : Pitch) :
  GenerateMelody fuel pitches length duration g mode note_duration
    alternate true r = Ok (m, r') ->
  (0 < length)%Z ->
  In p pitches -> In p (pitches_of m).
Proof.
  intros H Hl Hp.
  apply GenerateMelody_inv in H
    as [[Hle _]|(slots & melody & chosen & r1 & _ & _ & Hc & Hlen & ->)].
  - lia.
  - rewrite pitches_of_assign by exact Hlen.
    apply choose_pitches_elements in Hc as [_ Hc].
    apply Hc; [reflexivity | apply In_distinct, Hp].
Qed.

Lemma GenerateMelody_use_all_witness :
  In pitch_D
    (pitches_of
       (value_of (GenerateMelody 50 [pitch_C; pitch_D] 4 (NFloat 4) 1 DFixed
                    (Some 1%float) true true) sample_draws [])).
Proof.
  apply (GenerateMelody_use_all 50 [pitch_C; pitch_D] 4 (NFloat 4) 1 DFixed
           (Some 1%float) true sample_draws
           (state_after (GenerateMelody 50 [pitch_C; pitch_D] 4 (NFloat 4) 1
                           DFixed (Some 1%float) true true) sample_draws)).
  - vm_compute; reflexivity.
  - lia.
  - vm_compute. auto.
Defined.

Lemma notes_assign_durations (d : Q) (m : Melody) :
  forall ps,
  Forall (fun e => quarterLength e = d) (notes m) ->
  Forall (fun e => quarterLength e = d) (notes (assign_pitches ps m)).
Proof.
  unfold notes.
  induction m as [|[p q|q] t IH]; intros ps H; simpl in *.
  - constructor.
  - destruct ps as [|p' ps']; simpl; [exact H|].
    inversion H; subst. constructor; [reflexivity | apply IH; assumption].
  - apply IH, H.
Qed.

(** X3: in the [Minimum] mode every note of a generated melody lasts the
    [Duration] of one grid step, and in the [Fixed] mode every note lasts
    the [Duration] of [note_duration]. *)
Theorem GenerateMelody_packed_note_lengths (fuel : nat) (pitches : list Pitch)
    (length : Z) (duration : number) (g : float) (mode : DurationMode)
    (note_duration : option float) (alternate use_all : bool) (r r' : Rand)
    (m : Melody) (d : Q) :
  GenerateMelody fuel pitches length duration g mode note_duration
    alternate use_all r = Ok (m, r') ->
  (mode = DMinimum /\ opFrac g = Some d)
  \/ (mode = DFixed
      /\ exists nd, note_duration = Some nd /\ opFrac nd = Some d) ->
  Forall (fun e => quarterLength e = d) (notes m).
Proof.
  intros H Hd.
  apply GenerateMelody_inv in H
    as [[_ ->]|(slots & melody & chosen & r1 & Hc & Hr & _ & _ & ->)].
  - constructor.
  - apply notes_assign_durations.
    apply check_params_Ok in Hc as (_ & Hl & _).
    assert (Hmode : is_spread mode = false
                    /\ exists nd, packed_note_duration g mode note_duration
                                  = Some nd /\ opFrac nd = Some d).
    { destruct Hd as [[-> Hg]|(-> & nd & -> & Hnd)]; (split; [reflexivity|]).
      - exists g. split; [reflexivity | exact Hg].
      - exists nd. split; [reflexivity | exact Hnd]. }
    destruct Hmode as (Hs & nd & End & Hnd).
    unfold rhythm in Hr. rewrite Hs in Hr.
    apply rhythm_packed_Ok in Hr as (nd' & d' & End' & Hd' & _ & Hr & _);
      [|lia|exact Hs].
    assert (d' = d) as -> by congruence.
    unfold notes. clear - Hr.
    induction Hr as [|e t He _ IH]; simpl; [constructor|].
    destruct e as [p x|x]; simpl; [constructor; [exact He | exact IH] | exact IH].
Qed.

Lemma GenerateMelody_packed_note_lengths_witness :
  Forall (fun e => quarterLength e = 1 # 2)
    (notes (value_of (GenerateMelody 0 [pitch_C; pitch_D; pitch_E] 3
                        (NFloat 8) 0.5 DMinimum None false true)
              sample_draws [])).
Proof.
  apply (GenerateMelody_packed_note_lengths 0 [pitch_C; pitch_D; pitch_E] 3
           (NFloat 8) 0.5 DMinimum None false true sample_draws
           (state_after (GenerateMelody 0 [pitch_C; pitch_D; pitch_E] 3
                           (NFloat 8) 0.5 DMinimum None false true)
              sample_draws)).
  - vm_compute; reflexivity.
  - left. split; reflexivity.
Defined.

(** A float that is not below zero is not below a null float. *)
Lemma not_below_null (x g : float) :
  (g =? 0)%float = true -> (0 <=? x)%float = true -> (x <? g)%float = false.
Proof.
  rewrite FloatAxioms.eqb_spec, FloatAxioms.leb_spec, FloatAxioms.ltb_spec.
  change (Prim2SF 0) with (S754_zero false).
  destruct (Prim2SF g) as [sg|sg| |sg mg eg], (Prim2SF x) as [sx|sx| |sx mx ex];
    try destruct sg; try destruct sx; simpl; intros H1 H2;
    try discriminate; reflexivity.
Qed.

(** X5: a grid size of zero is not caught by a check of its own: with a
    positive length and a non-negative duration the division by the grid
    size raises [ZeroDivisionError]. *)
Theorem GenerateMelody_zero_grid (fuel : nat) (pitches : list Pitch)
    (length : Z) (duration g : float) (mode : DurationMode)
    (note_duration : option float) (alternate use_all : bool) (r : Rand) :
  (0 < length)%Z -> (g =? 0)%float = true -> (0 <=? duration)%float = true ->
  GenerateMelody fuel pitches length (NFloat duration) g mode note_duration
    alternate use_all r = Raise ZeroDivisionError.
Proof.
  intros Hl Hg Hd.
  unfold GenerateMelody, GenerateStream, check_params, bind.
  destruct (Z.leb_spec length 0); [lia|].
  cbn [number_ltb_float number_div_float].
  rewrite (not_below_null duration g Hg Hd).
  unfold float_div. rewrite Hg. reflexivity.
Qed.

Lemma GenerateMelody_zero_grid_witness :
  GenerateMelody 0 [pitch_C] 2 (NFloat 4) 0 DRandom None false false
    sample_draws
  = Raise ZeroDivisionError.
Proof.
  apply GenerateMelody_zero_grid; [lia | reflexivity | reflexivity].
Defined.

Lemma is_note_assign ps m :
  List.map is_note (assign_pitches ps m) = List.map is_note m.
Proof.
  revert ps; induction m as [|[p d|d] t IH]; intros ps; simpl.
  - reflexivity.
  - destruct ps; simpl; [reflexivity | f_equal; apply IH].
  - f_equal; apply IH.
Qed.

Lemma map_tl_comm {A B} (f : A -> B) (l : list A) :
  List.map f (List.tl l) = List.tl (List.map f l).
Proof. destruct l; reflexivity. Qed.

(** X4: in the [Maximum] mode the notes fill the grid: a generated melody
    has no rest except possibly in front of the first note. *)
Theorem GenerateMelody_maximum_has_no_inner_rest (fuel : nat)
    (pitches : list Pitch) (length : Z) (duration : number) (g : float)
    (note_duration : option float) (alternate use_all : bool) (r r' : Rand)
    (m : Melody) :
  GenerateMelody fuel pitches length duration g DMaximum note_duration
    alternate use_all r = Ok (m, r') ->
  Forall (fun b => b = true) (List.map is_note (List.tl m)).
Proof.
  intros H.
  apply GenerateMelody_inv in H
    as [[_ ->]|(slots & melody & chosen & r1 & Hc & Hr & _ & _ & ->)].
  - constructor.
  - rewrite map_tl_comm, is_note_assign, <- map_tl_comm.
    apply check_params_Ok in Hc as (_ & Hl & _).
    unfold rhythm in Hr. simpl in Hr.
    apply rhythm_spread_Ok in Hr as (_ & _ & Hr); [|lia].
    apply List.Forall_map, Hr. reflexivity.
Qed.

Lemma GenerateMelody_maximum_has_no_inner_rest_witness :
  Forall (fun b => b = true)
    (List.map is_note
       (List.tl
          (value_of (GenerateMelody 0 [pitch_C; pitch_D; pitch_E] 3
                       (NFloat 8) 0.5 DMaximum None false true)
             sample_draws []))).
Proof.
  apply (GenerateMelody_maximum_has_no_inner_rest 0 [pitch_C; pitch_D; pitch_E]
           3 (NFloat 8) 0.5 None false true sample_draws
           (state_after (GenerateMelody 0 [pitch_C; pitch_D; pitch_E] 3
                           (NFloat 8) 0.5 DMaximum None false true)
              sample_draws)).
  vm_compute; reflexivity.
Defined.

(** ** [SwapPitch] and [RemapPitch] on fewer than two notes *)

(** X6: on a melody with fewer than two notes [SwapPitch] and
    [RemapPitch] raise [ValueError] from the empty random range; the
    checks of the length that follow are not reached. *)
Theorem SwapPitch_RemapPitch_short_melody_raise (w : World) (m : loc)
    (evs : list Event) (amount_mode : AmountMode) (amount : option Z) :
  events_at (heap w) m = Some evs ->
  (mlength evs < 2)%nat ->
  SwapPitch m amount_mode amount w = Raise ValueError
  /\ RemapPitch m amount_mode amount w = Raise ValueError.
Proof.
  intros Hm Hlen.
  pose proof (deepcopy_run m w evs Hm) as Hcopy.
  pose proof (melody_length_laid_out (offs := stored_offsets (heap w) m)
                (heap w) [] evs (rand w)) as Hl.
  cbv zeta in Hl.
  split.
  - unfold SwapPitch.
    rewrite (bind_step _ _ _ _ _ Hcopy), (bind_step _ _ _ _ _ Hl).
    unfold bind. rewrite randint_empty; [reflexivity|].
    assert (Z.of_nat (mlength evs) / 2 = 0)%Z
      by (apply Z.div_small; lia). lia.
  - unfold RemapPitch.
    rewrite (bind_step _ _ _ _ _ Hcopy), (bind_step _ _ _ _ _ Hl).
    unfold bind. rewrite randint_empty by lia. reflexivity.
Qed.

Lemma SwapPitch_RemapPitch_short_melody_raise_witness :
  SwapPitch 1%nat AMaximum None one_note_world = Raise ValueError
  /\ RemapPitch 1%nat AMaximum None one_note_world = Raise ValueError.
Proof.
  apply (SwapPitch_RemapPitch_short_melody_raise one_note_world 1%nat
           [Note pitch_C 1] AMaximum None).
  - vm_compute; reflexivity.
  - vm_compute; lia.
Defined.

(** ** The pitch-changing operations keep the rhythm *)

Lemma keeps_ret {A} c rho (a : A) (post : A -> Prop) :
  post a -> keeps c rho (ret a) post.
Proof. intros Hp w a' w' Hr H. inv_ret H. auto. Qed.

Lemma keeps_raise {A} c rho e (post : A -> Prop) :
  keeps c rho (raise e) post.
Proof. intros w a w' _ H. discriminate. Qed.

Lemma keeps_bind {A B} c rho (p : M World A) (k : A -> M World B)
    (post : B -> Prop) :
  keeps c rho p (fun _ => True) -> (forall a, keeps c rho (k a) post) ->
  keeps c rho (bind p k) post.
Proof.
  intros Hp Hk w b w' Hr H. inv_bind H.
  destruct (Hp _ _ _ Hr Ha) as [Hr1 _].
  exact (Hk _ _ _ _ Hr1 H).
Qed.

Lemma keeps_liftR {A} c rho (p : M Rand A) :
  keeps c rho (liftR p) (fun _ => True).
Proof.
  intros w a w' Hr H. unfold liftR in H.
  destruct (p (rand w)) as [[a0 r']| |]; try discriminate.
  injection H as <- <-. auto.
Qed.

Lemma keeps_get {A} c rho (f : Heap -> option A) :
  keeps c rho (get f) (fun _ => True).
Proof.
  intros w a w' Hr H. unfold get in H.
  destruct (f (heap w)); [|discriminate]. injection H as <- <-. auto.
Qed.

Lemma rhythm_at_extend (h ext : Heap) (c : loc) rho :
  rhythm_at h c = Some rho -> rhythm_at (h ++ ext) c = Some rho.
Proof.
  unfold rhythm_at. destruct (events_at h c) as [evs|] eqn:E; [|discriminate].
  now rewrite (events_at_extend h ext c evs E).
Qed.

Lemma keeps_alloc c rho (o : obj) : keeps c rho (alloc o) (fun _ => True).
Proof.
  intros w a w' Hr H. unfold alloc in H. injection H as <- <-.
  split; [|exact I]. cbn [heap]. apply rhythm_at_extend, Hr.
Qed.

Lemma events_of_set_pitch (h : Heap) (l : loc) (p q : Pitch) (d : Q)
    (els : list loc) :
  h !! l = Some (ONote q d) ->
  option_map (List.map shape) (events_of (<[l := ONote p d]> h) els)
  = option_map (List.map shape) (events_of h els).
Proof.
  intros Hl. induction els as [|x t IH]; [reflexivity|].
  cbn [events_of].
  destruct (decide (l = x)) as [<-|Hne].
  - rewrite list_lookup_insert_eq by (eapply lookup_lt_Some, Hl).
    rewrite Hl. cbn [event_of].
    destruct (events_of (<[l:=ONote p d]> h) t) as [es|],
             (events_of h t) as [es'|]; simpl in *; try congruence.
    injection IH as IH. unfold shape at 1 3. simpl. congruence.
  - rewrite list_lookup_insert_ne by exact Hne. unfold loc in *.
    destruct (h !! x) as [o|]; [|reflexivity].
    destruct (event_of o) as [e|]; [|reflexivity].
    destruct (events_of (<[l:=ONote p d]> h) t) as [es|],
             (events_of h t) as [es'|]; simpl in *; congruence.
Qed.

Lemma keeps_set_pitch c rho (l : loc) (p : Pitch) :
  keeps c rho (set_pitch l p) (fun _ => True).
Proof.
  intros w a w' Hr H. unfold set_pitch in H.
  destruct (heap w !! l) as [[q d|d|els]|] eqn:El; try discriminate.
  injection H as <- <-. split; [|exact I]. cbn [heap].
  unfold rhythm_at, events_at, elements_at in *.
  destruct (decide (l = c)) as [->|Hne].
  - rewrite El in Hr. discriminate.
  - rewrite list_lookup_insert_ne by exact Hne. unfold loc in *.
    destruct (heap w !! c) as [[?|?|els]|]; try discriminate.
    pose proof (events_of_set_pitch (heap w) l p q d els El) as E.
    unfold loc in *. rewrite E. exact Hr.
Qed.

Lemma keeps_for_each {A} c rho (l : list A) (f : A -> M World unit) :
  (forall x, keeps c rho (f x) (fun _ => True)) ->
  keeps c rho (for_each l f) (fun _ => True).
Proof.
  intros Hf. induction l as [|x t IH]; simpl.
  - apply keeps_ret. exact I.
  - apply keeps_bind; [apply Hf | intros _; exact IH].
Qed.

Lemma keeps_traverse {A B} c rho (f : A -> M World B) (l : list A) :
  (forall x, keeps c rho (f x) (fun _ => True)) ->
  keeps c rho (traverse f l) (fun _ => True).
Proof.
  intros Hf. induction l as [|x t IH]; simpl.
  - apply keeps_ret. exact I.
  - apply keeps_bind; [apply Hf|]. intros y.
    apply keeps_bind; [exact IH|]. intros ys. apply keeps_ret. exact I.
Qed.

Lemma keeps_item {A} c rho (l : list A) (i : nat) :
  keeps c rho (item l i) (fun _ => True).
Proof.
  unfold item. destruct (l !! i); [apply keeps_ret; exact I | apply keeps_raise].
Qed.

Lemma keeps_dict_item c rho (mapping : list (Pitch * Pitch)) (key : Pitch) :
  keeps c rho (dict_item mapping key) (fun _ => True).
Proof.
  induction mapping as [|[k v] t IH]; simpl.
  - apply keeps_raise.
  - destruct (pitch_eqb k key); [apply keeps_ret; exact I | exact IH].
Qed.

Lemma keeps_pairs_of c rho (l : list loc) :
  keeps c rho (pairs_of l) (fun _ => True)
  /\ forall x, keeps c rho (pairs_of (x :: l)) (fun _ => True).
Proof.
  induction l as [|y t [IH1 IH2]].
  - split; [apply keeps_ret; exact I | intros x; apply keeps_raise].
  - split; [apply IH2|]. intros x.
    change (pairs_of (x :: y :: t))
      with (do rest <- @pairs_of World loc t; ret ((x, y) :: rest)).
    apply keeps_bind; [exact IH1|]. intros rest. apply keeps_ret. exact I.
Qed.

Ltac keeps_step :=
  cbv beta zeta;
  match goal with
  | |- keeps _ _ (ret _) _ => apply keeps_ret; first [exact I | reflexivity]
  | |- keeps _ _ (raise _) _ => apply keeps_raise
  | |- keeps _ _ (bind _ _) _ => apply keeps_bind; [|intros ?]
  | |- keeps _ _ (liftR _) _ => apply keeps_liftR
  | |- keeps _ _ (get _) _ => apply keeps_get
  | |- keeps _ _ (alloc _) _ => apply keeps_alloc
  | |- keeps _ _ (set_pitch _ _) _ => apply keeps_set_pitch
  | |- keeps _ _ (for_each _ _) _ => apply keeps_for_each; intros ?
  | |- keeps _ _ (traverse _ _) _ => apply keeps_traverse; intros ?
  | |- keeps _ _ (item _ _) _ => apply keeps_item
  | |- keeps _ _ (dict_item _ _) _ => apply keeps_dict_item
  | |- keeps _ _ (pairs_of ?l) _ => apply (proj1 (keeps_pairs_of _ _ l))
  | |- keeps _ _ (deepcopy_notes _) _ => unfold deepcopy_notes
  | |- keeps _ _ (melody_length _) _ => unfold melody_length
  | |- keeps _ _ (melody_notes _) _ => unfold melody_notes
  | |- keeps _ _ (copy_pitches _) _ => unfold copy_pitches
  | |- keeps _ _ (if ?b then _ else _) _ => destruct b
  | |- keeps _ _ (match ?x with _ => _ end) _ => destruct x
  end.

Lemma keeps_apply {A} c rho (prog : M World A) (post : A -> Prop) w a w' :
  keeps c rho prog post ->
  rhythm_at (heap w) c = Some rho -> prog w = Ok (a, w') ->
  rhythm_at (heap w') c = Some rho /\ post a.
Proof. intros Hk Hr H. exact (Hk w a w' Hr H). Qed.

(** X7: [ChangePitch], [SwapPitch], [ShiftPitch], [ShufflePitch],
    [RemapPitch] and [RevertPitch] change pitches only: the melody they
    return has a note where the input has a note and a rest where it has a
    rest, each with the duration it has in the input. *)
Theorem pitch_operations_keep_rhythm (op : Operation) (m result : loc)
    (w w' : World) (evs : list Event) :
  pitch_input op = Some m ->
  call op w = Ok (result, w') ->
  events_at (heap w) m = Some evs ->
  exists evs',
    events_at (heap w') result = Some evs'
    /\ List.map shape evs' = List.map shape evs.
Proof.
  intros Hop H Hm.
  assert (Hr : rhythm_at (heap w') result = Some (List.map shape evs)).
  { pose proof (deepcopy_run m w evs Hm) as Hcopy.
    set (c := (List.length (heap w) + List.length evs)%nat) in *.
    assert (Hc : forall tailw,
      tailw = mkWorld (heap w ++ List.map obj_of evs
                       ++ [OStream (seq (List.length (heap w))
                                      (List.length evs))
                             (stored_offsets (heap w) m)]) (rand w) ->
      rhythm_at (heap tailw) c = Some (List.map shape evs)).
    { intros tailw ->. unfold rhythm_at. cbn [heap]. subst c.
      now rewrite events_at_laid_out. }
    destruct op; try discriminate; injection Hop as ->; cbn [call] in H;
      inv_bind H; rewrite Hcopy in Ha; injection Ha as <- <-;
      (eapply (keeps_apply c _ _ (fun res => res = c)) in H;
       [destruct H as [H ->]; exact H | | apply Hc; reflexivity]);
      repeat keeps_step.
  }
  unfold rhythm_at in Hr.
  destruct (events_at (heap w') result) as [evs'|]; [|discriminate].
  injection Hr as Hr. eauto.
Qed.

Lemma pitch_operations_keep_rhythm_witness :
  exists evs',
    events_at
      (heap (state_after (call (CallSwapPitch sample_melody AMinimum None))
               sample_world))
      (value_of (call (CallSwapPitch sample_melody AMinimum None))
         sample_world 0%nat) = Some evs'
    /\ List.map shape evs'
       = List.map shape [Note pitch_C 1; Rest 1; Note pitch_D 2; Note pitch_E 1].
Proof.
  apply (pitch_operations_keep_rhythm
           (CallSwapPitch sample_melody AMinimum None) sample_melody _
           sample_world);
    vm_compute; reflexivity.
Defined.

(** ** [ShiftPitch] rotates the pitches *)

Lemma Forall2_rotate {A B} (P : A -> B -> Prop) (a : Z) (l : list A)
    (k : list B) :
  Forall2 P l k -> Forall2 P (rotate a l) (rotate a k).
Proof.
  intros H. unfold rotate, slice_from, slice_to.
  rewrite <- (Forall2_length _ _ _ H).
  apply Forall2_app; [apply Forall2_drop | apply Forall2_take]; exact H.
Qed.

Lemma liftR_randint_Ok (lo hi x : Z) (w w' : World) :
  liftR (randint lo hi) w = Ok (x, w') ->
  (lo <= x <= hi)%Z /\ exists r', w' = mkWorld (heap w) r'.
Proof.
  unfold liftR, randint. destruct (Z.ltb_spec hi lo); [discriminate|].
  unfold bind, draw, ret. intros E. injection E as <- <-.
  split; [|eauto].
  pose proof (Z.mod_pos_bound (Z.of_nat (rand w 0%nat)) (hi - lo + 1)). lia.
Qed.

(** X8: on a melody with at least two notes [ShiftPitch] deals the
    pitches out again rotated to the left by the amount (1 in [Minimum]
    mode, length - 1 in [Maximum] mode, a drawn value between them in
    [Random] mode, the given value in [Fixed] mode); the durations and the
    rests stay where they are. *)
Theorem ShiftPitch_rotates (w w' : World) (m result : loc)
    (evs : list Event) (amount_mode : AmountMode) (amount : option Z) :
  events_at (heap w) m = Some evs ->
  ShiftPitch m amount_mode amount w = Ok (result, w') ->
  (2 <= mlength evs)%nat ->
  exists a : Z,
    match amount_mode with
    | AMinimum => a = 1%Z
    | AMaximum => a = (Z.of_nat (mlength evs) - 1)%Z
    | ARandom => (1 <= a <= Z.of_nat (mlength evs) - 1)%Z
    | AFixed => amount = Some a
    end
    /\ events_at (heap w') result
       = Some (assign_pitches (rotate a (pitches_of evs)) evs).
Proof.
  intros Hm H Hlen. unfold ShiftPitch in H.
  pose proof (melody_length_laid_out (offs := stored_offsets (heap w) m)
                (heap w) [] evs (rand w)) as Hl.
  cbv zeta in Hl.
  rewrite (bind_step _ _ _ _ _ (deepcopy_run m w evs Hm)) in H.
  rewrite (bind_step _ _ _ _ _ Hl) in H.
  inv_bind H. apply liftR_randint_Ok in Ha as [Hrange [r1 ->]]. cbn [heap] in H.
  destruct (Z.ltb_spec (Z.of_nat (mlength evs)) 2); [lia|].
  destruct (amount_unset _) eqn:Eset in H; [discriminate|].
  set (h := heap w) in *.
  set (els := seq (List.length h) (List.length evs)) in *.
  set (offs := stored_offsets h m) in *.
  assert (En : melody_notes (List.length h + List.length evs)%nat
                 (mkWorld (h ++ List.map obj_of evs ++ [OStream els offs]) r1)
               = Ok (note_positions (List.length h) evs,
                     mkWorld (h ++ List.map obj_of evs ++ [OStream els offs]) r1)).
  { unfold melody_notes, get. cbn [heap]. subst els.
    rewrite notes_at_laid_out. reflexivity. }
  rewrite (bind_step _ _ _ _ _ En) in H.
  pose proof (deepcopy_notes_run (note_positions (List.length h) evs)
                (mkWorld (h ++ List.map obj_of evs ++ [OStream els offs]) r1)
                (List.map obj_of (notes evs))
                (notes_laid_out evs h [OStream els offs])) as Ec.
  rewrite (bind_step _ _ _ _ _ Ec) in H. cbn [heap rand] in H.
  rewrite length_note_positions in H.
  destruct (amount_for amount_mode amount 1 (Z.of_nat (mlength evs) - 1) a)
    as [a0|] eqn:Eam; [|discriminate].
  rewrite (bind_step _ _ _ _ _ (eq_refl : ret _ _ = Ok (_, _))) in H.
  assert (Hsrc : Forall2 (fun s q => exists k,
             s = (List.length h + List.length evs + k)%nat
             /\ pitch_at (OStream els offs :: List.map obj_of (notes evs)) k
                = Some q)
           (rotate a0
              (seq (List.length (h ++ List.map obj_of evs ++ [OStream els offs]))
                 (mlength evs)))
           (rotate a0 (pitches_of evs))).
  { apply Forall2_rotate.
    pose proof (copies_laid_out (List.length h + List.length evs) evs
                  [OStream els offs]) as Hc.
    simpl List.length in Hc.
    replace (List.length (h ++ List.map obj_of evs ++ [OStream els offs]))
      with (List.length h + List.length evs + 1)%nat
      by (rewrite !List.length_app, List.length_map; simpl; lia).
    exact Hc. }
  pose proof (copy_pitches_run evs h
                (OStream els offs :: List.map obj_of (notes evs)) _ _ r1 Hsrc)
    as Ep.
  replace ((h ++ List.map obj_of evs ++ [OStream els offs])
           ++ List.map obj_of (notes evs))
    with (h ++ List.map obj_of evs
          ++ OStream els offs :: List.map obj_of (notes evs)) in H
    by (now rewrite <- !app_assoc).
  unfold rotate in Ep. rewrite (bind_step _ _ _ _ _ Ep) in H.
  inv_ret H. exists a0. split.
  - destruct amount_mode; simpl in Eam; try (injection Eam as <-); auto.
  - cbn [heap]. subst els.
    rewrite <- (length_assign_pitches (rotate a0 (pitches_of evs)) evs).
    apply events_at_laid_out.
Qed.

Lemma ShiftPitch_rotates_witness :
  exists a : Z,
    a = 1%Z
    /\ events_at
         (heap (state_after (ShiftPitch sample_melody AMinimum None)
                  sample_world))
         (value_of (ShiftPitch sample_melody AMinimum None) sample_world 0%nat)
       = Some (assign_pitches
                 (rotate a (pitches_of [Note pitch_C 1; Rest 1; Note pitch_D 2;
                                        Note pitch_E 1]))
                 [Note pitch_C 1; Rest 1; Note pitch_D 2; Note pitch_E 1]).
Proof.
  apply (ShiftPitch_rotates sample_world
           (state_after (ShiftPitch sample_melody AMinimum None) sample_world)
           sample_melody
           (value_of (ShiftPitch sample_melody AMinimum None) sample_world 0%nat)
           [Note pitch_C 1; Rest 1; Note pitch_D 2; Note pitch_E 1]
           AMinimum None).
  - vm_compute; reflexivity.
  - vm_compute; reflexivity.
  - vm_compute; lia.
Defined.

(** ** [RevertPitch] reverses the pitches *)

Lemma shape_assign ps m :
  List.map shape (assign_pitches ps m) = List.map shape m.
Proof.
  revert ps; induction m as [|[p d|d] t IH]; intros ps; simpl.
  - reflexivity.
  - destruct ps; simpl; [reflexivity | f_equal; apply IH].
  - f_equal; apply IH.
Qed.

Lemma rev_short {A} (l : list A) : (List.length l < 2)%nat -> rev l = l.
Proof. destruct l as [|x [|y t]]; simpl; intros; [reflexivity..|lia]. Qed.

(** X9: [RevertPitch] always returns; the melody it returns carries the
    pitches of the input in reverse order, on the same sequence of notes
    and rests with the same durations, and no random number is drawn. *)
Theorem RevertPitch_reverses (w : World) (m : loc) (evs : list Event) :
  events_at (heap w) m = Some evs ->
  exists result w' evs',
    RevertPitch m w = Ok (result, w')
    /\ events_at (heap w') result = Some evs'
    /\ pitches_of evs' = rev (pitches_of evs)
    /\ List.map shape evs' = List.map shape evs
    /\ rand w' = rand w.
Proof.
  intros Hm. destruct (RevertPitch_run w m evs Hm) as (w' & E & Hv & Hr).
  exists (List.length (heap w) + List.length evs)%nat, w', (revert_events evs).
  repeat split; auto; unfold revert_events.
  - destruct (Z.ltb_spec (Z.of_nat (mlength evs)) 2).
    + symmetry. apply rev_short. rewrite length_pitches_of. lia.
    + apply pitches_of_assign. rewrite List.length_rev. apply length_pitches_of.
  - destruct (_ <? _)%Z; [reflexivity | apply shape_assign].
Qed.

Lemma RevertPitch_reverses_witness :
  exists result w' evs',
    RevertPitch sample_melody sample_world = Ok (result, w')
    /\ events_at (heap w') result = Some evs'
    /\ pitches_of evs'
       = rev (pitches_of [Note pitch_C 1; Rest 1; Note pitch_D 2; Note pitch_E 1])
    /\ List.map shape evs'
       = List.map shape [Note pitch_C 1; Rest 1; Note pitch_D 2; Note pitch_E 1]
    /\ rand w' = rand sample_world.
Proof.
  apply (RevertPitch_reverses sample_world sample_melody).
  vm_compute; reflexivity.
Defined.

(** ** [Melody.crop_length] *)

Lemma events_of_In (h : Heap) (els : list loc) (evs : list Event) (l : loc) :
  events_of h els = Some evs -> In l els ->
  exists e, h !! l = Some (obj_of e).
Proof.
  revert evs; induction els as [|x t IH]; intros evs H Hin; [destruct Hin|].
  cbn [events_of] in H.
  destruct (h !! x) as [o|] eqn:E; [|discriminate].
  destruct (event_of o) as [e|] eqn:Ee; [|discriminate].
  destruct (events_of h t) as [es|]; [|discriminate].
  destruct Hin as [<-|Hin]; [|eapply IH; eauto].
  exists e. rewrite E. f_equal. destruct o; simpl in Ee; try discriminate;
    injection Ee as <-; reflexivity.
Qed.

Lemma events_of_insert_stream {offs : list Q} (h : Heap) (c : loc)
    (new : list loc) (els : list loc) :
  ~ In c els ->
  events_of (<[c := OStream new offs]> h) els = events_of h els.
Proof.
  induction els as [|x t IH]; intros Hc; [reflexivity|].
  cbn [events_of]. simpl in Hc.
  rewrite list_lookup_insert_ne by (intros ->; apply Hc; now left).
  rewrite IH by tauto. reflexivity.
Qed.

Lemma stream_not_element {offs : list Q} (h : Heap) (c : loc)
    (s els : list loc) (evs : list Event) :
  h !! c = Some (OStream s offs) -> events_of h els = Some evs -> ~ In c els.
Proof.
  intros Hc He Hin.
  destruct (events_of_In h els evs c He Hin) as [e E].
  rewrite Hc in E. destruct e; discriminate.
Qed.

Lemma get_run {A} (f : Heap -> option A) (w : World) (a : A) :
  f (heap w) = Some a -> get f w = Ok (a, w).
Proof. intros H. unfold get. now rewrite H. Qed.

Lemma set_elements_run (w : World) (c : loc) (els0 els : list loc)
    (offs0 offs : list Q) :
  heap w !! c = Some (OStream els0 offs0) ->
  set_elements c els offs w
  = Ok (tt, mkWorld (<[c := OStream els offs]> (heap w)) (rand w)).
Proof. intros H. unfold set_elements. unfold loc in *. now rewrite H. Qed.

(** [stream.append(objects)] on a stream whose elements are [evs]: the
    new objects follow from the end of the stream. *)
Lemma stream_append_run (w : World) (c : loc) (els objects : list loc)
    (offs : list Q) (evs new : list Event) :
  heap w !! c = Some (OStream els offs) ->
  events_of (heap w) els = Some evs ->
  events_of (heap w) objects = Some new ->
  stream_append c objects w
  = Ok (tt, mkWorld
              (<[c := OStream (els ++ objects)
                        (offs ++ append_offsets
                                   (highest_time (combine offs evs)) new)]>
                 (heap w)) (rand w)).
Proof.
  intros Hc He Hn. unfold stream_append.
  assert (E1 : elements_at (heap w) c = Some els)
    by (unfold elements_at; unfold loc in *; now rewrite Hc).
  assert (E2 : offsets_at (heap w) c = Some offs)
    by (unfold offsets_at; unfold loc in *; now rewrite Hc).
  assert (E3 : stream_at (heap w) c = Some (combine offs evs))
    by (unfold stream_at, events_at; now rewrite E1, E2, He).
  rewrite (bind_step _ _ _ _ _ (get_run _ w _ E1)).
  rewrite (bind_step _ _ _ _ _ (get_run _ w _ E2)).
  assert (E4 : stream_duration c w
               = Ok (highest_time (combine offs evs), w)).
  { unfold stream_duration.
    rewrite (bind_step _ _ _ _ _ (get_run _ w _ E3)). reflexivity. }
  rewrite (bind_step _ _ _ _ _ E4).
  rewrite (bind_step _ _ _ _ _ (get_run _ w _ Hn)).
  apply (set_elements_run w c els _ offs _ Hc).
Qed.

Lemma crop_walk_events (h : Heap) (els : list loc) :
  forall (wanted : nat) (evs : list Event),
  events_of h els = Some evs ->
  exists kept,
    crop_walk h wanted els = Some kept
    /\ events_of h kept = Some (crop_events wanted evs)
    /\ incl kept els.
Proof.
  induction els as [|l t IH]; intros wanted evs H.
  - simpl in H. injection H as <-. exists []. repeat split. apply incl_refl.
  - cbn [events_of] in H.
    destruct (h !! l) as [o|] eqn:E; [|discriminate].
    destruct (event_of o) as [e|] eqn:Ee; [|discriminate].
    destruct (events_of h t) as [es|] eqn:Et; [|discriminate].
    injection H as <-.
    destruct o as [p d|d|s]; simpl in Ee; try discriminate; injection Ee as <-.
    + cbn [crop_walk crop_events]. rewrite E.
      destruct wanted as [|[|n]].
      * destruct (IH (Nat.pred 0) es eq_refl) as (kept & Hk & He & Hi).
        rewrite Hk. exists (l :: kept). repeat split.
        -- cbn [events_of]. rewrite E, He. reflexivity.
        -- apply incl_cons; [now left | apply incl_tl, Hi].
      * exists [l]. repeat split.
        -- cbn [events_of]. rewrite E. reflexivity.
        -- apply incl_cons; [now left | apply incl_nil_l].
      * destruct (IH (Nat.pred (S (S n))) es eq_refl) as (kept & Hk & He & Hi).
        rewrite Hk. exists (l :: kept). repeat split.
        -- cbn [events_of]. rewrite E, He. reflexivity.
        -- apply incl_cons; [now left | apply incl_tl, Hi].
    + cbn [crop_walk crop_events]. rewrite E.
      destruct (IH wanted es eq_refl) as (kept & Hk & He & Hi).
      rewrite Hk. exists (l :: kept). repeat split.
      * cbn [events_of]. rewrite E, He. reflexivity.
      * apply incl_cons; [now left | apply incl_tl, Hi].
Qed.

Lemma crop_events_prefix (evs : list Event) :
  forall wanted, exists dropped, evs = crop_events wanted evs ++ dropped.
Proof.
  induction evs as [|[p d|d] t IH]; intros wanted.
  - exists []. reflexivity.
  - cbn [crop_events]. destruct wanted as [|[|n]].
    + destruct (IH (Nat.pred 0)) as [x Hx]. exists x.
      rewrite <- app_comm_cons. f_equal. exact Hx.
    + exists t. reflexivity.
    + destruct (IH (Nat.pred (S (S n)))) as [x Hx]. exists x.
      rewrite <- app_comm_cons. f_equal. exact Hx.
  - cbn [crop_events]. destruct (IH wanted) as [x Hx]. exists x.
    rewrite <- app_comm_cons. f_equal. exact Hx.
Qed.

Lemma mlength_crop_events (evs : list Event) :
  forall wanted, (0 < wanted)%nat ->
  mlength (crop_events wanted evs) = Nat.min wanted (mlength evs).
Proof.
  induction evs as [|[p d|d] t IH]; intros wanted Hw.
  - simpl. unfold mlength. simpl. lia.
  - cbn [crop_events]. destruct wanted as [|[|n]]; [lia| |].
    + rewrite !mlength_cons_note. unfold mlength at 1. simpl. lia.
    + rewrite !mlength_cons_note, IH by (simpl; lia). simpl. lia.
  - cbn [crop_events]. rewrite !mlength_cons_rest. apply IH, Hw.
Qed.

Lemma crop_length_run (w : World) (c : loc) (limit : Z) (evs : list Event) :
  events_at (heap w) c = Some evs ->
  exists w',
    crop_length c limit w = Ok (tt, w')
    /\ events_at (heap w') c
       = Some (if (limit <=? 0)%Z then []
               else crop_events (Z.to_nat limit) evs)
    /\ rand w' = rand w.
Proof.
  intros Hm. unfold events_at, elements_at in Hm.
  destruct (heap w !! c) as [[?|?|els offs]|] eqn:Ec; try discriminate.
  assert (Hlt : (c < List.length (heap w))%nat) by (eapply lookup_lt_Some, Ec).
  unfold crop_length, stream_clear. destruct (limit <=? 0)%Z.
  - rewrite (set_elements_run w c els [] offs [] Ec).
    eexists. split; [reflexivity|].
    split; [|reflexivity]. cbn [heap]. unfold events_at, elements_at.
    rewrite list_lookup_insert_eq by exact Hlt. reflexivity.
  - destruct (crop_walk_events (heap w) els (Z.to_nat limit) evs Hm)
      as (kept & Hk & He & Hi).
    assert (Hnot : ~ In c kept).
    { intros Hin. apply Hi in Hin.
      exact (stream_not_element (heap w) c els els evs Ec Hm Hin). }
    unfold bind at 1. unfold get at 1. unfold elements_at at 1. rewrite Ec.
    unfold bind at 1. unfold get at 1. rewrite Hk.
    rewrite (bind_step _ _ _ _ _ (set_elements_run w c els [] offs [] Ec)).
    rewrite (stream_append_run _ c [] kept [] []
               (crop_events (Z.to_nat limit) evs)).
    + eexists. split; [reflexivity|].
      split; [|reflexivity]. cbn [heap]. unfold events_at, elements_at.
      rewrite list_lookup_insert_eq by (rewrite length_insert; exact Hlt).
      rewrite !events_of_insert_stream by exact Hnot. exact He.
    + cbn [heap]. apply list_lookup_insert_eq. exact Hlt.
    + reflexivity.
    + cbn [heap]. rewrite events_of_insert_stream by exact Hnot. exact He.
Qed.

(** X10: [crop_length] always returns.  With a limit of zero or less the
    melody becomes empty.  With a positive limit the melody keeps a
    leading part of its events, in order, holding min(limit, length)
    notes. *)
Theorem crop_length_keeps_leading_notes (w : World) (c : loc) (limit : Z)
    (evs : list Event) :
  events_at (heap w) c = Some evs ->
  exists w' kept,
    crop_length c limit w = Ok (tt, w')
    /\ events_at (heap w') c = Some kept
    /\ ((limit <= 0)%Z -> kept = [])
    /\ ((0 < limit)%Z ->
        (exists dropped, evs = kept ++ dropped)
        /\ Z.of_nat (mlength kept) = Z.min limit (Z.of_nat (mlength evs))).
Proof.
  intros Hm. destruct (crop_length_run w c limit evs Hm) as (w' & E & Hv & _).
  eexists w', _. split; [exact E|]. split; [exact Hv|].
  destruct (Z.leb_spec limit 0).
  - split; [reflexivity | lia].
  - split; [lia|]. intros _. split; [apply crop_events_prefix|].
    rewrite mlength_crop_events by lia. lia.
Qed.

Lemma crop_length_keeps_leading_notes_witness :
  exists w' kept,
    crop_length sample_melody 2 sample_world = Ok (tt, w')
    /\ events_at (heap w') sample_melody = Some kept
    /\ ((2 <= 0)%Z -> kept = [])
    /\ ((0 < 2)%Z ->
        (exists dropped,
           [Note pitch_C 1; Rest 1; Note pitch_D 2; Note pitch_E 1]
           = kept ++ dropped)
        /\ Z.of_nat (mlength kept)
           = Z.min 2 (Z.of_nat (mlength [Note pitch_C 1; Rest 1;
                                          Note pitch_D 2; Note pitch_E 1]))).
Proof.
  apply (crop_length_keeps_leading_notes sample_world sample_melody 2).
  vm_compute; reflexivity.
Defined.

(** ** [Melody.__add__] and [ConcatMelodies] *)

Lemma events_of_app (h : Heap) (a b : list loc) (x y : list Event) :
  events_of h a = Some x -> events_of h b = Some y ->
  events_of h (a ++ b) = Some (x ++ y).
Proof.
  revert x; induction a as [|l t IH]; intros x Ha Hb.
  - simpl in Ha. injection Ha as <-. exact Hb.
  - cbn [events_of app] in *.
    destruct (h !! l) as [o|]; [|discriminate].
    destruct (event_of o) as [e|]; [|discriminate].
    destruct (events_of h t) as [es|]; [|discriminate].
    injection Ha as <-. rewrite (IH es eq_refl Hb). reflexivity.
Qed.

Lemma elements_at_extend (h ext : Heap) (m : loc) (els : list loc) :
  elements_at h m = Some els -> elements_at (h ++ ext) m = Some els.
Proof.
  unfold elements_at. destruct (h !! m) as [o|] eqn:E; [|discriminate].
  now rewrite (lookup_app_l_Some _ _ _ _ E).
Qed.

Lemma melody_add_run (w : World) (self other : loc) (evs1 evs2 : list Event) :
  events_at (heap w) self = Some evs1 ->
  events_at (heap w) other = Some evs2 ->
  exists result w',
    melody_add self other w = Ok (result, w')
    /\ events_at (heap w') result = Some (evs1 ++ evs2)
    /\ rand w' = rand w
    /\ exists ext, heap w' = heap w ++ ext.
Proof.
  intros H1 H2. unfold melody_add.
  set (h := heap w) in *.
  set (s2 := OStream (seq (List.length h) (List.length evs2))
               (stored_offsets h other)).
  set (h1 := h ++ List.map obj_of evs2 ++ [s2]).
  set (offs := stored_offsets h1 self).
  set (s1 := OStream (seq (List.length h1) (List.length evs1)) offs).
  set (h2 := h1 ++ List.map obj_of evs1 ++ [s1]).
  set (co := (List.length h + List.length evs2)%nat).
  set (cs := (List.length h1 + List.length evs1)%nat).
  rewrite (bind_step _ _ _ _ _ (deepcopy_run other w evs2 H2)).
  assert (H1' : events_at (heap (mkWorld h1 (rand w))) self = Some evs1)
    by (cbn [heap]; apply events_at_extend, H1).
  rewrite (bind_step _ _ _ _ _ (deepcopy_run self _ evs1 H1')).
  cbn [heap rand]. fold h1 offs s1 h2 co cs.
  assert (Eo : elements_at h2 co = Some (seq (List.length h) (List.length evs2))).
  { apply elements_at_extend. subst h1 co s2.
    rewrite <- (List.length_map obj_of evs2). apply stream_laid_out. }
  assert (Ecs : h2 !! cs = Some s1).
  { subst h2 cs. rewrite <- (List.length_map obj_of evs1), app_assoc.
    rewrite <- List.length_app. apply lookup_middle. }
  rewrite (bind_step _ _ _ _ _ (get_run _ (mkWorld h2 (rand w)) _ Eo)).
  assert (Ev1 : events_of h2 (seq (List.length h1) (List.length evs1))
                = Some evs1).
  { subst h2. apply events_of_laid_out. }
  assert (Ev2 : events_of h2 (seq (List.length h) (List.length evs2))
                = Some evs2).
  { subst h2. apply events_of_extend. subst h1. apply events_of_laid_out. }
  rewrite (bind_step _ _ _ _ _
             (stream_append_run (mkWorld h2 (rand w)) cs _ _ offs evs1 evs2
                Ecs Ev1 Ev2)).
  unfold ret. eexists _, _. split; [reflexivity|]. cbn [heap rand].
  assert (Hlt : (cs < List.length h2)%nat) by (eapply lookup_lt_Some, Ecs).
  assert (Ev : events_of h2 (seq (List.length h1) (List.length evs1)
                             ++ seq (List.length h) (List.length evs2))
               = Some (evs1 ++ evs2)).
  { apply events_of_app; assumption. }
  repeat split.
  - unfold events_at, elements_at.
    rewrite list_lookup_insert_eq by exact Hlt.
    rewrite events_of_insert_stream; [exact Ev|].
    eapply stream_not_element; [exact Ecs | exact Ev].
  - eexists (<[(cs - List.length h)%nat := _]>
               ((List.map obj_of evs2 ++ [s2])
                ++ List.map obj_of evs1 ++ [s1])).
    rewrite <- insert_app_r_alt.
    + f_equal. subst h2 h1. now rewrite <- !app_assoc.
    + subst cs h1. rewrite List.length_app. lia.
Qed.

(** X11: [a + b] on melodies always returns a new melody whose events are
    those of [a] followed by those of [b]; both operands keep their events,
    and no random number is drawn. *)
Theorem melody_add_concatenates (w : World) (self other : loc)
    (evs1 evs2 : list Event) :
  events_at (heap w) self = Some evs1 ->
  events_at (heap w) other = Some evs2 ->
  exists result w',
    melody_add self other w = Ok (result, w')
    /\ events_at (heap w') result = Some (evs1 ++ evs2)
    /\ events_at (heap w') self = Some evs1
    /\ events_at (heap w') other = Some evs2
    /\ result <> self /\ result <> other
    /\ rand w' = rand w.
Proof.
  intros H1 H2.
  destruct (melody_add_run w self other evs1 evs2 H1 H2)
    as (result & w' & E & Hv & Hr & ext & Hext).
  exists result, w'. split; [exact E|]. split; [exact Hv|].
  assert (Hfresh : fresh (heap w) result).
  { exact (proj2 (safe_melody_add (heap w) self other w result w'
                    (inv_start w) E)). }
  assert (Hold : forall l evs, events_at (heap w) l = Some evs ->
                               (l < List.length (heap w))%nat).
  { intros l evs Hl. unfold events_at, elements_at in Hl.
    destruct (heap w !! l) eqn:El; [|discriminate].
    eapply lookup_lt_Some, El. }
  pose proof (Hold _ _ H1). pose proof (Hold _ _ H2). unfold fresh in Hfresh.
  rewrite Hext. repeat split; try (apply events_at_extend; assumption);
    try exact Hr; lia.
Qed.

Lemma melody_add_concatenates_witness :
  exists result w',
    melody_add sample_melody sample_melody sample_world = Ok (result, w')
    /\ events_at (heap w') result
       = Some ([Note pitch_C 1; Rest 1; Note pitch_D 2; Note pitch_E 1]
               ++ [Note pitch_C 1; Rest 1; Note pitch_D 2; Note pitch_E 1])
    /\ events_at (heap w') sample_melody
       = Some [Note pitch_C 1; Rest 1; Note pitch_D 2; Note pitch_E 1]
    /\ events_at (heap w') sample_melody
       = Some [Note pitch_C 1; Rest 1; Note pitch_D 2; Note pitch_E 1]
    /\ result <> sample_melody /\ result <> sample_melody
    /\ rand w' = rand sample_world.
Proof.
  apply (melody_add_concatenates sample_world sample_melody sample_melody);
    vm_compute; reflexivity.
Defined.


Lemma events_of_nil_iff (h : Heap) (els : list loc) (evs : list Event) :
  events_of h els = Some evs ->
  match els with [] => false | _ => true end
  = match evs with [] => false | _ => true end.
Proof.
  destruct els as [|l t]; cbn [events_of]; intros H.
  - now injection H as <-.
  - destruct (h !! l) as [o|]; [|discriminate].
    destruct (event_of o); [|discriminate].
    destruct (events_of h t); [|discriminate].
    now injection H as <-.
Qed.

Lemma melody_truthy_run (w : World) (m : loc) (evs : list Event) :
  events_at (heap w) m = Some evs ->
  melody_truthy m w = Ok (match evs with [] => false | _ => true end, w).
Proof.
  unfold events_at, melody_truthy, bind, get. intros H.
  destruct (elements_at (heap w) m) as [els|]; [|discriminate].
  unfold ret. now rewrite (events_of_nil_iff _ _ _ H).
Qed.

Lemma given_melodies_run (w : World) (ms : list (option loc))
    (es : list (list Event)) :
  Forall2 (fun m e => events_or_none (heap w) m = Some e) ms es ->
  exists kept kes,
    given_melodies ms w = Ok (kept, w)
    /\ Forall2 (fun l e => events_at (heap w) l = Some e) kept kes
    /\ Forall (fun e => e <> []) kes
    /\ concat kes = concat es.
Proof.
  induction 1 as [|m e ms es Hm _ IH].
  - exists [], []. repeat split; constructor.
  - destruct IH as (kept & kes & E & Hk & Hne & Hc).
    destruct m as [l|]; cbn [given_melodies events_or_none] in *.
    + rewrite (bind_step _ _ _ _ _ (melody_truthy_run w l e Hm)).
      rewrite (bind_step _ _ _ _ _ E). unfold ret.
      destruct e as [|x e'].
      * exists kept, kes. repeat split; assumption.
      * exists (l :: kept), ((x :: e') :: kes). repeat split.
        -- now constructor.
        -- constructor; [discriminate | assumption].
        -- cbn [concat]. now rewrite Hc.
    + injection Hm as <-. exists kept, kes. repeat split; assumption.
Qed.

Lemma reduce_add_run (others : list loc) :
  forall (w : World) (x : loc) (ex : list Event) (kes : list (list Event)),
    events_at (heap w) x = Some ex ->
    Forall2 (fun l e => events_at (heap w) l = Some e) others kes ->
    exists result w',
      reduce_add x others w = Ok (result, w')
      /\ events_at (heap w') result = Some (ex ++ concat kes)
      /\ rand w' = rand w
      /\ exists ext, heap w' = heap w ++ ext.
Proof.
  induction others as [|y t IH]; intros w x ex kes Hx Hall.
  - inversion Hall; subst. exists x, w. cbn [reduce_add concat]. unfold ret.
    rewrite !app_nil_r. repeat split; try assumption.
    exists []. now rewrite app_nil_r.
  - inversion Hall as [|? ey ? kes' Hy Ht]; subst. cbn [reduce_add concat].
    destruct (melody_add_run w x y ex ey Hx Hy)
      as (z & w1 & E & Hz & Hr & ext & Hext).
    rewrite (bind_step _ _ _ _ _ E).
    assert (Ht' : Forall2 (fun l e => events_at (heap w1) l = Some e) t kes').
    { eapply Forall2_impl; [exact Ht|]. intros l e Hl. rewrite Hext.
      now apply events_at_extend. }
    destruct (IH w1 z (ex ++ ey) kes' Hz Ht')
      as (result & w' & E' & Hv & Hr' & ext' & Hext').
    exists result, w'. rewrite <- app_assoc in Hv. repeat split.
    + exact E'.
    + exact Hv.
    + congruence.
    + exists (ext ++ ext'). now rewrite Hext', Hext, app_assoc.
Qed.

Lemma ConcatMelodies_run (w : World) (m1 m2 m3 m4 : option loc)
    (e1 e2 e3 e4 : list Event) :
  events_or_none (heap w) m1 = Some e1 ->
  events_or_none (heap w) m2 = Some e2 ->
  events_or_none (heap w) m3 = Some e3 ->
  events_or_none (heap w) m4 = Some e4 ->
  exists result w',
    ConcatMelodies m1 m2 m3 m4 w = Ok (result, w')
    /\ events_at (heap w') result = Some (e1 ++ e2 ++ e3 ++ e4)
    /\ rand w' = rand w
    /\ exists ext, heap w' = heap w ++ ext.
Proof.
  intros H1 H2 H3 H4. unfold ConcatMelodies.
  destruct (given_melodies_run w [m1; m2; m3; m4] [e1; e2; e3; e4])
    as (kept & kes & E & Hk & _ & Hc).
  { repeat constructor; assumption. }
  rewrite (bind_step _ _ _ _ _ E).
  cbn [concat] in Hc. rewrite app_nil_r in Hc. rewrite <- Hc.
  destruct Hk as [|x ex others kes' Hx Hothers].
  - rewrite new_melody_run. eexists _, _. split; [reflexivity|].
    cbn [heap rand List.map List.length concat app]. repeat split.
    + exact (events_at_laid_out (heap w) [] []).
    + eexists. reflexivity.
  - cbn [concat]. exact (reduce_add_run others w x ex kes' Hx Hothers).
Qed.

(** X12: [ConcatMelodies] always returns for well-formed arguments, each a
    melody or [None]; the melody it returns holds the events of the given
    melodies in argument order, every melody of the store keeps its events,
    and no random number is drawn. *)
Theorem ConcatMelodies_concatenates (w : World) (m1 m2 m3 m4 : option loc)
    (e1 e2 e3 e4 : list Event) :
  events_or_none (heap w) m1 = Some e1 ->
  events_or_none (heap w) m2 = Some e2 ->
  events_or_none (heap w) m3 = Some e3 ->
  events_or_none (heap w) m4 = Some e4 ->
  exists result w',
    ConcatMelodies m1 m2 m3 m4 w = Ok (result, w')
    /\ events_at (heap w') result = Some (e1 ++ e2 ++ e3 ++ e4)
    /\ (forall l evs, events_at (heap w) l = Some evs ->
                      events_at (heap w') l = Some evs)
    /\ rand w' = rand w.
Proof.
  intros H1 H2 H3 H4.
  destruct (ConcatMelodies_run w m1 m2 m3 m4 e1 e2 e3 e4 H1 H2 H3 H4)
    as (result & w' & E & Hv & Hr & ext & Hext).
  exists result, w'. repeat split; try assumption.
  intros l evs Hl. rewrite Hext. now apply events_at_extend.
Qed.

Lemma ConcatMelodies_concatenates_witness :
  exists result w',
    ConcatMelodies (Some sample_melody) None (Some sample_melody) None
      sample_world = Ok (result, w')
    /\ events_at (heap w') result
       = Some ([Note pitch_C 1; Rest 1; Note pitch_D 2; Note pitch_E 1]
               ++ [] ++ [Note pitch_C 1; Rest 1; Note pitch_D 2; Note pitch_E 1]
               ++ [])
    /\ (forall l evs, events_at (heap sample_world) l = Some evs ->
                      events_at (heap w') l = Some evs)
    /\ rand w' = rand sample_world.
Proof.
  apply (ConcatMelodies_concatenates sample_world
           (Some sample_melody) None (Some sample_melody) None);
    vm_compute; reflexivity.
Defined.

(** X13: when only the first argument of [ConcatMelodies] is a non-empty
    melody (the others being [None] or empty), the call returns that very
    object, not a copy, and leaves the store and the random source as they
    were. *)
Theorem ConcatMelodies_single_returns_argument (w : World) (m : loc)
    (m2 m3 m4 : option loc) (e : Event) (evs : list Event) :
  events_at (heap w) m = Some (e :: evs) ->
  events_or_none (heap w) m2 = Some [] ->
  events_or_none (heap w) m3 = Some [] ->
  events_or_none (heap w) m4 = Some [] ->
  ConcatMelodies (Some m) m2 m3 m4 w = Ok (m, w).
Proof.
  intros H1 H2 H3 H4. unfold ConcatMelodies.
  assert (Hnone : forall (o : option loc) (t : list (option loc))
                         (kept : list loc),
             events_or_none (heap w) o = Some [] ->
             given_melodies t w = Ok (kept, w) ->
             given_melodies (o :: t) w = Ok (kept, w)).
  { intros [l|] t kept Ho Ht; cbn [given_melodies events_or_none] in *.
    - rewrite (bind_step _ _ _ _ _ (melody_truthy_run w l [] Ho)).
      now rewrite (bind_step _ _ _ _ _ Ht).
    - exact Ht. }
  assert (E : given_melodies [Some m; m2; m3; m4] w = Ok ([m], w)).
  { cbn [given_melodies].
    rewrite (bind_step _ _ _ _ _ (melody_truthy_run w m (e :: evs) H1)).
    assert (Ht : given_melodies [m2; m3; m4] w = Ok ([], w)).
    { apply Hnone; [exact H2|]. apply Hnone; [exact H3|].
      apply Hnone; [exact H4|]. reflexivity. }
    now rewrite (bind_step _ _ _ _ _ Ht). }
  now rewrite (bind_step _ _ _ _ _ E).
Qed.

Lemma ConcatMelodies_single_returns_argument_witness :
  ConcatMelodies (Some sample_melody) None None None sample_world
  = Ok (sample_melody, sample_world).
Proof.
  apply (ConcatMelodies_single_returns_argument sample_world sample_melody
           None None None (Note pitch_C 1)
           [Rest 1; Note pitch_D 2; Note pitch_E 1]);
    vm_compute; reflexivity.
Defined.


(** ** [MelodyFormula]: caching and invalidation *)

Lemma keeps_nodes_greturn {A} (a : A) : keeps_nodes (greturn a).
Proof. intros g. reflexivity. Qed.

Lemma keeps_nodes_gbind {A B} (c : G Graph A) (k : A -> G Graph B) :
  keeps_nodes c -> (forall a, keeps_nodes (k a)) -> keeps_nodes (gbind c k).
Proof.
  intros Hc Hk g. specialize (Hc g). unfold graph_after, gbind in *.
  destruct (c g) as [a g1|e g1|]; try assumption.
  specialize (Hk a g1). unfold graph_after in Hk.
  destruct (k a g1); congruence.
Qed.

Lemma keeps_nodes_gtraverse (eval : nat -> G Graph loc)
    (ps : list (string * binding)) :
  (forall n, keeps_nodes (eval n)) ->
  keeps_nodes (gtraverse (resolve eval) ps).
Proof.
  intros Heval. induction ps as [|[k b] t IH]; cbn [gtraverse].
  - apply keeps_nodes_greturn.
  - apply keeps_nodes_gbind.
    + unfold resolve; cbn [fst snd]. destruct b as [v|n].
      * apply keeps_nodes_greturn.
      * apply keeps_nodes_gbind; [apply Heval|].
        intros m. apply keeps_nodes_greturn.
    + intros y. apply keeps_nodes_gbind; [exact IH|].
      intros ys. apply keeps_nodes_greturn.
Qed.

Lemma keeps_nodes_formula_value (service : Service) (fuel : nat) :
  forall self, keeps_nodes (formula_value service fuel self).
Proof.
  induction fuel as [|fuel IH]; intros self g.
  - reflexivity.
  - pose proof (keeps_nodes_gtraverse (formula_value service fuel)) as Ht.
    unfold graph_after. cbn [formula_value].
    destruct (nodes g !! self) as [f|]; [|reflexivity].
    destruct (held_value g f); [reflexivity|].
    specialize (Ht (params f) IH g). unfold graph_after in Ht.
    destruct (gtraverse _ (params f) g) as [kwargs g1|e g1|];
      try assumption.
    destruct (service (method_name f) kwargs (world g1));
      cbn [nodes]; rewrite ?length_alter; solve [assumption | reflexivity].
Qed.

(** X14: once [value] has returned a melody that is not empty, a further
    access returns the same object and changes nothing: the service is not
    called again and no hook runs. *)
Theorem formula_value_computed_once (service : Service) (fuel fuel' : nat)
    (self : nat) (g g' : Graph) (m x : loc) (xs : list loc) :
  formula_value service fuel self g = Returned m g' ->
  elements_at (heap (world g')) m = Some (x :: xs) ->
  formula_value service (S fuel') self g' = Returned m g'.
Proof.
  intros H Hm. destruct fuel as [|fuel]; [discriminate|].
  pose proof (keeps_nodes_gtraverse (formula_value service fuel)) as Ht.
  cbn [formula_value] in *.
  destruct (nodes g !! self) as [f|] eqn:Hf; [|discriminate].
  destruct (held_value g f) as [v|] eqn:Hheld.
  - injection H as -> ->. now rewrite Hf, Hheld.
  - specialize (Ht (params f) (keeps_nodes_formula_value service fuel) g).
    unfold graph_after in Ht.
    destruct (gtraverse _ (params f) g) as [kwargs g1|e g1|];
      try discriminate.
    destruct (service (method_name f) kwargs (world g1)) as [r w2|e w2|];
      try discriminate.
    injection H as -> <-. cbn [nodes world] in *.
    assert (Hlt : (self < List.length (nodes g1))%nat)
      by (rewrite Ht; eapply lookup_lt_Some, Hf).
    destruct (lookup_lt_is_Some_2 _ _ Hlt) as [f1 Hf1].
    rewrite list_lookup_alter_eq, Hf1. cbn [fmap option_fmap option_map].
    unfold held_value. cbn [_value with_value world]. now rewrite Hm.
Qed.

Lemma formula_value_computed_once_witness :
  formula_value two_methods 1 0%nat
    (graph_after (formula_value two_methods 1 0%nat) revert_graph)
  = Returned 9%nat (graph_after (formula_value two_methods 1 0%nat) revert_graph).
Proof.
  apply (formula_value_computed_once two_methods 1 0 0%nat revert_graph
           (graph_after (formula_value two_methods 1 0%nat) revert_graph)
           9%nat 5%nat [6; 7; 8]%nat);
    vm_compute; reflexivity.
Defined.

Lemma dict_get_set {V} (d : list (string * V)) (k k' : string) (v : V) :
  dict_get (dict_set d k v) k'
  = if String.eqb k' k then Some v else dict_get d k'.
Proof.
  induction d as [|[k0 v0] t IH]; cbn [dict_set dict_get].
  - reflexivity.
  - destruct (String.eqb_spec k k0) as [->|Hk]; cbn [dict_get].
    + destruct (String.eqb k' k0); reflexivity.
    + rewrite IH.
      destruct (String.eqb_spec k' k0) as [->|]; [|reflexivity].
      destruct (String.eqb_spec k0 k) as [->|]; [contradiction|reflexivity].
Qed.

Lemma dict_get_app {V} (a b : list (string * V)) (k : string) :
  dict_get (a ++ b) k
  = match dict_get a k with Some v => Some v | None => dict_get b k end.
Proof.
  induction a as [|[k0 v0] t IH]; cbn [app dict_get]; [reflexivity|].
  destruct (String.eqb k k0); [reflexivity | exact IH].
Qed.

Lemma dict_get_update {V} (new : list (string * V)) :
  forall (d : list (string * V)) (k : string),
    dict_get (dict_update d new) k
    = match dict_get (rev new) k with
      | Some v => Some v
      | None => dict_get d k
      end.
Proof.
  unfold dict_update.
  induction new as [|[k0 v0] t IH]; intros d k; cbn [fold_left rev fst snd].
  - reflexivity.
  - rewrite IH, dict_get_app, dict_get_set. cbn [dict_get].
    destruct (dict_get (rev t) k); [reflexivity|].
    destruct (String.eqb k k0); reflexivity.
Qed.

Lemma grows_greturn {A} (a : A) : grows (greturn a).
Proof. intros g. exists []. cbn. now rewrite app_nil_r. Qed.

Lemma grows_gbind {A B} (c : G Graph A) (k : A -> G Graph B) :
  grows c -> (forall a, grows (k a)) -> grows (gbind c k).
Proof.
  intros Hc Hk g. destruct (Hc g) as [t1 H1]. unfold graph_after, gbind in *.
  destruct (c g) as [a g1|e g1|]; try (exists t1; exact H1).
  destruct (Hk a g1) as [t2 H2]. unfold graph_after in H2.
  destruct (k a g1) as [b g2|e g2|].
  - exists (t1 ++ t2). now rewrite H2, H1, app_assoc.
  - exists (t1 ++ t2). now rewrite H2, H1, app_assoc.
  - exists []. now rewrite app_nil_r.
Qed.

Lemma grows_gtraverse (eval : nat -> G Graph loc)
    (ps : list (string * binding)) :
  (forall n, grows (eval n)) -> grows (gtraverse (resolve eval) ps).
Proof.
  intros Heval. induction ps as [|[k b] t IH]; cbn [gtraverse].
  - apply grows_greturn.
  - apply grows_gbind.
    + unfold resolve; cbn [fst snd]. destruct b as [v|n].
      * apply grows_greturn.
      * apply grows_gbind; [apply Heval|].
        intros m. apply grows_greturn.
    + intros y. apply grows_gbind; [exact IH|].
      intros ys. apply grows_greturn.
Qed.

Lemma grows_formula_value (service : Service) (fuel : nat) :
  forall self, grows (formula_value service fuel self).
Proof.
  induction fuel as [|fuel IH]; intros self g.
  - exists []. cbn. now rewrite app_nil_r.
  - unfold graph_after. cbn [formula_value].
    destruct (nodes g !! self) as [f|];
      [|exists []; cbn; now rewrite app_nil_r].
    destruct (held_value g f); [exists []; cbn; now rewrite app_nil_r|].
    destruct (grows_gtraverse (formula_value service fuel) (params f) IH g)
      as [t Ht].
    unfold graph_after in Ht.
    destruct (gtraverse _ (params f) g) as [kwargs g1|e g1|];
      [|exists t; exact Ht|exists []; now rewrite app_nil_r].
    destruct (service (method_name f) kwargs (world g1)) as [m w2|e w2|];
      cbn [trace].
    + eexists. rewrite Ht, <- app_assoc. reflexivity.
    + eexists. rewrite Ht, <- app_assoc. reflexivity.
    + exists []. now rewrite app_nil_r.
Qed.

(** X15: [update_params] on an existing formula returns; it leaves the
    melodies and the other formulas alone, runs [on_clear] when present,
    merges the new entries into [params] (the last entry for a key wins,
    other keys keep what they had) and drops the cached value.  When the
    next access to [value] returns, the entries it has added to the trace
    end with the call of the method and the on-success hook: the service
    has been called again. *)
Theorem update_params_invalidates (service : Service) (fuel : nat)
    (self : nat) (new : list (string * binding)) (g : Graph)
    (f : MelodyFormula) :
  nodes g !! self = Some f ->
  exists g1 f1,
    update_params self new g = Returned tt g1
    /\ world g1 = world g
    /\ trace g1 = trace g ++ hook (on_clear f) (OnClear self)
    /\ nodes g1 !! self = Some f1
    /\ _value f1 = None
    /\ (forall k, dict_get (params f1) k
                  = match dict_get (rev new) k with
                    | Some b => Some b
                    | None => dict_get (params f) k
                    end)
    /\ (forall n, n <> self -> nodes g1 !! n = nodes g !! n)
    /\ (forall m g2,
          formula_value service (S fuel) self g1 = Returned m g2 ->
          exists added,
            trace g2 = trace g1 ++ added ++ [Invoked self]
                       ++ hook (on_success f) (OnSuccess self)).
Proof.
  intros Hf.
  set (f0 := with_params (dict_update (params f) new) f).
  assert (Hlt : (self < List.length (nodes g))%nat)
    by (eapply lookup_lt_Some, Hf).
  assert (H0 : alter (fun f => with_params (dict_update (params f) new) f)
                 self (nodes g) !! self = Some f0).
  { rewrite list_lookup_alter_eq, Hf. reflexivity. }
  assert (H1 : alter (with_value None) self
                 (alter (fun f => with_params (dict_update (params f) new) f)
                    self (nodes g)) !! self = Some (with_value None f0)).
  { rewrite list_lookup_alter_eq, H0. reflexivity. }
  eexists _, (with_value None f0).
  unfold update_params, clear_value. rewrite Hf. cbn [nodes world trace].
  rewrite H0. split; [reflexivity|]. cbn [nodes world trace].
  split; [reflexivity|]. split; [reflexivity|]. split; [exact H1|].
  split; [reflexivity|]. split; [|split].
  - intros k. cbn [params with_value with_params f0].
    apply dict_get_update.
  - intros n Hn. now rewrite !list_lookup_alter_ne by congruence.
  - intros m g2 H. cbn [formula_value] in H. cbn [nodes] in H.
    rewrite H1 in H. unfold held_value in H. cbn [_value with_value] in H.
    match type of H with
    | context [gtraverse ?r ?ps ?g0] =>
        destruct (grows_gtraverse (formula_value service fuel) ps
                    (grows_formula_value service fuel) g0) as [t Ht];
        unfold graph_after in Ht;
        destruct (gtraverse r ps g0) as [kwargs g3|e g3|]
    end; try discriminate.
    destruct (service _ kwargs (world g3)) as [r w2|e w2|] in H;
      try discriminate.
    injection H as _ <-. cbn [trace] in *. exists t.
    rewrite Ht, <- app_assoc. reflexivity.
Qed.

Lemma update_params_invalidates_witness :
  (exists g1 f1,
     update_params 0%nat [("melody", Literal (VMelody sample_melody))]
       (graph_after (formula_value two_methods 1 0%nat) revert_graph)
     = Returned tt g1
     /\ world g1
        = world (graph_after (formula_value two_methods 1 0%nat) revert_graph)
     /\ trace g1
        = trace (graph_after (formula_value two_methods 1 0%nat) revert_graph)
          ++ hook true (OnClear 0%nat)
     /\ nodes g1 !! 0%nat = Some f1
     /\ _value f1 = None
     /\ (forall k,
           dict_get (params f1) k
           = match dict_get (rev [("melody", Literal (VMelody sample_melody))])
                     k with
             | Some b => Some b
             | None =>
                 dict_get [("melody", Literal (VMelody sample_melody))] k
             end)
     /\ (forall n, n <> 0%nat ->
           nodes g1 !! n
           = nodes (graph_after (formula_value two_methods 1 0%nat)
                      revert_graph) !! n)
     /\ (forall m g2,
           formula_value two_methods 1 0%nat g1 = Returned m g2 ->
           exists added,
             trace g2 = trace g1 ++ added ++ [Invoked 0%nat]
                        ++ hook true (OnSuccess 0%nat)))
  /\ (exists m g2,
        formula_value two_methods 1 0%nat
          (graph_after
             (update_params 0%nat
                [("melody", Literal (VMelody sample_melody))])
             (graph_after (formula_value two_methods 1 0%nat) revert_graph))
        = Returned m g2
        /\ trace g2 = [Invoked 0%nat; OnSuccess 0%nat; OnClear 0%nat;
                       Invoked 0%nat; OnSuccess 0%nat]).
Proof.
  split.
  - apply (update_params_invalidates two_methods 0 0%nat
             [("melody", Literal (VMelody sample_melody))]
             (graph_after (formula_value two_methods 1 0%nat) revert_graph)
             (mkFormula "RevertPitch"
                [("melody", Literal (VMelody sample_melody))]
                true true true (Some 9%nat))).
    vm_compute; reflexivity.
  - eexists _, _. split; vm_compute; reflexivity.
Defined.


(** ** [SubstitutePitch] and [SubstituteRhythm] on values *)

Lemma crop_walk_laid_out (evs : list Event) :
  forall (h tail : Heap) (wanted : nat),
  crop_walk (h ++ List.map obj_of evs ++ tail) wanted
    (seq (List.length h) (List.length evs))
  = Some (seq (List.length h) (List.length (crop_events wanted evs))).
Proof.
  induction evs as [|e t IH]; intros h tail wanted; [reflexivity|].
  cbn [List.map List.length seq crop_walk app].
  rewrite lookup_middle.
  rewrite shift_head, <- (length_snoc h (obj_of e)).
  destruct e as [p d|d]; cbn [obj_of crop_events].
  - destruct wanted as [|[|n]].
    + rewrite IH, length_snoc. reflexivity.
    + reflexivity.
    + rewrite IH, length_snoc. reflexivity.
  - rewrite IH, length_snoc. reflexivity.
Qed.

Lemma crop_length_laid_out {offs : list Q} (h tail : Heap)
    (evs : list Event) (limit : Z) (r : Rand) :
  crop_length (List.length h + List.length evs)%nat limit
    (mkWorld (h ++ List.map obj_of evs
              ++ OStream (seq (List.length h) (List.length evs)) offs
                 :: tail) r)
  = Ok (tt,
        mkWorld (h ++ List.map obj_of evs
                 ++ OStream (seq (List.length h)
                               (List.length (crop_limit limit evs)))
                      (append_offsets 0 (crop_limit limit evs)) :: tail)
          r).
Proof.
  set (c := (List.length h + List.length evs)%nat).
  assert (Hc : forall els offs',
             (h ++ List.map obj_of evs ++ OStream els offs' :: tail) !! c
             = Some (OStream els offs')).
  { intros els offs'. subst c.
    rewrite <- (List.length_map obj_of evs), <- List.length_app.
    rewrite !app_assoc. apply lookup_middle. }
  assert (Hi : forall els offs' o,
             <[c := o]> (h ++ List.map obj_of evs ++ OStream els offs' :: tail)
             = h ++ List.map obj_of evs ++ o :: tail).
  { intros els offs' o. subst c.
    rewrite <- (List.length_map obj_of evs), <- List.length_app.
    rewrite !app_assoc. apply insert_middle. }
  assert (Hs : forall els els' offs0 offs',
             set_elements c els' offs'
               (mkWorld (h ++ List.map obj_of evs ++ OStream els offs0 :: tail)
                  r)
             = Ok (tt, mkWorld (h ++ List.map obj_of evs
                                ++ OStream els' offs' :: tail) r)).
  { intros els els' offs0 offs'.
    rewrite (set_elements_run (mkWorld _ r) c els els' offs0 offs'
               (Hc els offs0)).
    cbn [heap rand]. now rewrite Hi. }
  unfold crop_length, crop_limit, stream_clear. destruct (limit <=? 0)%Z.
  - apply Hs.
  - pose proof (stream_laid_out (offs := offs) h (List.map obj_of evs) tail
                  (seq (List.length h) (List.length evs))) as E.
    rewrite List.length_map in E. fold c in E.
    rewrite (bind_step _ _ _ _ _
               (get_run (fun h0 => elements_at h0 c) (mkWorld _ r) _ E)).
    unfold bind at 1. unfold get at 1. cbn [heap].
    rewrite crop_walk_laid_out.
    rewrite (bind_step _ _ _ _ _ (Hs _ [] offs [])).
    set (kept := crop_events (Z.to_nat limit) evs).
    destruct (crop_events_prefix evs (Z.to_nat limit)) as [dropped Hd].
    fold kept in Hd.
    rewrite (stream_append_run _ c [] _ [] [] kept).
    + cbn [heap rand app]. rewrite Hi. reflexivity.
    + cbn [heap]. apply Hc.
    + reflexivity.
    + cbn [heap]. rewrite Hd at 1. rewrite List.map_app, <- app_assoc.
      apply events_of_laid_out.
Qed.

Lemma positions_laid_out (base : nat) (evs : list Event) :
  forall pre post : list obj,
  Forall2 (fun s q => exists k,
             s = (base + k)%nat
             /\ pitch_at (pre ++ List.map obj_of evs ++ post) k = Some q)
    (note_positions (base + List.length pre) evs) (pitches_of evs).
Proof.
  induction evs as [|e t IH]; intros pre post; [constructor|].
  specialize (IH (pre ++ [obj_of e]) post).
  rewrite length_snoc, <- shift_head, Nat.add_succ_r in IH.
  destruct e as [p d|d]; cbn [note_positions pitches_of List.map].
  - constructor; [|exact IH].
    exists (List.length pre). split; [reflexivity|].
    unfold pitch_at. cbn [obj_of app]. rewrite lookup_middle. reflexivity.
  - exact IH.
Qed.

Lemma crop_limit_prefix (limit : Z) (evs : list Event) :
  exists dropped, evs = crop_limit limit evs ++ dropped.
Proof.
  unfold crop_limit. destruct (limit <=? 0)%Z.
  - exists evs. reflexivity.
  - apply crop_events_prefix.
Qed.

Lemma SubstitutePitch_run (w : World) (rhythm sequence : loc)
    (crop_rhythm : bool) (er es : list Event) :
  events_at (heap w) rhythm = Some er ->
  events_at (heap w) sequence = Some es ->
  exists result w',
    SubstitutePitch rhythm sequence crop_rhythm w = Ok (result, w')
    /\ events_at (heap w') result = Some (substitute_events er es crop_rhythm)
    /\ rand w' = rand w
    /\ exists ext, heap w' = heap w ++ ext.
Proof.
  intros Hr Hs. unfold SubstitutePitch, substitute_events.
  set (h := heap w) in *.
  set (Or := List.map obj_of er).
  set (Os := List.map obj_of es).
  set (Sr := OStream (seq (List.length h) (List.length er))
               (stored_offsets h rhythm)).
  set (h1 := h ++ Or ++ [Sr]).
  set (Ss := OStream (seq (List.length h1) (List.length es))
               (stored_offsets h1 sequence)).
  set (tail := Os ++ [Ss]).
  set (cr := (List.length h + List.length er)%nat).
  set (cs := (List.length h1 + List.length es)%nat).
  rewrite (bind_step _ _ _ _ _ (deepcopy_run rhythm w er Hr)).
  assert (Hs' : events_at (heap (mkWorld h1 (rand w))) sequence = Some es)
    by (cbn [heap]; apply events_at_extend, Hs).
  rewrite (bind_step _ _ _ _ _ (deepcopy_run sequence _ es Hs')).
  cbn [heap rand]. fold h Or Sr h1 Os Ss cr cs.
  assert (E2 : h1 ++ Os ++ [Ss] = h ++ Or ++ Sr :: tail)
    by (subst h1 tail; now rewrite <- !app_assoc).
  (* the two lengths *)
  pose proof (melody_length_laid_out (offs := stored_offsets h rhythm)
                h tail er (rand w)) as Lr.
  pose proof (melody_length_laid_out (offs := stored_offsets h1 sequence)
                h1 [] es (rand w)) as Ls.
  cbv zeta in Lr, Ls. fold Or Sr cr in Lr. fold Os Ss cs in Ls.
  rewrite <- E2 in Lr.
  rewrite (bind_step _ _ _ _ _ Lr), (bind_step _ _ _ _ _ Ls).
  (* the crop *)
  set (kept := if crop_rhythm
                  && (Z.of_nat (mlength es) <? Z.of_nat (mlength er))%Z
               then crop_limit (Z.of_nat (mlength es)) er else er).
  set (offk := if crop_rhythm
                  && (Z.of_nat (mlength es) <? Z.of_nat (mlength er))%Z
               then append_offsets 0 kept else stored_offsets h rhythm).
  set (Sk := OStream (seq (List.length h) (List.length kept)) offk).
  assert (Ec : (if crop_rhythm
                   && (Z.of_nat (mlength es) <? Z.of_nat (mlength er))%Z
                then crop_length cr (Z.of_nat (mlength es)) else ret tt)
                 (mkWorld (h1 ++ Os ++ [Ss]) (rand w))
               = Ok (tt, mkWorld (h ++ Or ++ Sk :: tail) (rand w))).
  { rewrite E2. subst kept offk Sk.
    destruct (crop_rhythm && _)%bool.
    - apply crop_length_laid_out.
    - reflexivity. }
  rewrite (bind_step _ _ _ _ _ Ec).
  assert (Hex : exists dropped, er = kept ++ dropped).
  { subst kept. destruct (crop_rhythm && _)%bool.
    - apply crop_limit_prefix.
    - exists []. now rewrite app_nil_r. }
  destruct Hex as [dropped Hd].
  set (T := List.map obj_of dropped ++ Sk :: tail).
  assert (E3 : h ++ Or ++ Sk :: tail = h ++ List.map obj_of kept ++ T).
  { subst Or T. rewrite Hd, List.map_app, <- !app_assoc. reflexivity. }
  assert (Hlen : List.length er
                 = (List.length kept + List.length dropped)%nat)
    by (rewrite Hd at 1; apply List.length_app).
  (* the notes of both copies *)
  assert (N1 : melody_notes cr (mkWorld (h ++ Or ++ Sk :: tail) (rand w))
               = Ok (note_positions (List.length h) kept,
                     mkWorld (h ++ Or ++ Sk :: tail) (rand w))).
  { pose proof (stream_laid_out (offs := offk) h Or tail
                  (seq (List.length h) (List.length kept))) as E.
    unfold Or at 2 in E. rewrite List.length_map in E. fold cr Sk in E.
    unfold melody_notes, get, notes_at. cbn [heap].
    rewrite E, E3, note_locs_laid_out. reflexivity. }
  rewrite (bind_step _ _ _ _ _ N1).
  assert (E4 : h ++ Or ++ Sk :: tail = (h ++ Or ++ [Sk]) ++ Os ++ Ss :: [])
    by (subst tail; now rewrite <- !app_assoc).
  assert (L1 : List.length (h ++ Or ++ [Sk]) = List.length h1)
    by (subst h1; now rewrite !List.length_app).
  assert (N2 : melody_notes cs (mkWorld (h ++ Or ++ Sk :: tail) (rand w))
               = Ok (note_positions (List.length h1) es,
                     mkWorld (h ++ Or ++ Sk :: tail) (rand w))).
  { unfold melody_notes, get. cbn [heap]. rewrite E4. subst cs Ss Os.
    rewrite <- L1, notes_at_laid_out. reflexivity. }
  rewrite (bind_step _ _ _ _ _ N2).
  (* the pitches move over *)
  assert (Hsrc : Forall2 (fun s q => exists k,
             s = (List.length h + List.length kept + k)%nat
             /\ pitch_at T k = Some q)
           (note_positions (List.length h1) es) (pitches_of es)).
  { pose proof (positions_laid_out (List.length h + List.length kept) es
                  (List.map obj_of dropped ++ [Sk]) [Ss]) as P.
    replace (List.length h + List.length kept
             + List.length (List.map obj_of dropped ++ [Sk]))%nat
      with (List.length h1) in P.
    - subst T tail Os. rewrite <- app_assoc in P. exact P.
    - subst h1 Or. rewrite !List.length_app, !List.length_map. simpl. lia. }
  pose proof (copy_pitches_run kept h T _ _ (rand w) Hsrc) as Ep.
  rewrite <- E3 in Ep. rewrite (bind_step _ _ _ _ _ Ep). unfold ret.
  eexists _, _. split; [reflexivity|]. cbn [heap rand].
  split; [|split; [reflexivity | eexists; reflexivity]].
  unfold events_at.
  assert (Es : elements_at
                 (h ++ List.map obj_of (assign_pitches (pitches_of es) kept)
                  ++ T) cr
               = Some (seq (List.length h) (List.length kept))).
  { pose proof (stream_laid_out (offs := offk) h
                  (List.map obj_of (assign_pitches (pitches_of es) kept)
                   ++ List.map obj_of dropped) tail
                  (seq (List.length h) (List.length kept))) as E.
    rewrite List.length_app, !List.length_map, length_assign_pitches,
      <- Hlen, <- app_assoc in E.
    exact E. }
  rewrite Es.
  rewrite <- (length_assign_pitches (pitches_of es) kept).
  apply events_of_laid_out.
Qed.


Lemma pitches_of_assign_any (qs : list Pitch) (m : Melody) :
  pitches_of (assign_pitches qs m)
  = firstn (mlength m) qs ++ skipn (List.length qs) (pitches_of m).
Proof.
  revert qs; induction m as [|[p d|d] t IH]; intros qs.
  - cbn [assign_pitches pitches_of]. now rewrite skipn_nil, app_nil_r.
  - rewrite mlength_cons_note. destruct qs as [|q qs']; [reflexivity|].
    cbn [assign_pitches pitches_of firstn List.length skipn app].
    now rewrite IH.
  - rewrite mlength_cons_rest. cbn [assign_pitches pitches_of]. apply IH.
Qed.

Lemma mlength_crop_limit (limit : nat) (evs : list Event) :
  mlength (crop_limit (Z.of_nat limit) evs) = Nat.min limit (mlength evs).
Proof.
  unfold crop_limit. destruct (Z.leb_spec (Z.of_nat limit) 0).
  - replace limit with 0%nat by lia. reflexivity.
  - rewrite Nat2Z.id. apply mlength_crop_events. lia.
Qed.

(** X16: [SubstitutePitch] always returns for two well-formed melodies.
    The result keeps the rhythm of the first melody: its notes and rests
    with their durations are a leading part of those of [rhythm] (all of
    them when [crop_rhythm] is off).  Its pitches are those of [sequence]
    in order, as many as [rhythm] has notes; when [crop_rhythm] is off the
    notes beyond the end of [sequence] keep their own pitches, when it is
    on they are cut away.  No random number is drawn. *)
Theorem SubstitutePitch_rhythm_and_pitches (w : World) (rhythm sequence : loc)
    (crop_rhythm : bool) (er es : list Event) :
  events_at (heap w) rhythm = Some er ->
  events_at (heap w) sequence = Some es ->
  exists result w' out,
    SubstitutePitch rhythm sequence crop_rhythm w = Ok (result, w')
    /\ events_at (heap w') result = Some out
    /\ (exists dropped, List.map shape er = List.map shape out ++ dropped)
    /\ pitches_of out
       = firstn (mlength er) (pitches_of es)
         ++ (if crop_rhythm then []
             else skipn (mlength es) (pitches_of er))
    /\ mlength out
       = (if crop_rhythm then Nat.min (mlength er) (mlength es)
          else mlength er)
    /\ rand w' = rand w.
Proof.
  intros Hr Hs.
  destruct (SubstitutePitch_run w rhythm sequence crop_rhythm er es Hr Hs)
    as (result & w' & E & Hv & Hrand & _).
  exists result, w', (substitute_events er es crop_rhythm).
  split; [exact E|]. split; [exact Hv|].
  unfold substitute_events.
  pose proof (length_pitches_of es) as Lq.
  pose proof (length_pitches_of er) as Lp.
  destruct crop_rhythm; cbn [andb].
  - destruct (Z.ltb_spec (Z.of_nat (mlength es)) (Z.of_nat (mlength er)))
      as [Hlt|Hge].
    + pose proof (mlength_crop_limit (mlength es) er) as Lk.
      rewrite Nat.min_l in Lk by lia.
      split; [|split; [|split]].
      * destruct (crop_limit_prefix (Z.of_nat (mlength es)) er)
          as [dropped Hd].
        exists (List.map shape dropped).
        rewrite shape_assign, <- List.map_app, <- Hd. reflexivity.
      * rewrite pitches_of_assign by congruence.
        rewrite firstn_all2 by lia. now rewrite app_nil_r.
      * rewrite mlength_assign, Lk. lia.
      * exact Hrand.
    + split; [|split; [|split]].
      * exists []. now rewrite shape_assign, app_nil_r.
      * rewrite pitches_of_assign_any.
        rewrite (skipn_all2 (pitches_of er)) by lia. reflexivity.
      * rewrite mlength_assign. lia.
      * exact Hrand.
  - split; [|split; [|split]].
    + exists []. now rewrite shape_assign, app_nil_r.
    + rewrite pitches_of_assign_any, Lq. reflexivity.
    + apply mlength_assign.
    + exact Hrand.
Qed.

Lemma SubstitutePitch_rhythm_and_pitches_witness :
  exists result w' out,
    SubstitutePitch sample_melody sample_melody true sample_world
    = Ok (result, w')
    /\ events_at (heap w') result = Some out
    /\ (exists dropped,
          List.map shape
            [Note pitch_C 1; Rest 1; Note pitch_D 2; Note pitch_E 1]
          = List.map shape out ++ dropped)
    /\ pitches_of out
       = firstn (mlength
                   [Note pitch_C 1; Rest 1; Note pitch_D 2; Note pitch_E 1])
           (pitches_of
              [Note pitch_C 1; Rest 1; Note pitch_D 2; Note pitch_E 1])
         ++ []
    /\ mlength out
       = Nat.min
           (mlength [Note pitch_C 1; Rest 1; Note pitch_D 2; Note pitch_E 1])
           (mlength [Note pitch_C 1; Rest 1; Note pitch_D 2; Note pitch_E 1])
    /\ rand w' = rand sample_world.
Proof.
  apply (SubstitutePitch_rhythm_and_pitches sample_world sample_melody
           sample_melody true
           [Note pitch_C 1; Rest 1; Note pitch_D 2; Note pitch_E 1]
           [Note pitch_C 1; Rest 1; Note pitch_D 2; Note pitch_E 1]);
    vm_compute; reflexivity.
Defined.

(** X17: [SubstituteRhythm(sequence, rhythm)] always returns for two
    well-formed melodies and gives a melody with the same events as
    [SubstitutePitch(rhythm, sequence, crop_rhythm=True)]; the extra copies
    it makes change nothing. *)
Theorem SubstituteRhythm_as_SubstitutePitch (w : World) (sequence rhythm : loc)
    (er es : list Event) :
  events_at (heap w) rhythm = Some er ->
  events_at (heap w) sequence = Some es ->
  exists r1 w1 r2 w2 out,
    SubstituteRhythm sequence rhythm w = Ok (r1, w1)
    /\ SubstitutePitch rhythm sequence true w = Ok (r2, w2)
    /\ events_at (heap w1) r1 = Some out
    /\ events_at (heap w2) r2 = Some out
    /\ rand w1 = rand w.
Proof.
  intros Hr Hs.
  destruct (SubstitutePitch_run w rhythm sequence true er es Hr Hs)
    as (r2 & w2 & E2 & Hv2 & _ & _).
  unfold SubstituteRhythm.
  rewrite (bind_step _ _ _ _ _ (deepcopy_run rhythm w er Hr)).
  set (h1 := heap w ++ List.map obj_of er
             ++ [OStream (seq (List.length (heap w)) (List.length er))
                   (stored_offsets (heap w) rhythm)]).
  assert (Hs1 : events_at (heap (mkWorld h1 (rand w))) sequence = Some es)
    by (cbn [heap]; apply events_at_extend, Hs).
  rewrite (bind_step _ _ _ _ _ (deepcopy_run sequence _ es Hs1)).
  cbn [heap rand].
  set (w3 := mkWorld _ (rand w)).
  assert (Hr3 : events_at (heap w3)
                  (List.length (heap w) + List.length er)%nat = Some er).
  { subst w3 h1. cbn [heap]. apply events_at_extend, events_at_laid_out. }
  assert (Hs3 : events_at (heap w3)
                  (List.length h1 + List.length es)%nat = Some es).
  { subst w3. cbn [heap]. apply events_at_laid_out. }
  destruct (SubstitutePitch_run w3 _ _ true er es Hr3 Hs3)
    as (r1 & w1 & E1 & Hv1 & Hrand & _).
  exists r1, w1, r2, w2, (substitute_events er es true).
  repeat split; assumption.
Qed.

Lemma SubstituteRhythm_as_SubstitutePitch_witness :
  exists r1 w1 r2 w2 out,
    SubstituteRhythm sample_melody sample_melody sample_world = Ok (r1, w1)
    /\ SubstitutePitch sample_melody sample_melody true sample_world
       = Ok (r2, w2)
    /\ events_at (heap w1) r1 = Some out
    /\ events_at (heap w2) r2 = Some out
    /\ rand w1 = rand sample_world.
Proof.
  apply (SubstituteRhythm_as_SubstitutePitch sample_world sample_melody
           sample_melody
           [Note pitch_C 1; Rest 1; Note pitch_D 2; Note pitch_E 1]
           [Note pitch_C 1; Rest 1; Note pitch_D 2; Note pitch_E 1]);
    vm_compute; reflexivity.
Defined.


(** ** [ChangeRhythm] keeps the pitches *)

Lemma liftR_Ok {A} (c : M Rand A) (w w' : World) (a : A) :
  liftR c w = Ok (a, w') ->
  exists r', c (rand w) = Ok (a, r') /\ w' = mkWorld (heap w) r'.
Proof.
  unfold liftR. destruct (c (rand w)) as [[a0 r']| |]; try discriminate.
  intros E. injection E as <- <-. eauto.
Qed.

Lemma pitch_at_extend (h ext : Heap) (l : loc) (p : Pitch) :
  pitch_at h l = Some p -> pitch_at (h ++ ext) l = Some p.
Proof.
  unfold pitch_at. destruct (h !! l) as [o|] eqn:E; [|discriminate].
  now rewrite (lookup_app_l_Some _ _ _ _ E).
Qed.

(** The loop of [ChangeRhythm]: the notes of the new melody take the
    pitches of the old notes, found by index. *)
Lemma copy_by_index_run (gen : list Event) :
  forall (h tail : Heap) (olds : list loc) (k : nat) (qs : list Pitch)
         (r : Rand),
  Forall2 (fun s q => pitch_at h s = Some q) (drop k olds) qs ->
  (mlength gen <= List.length qs)%nat ->
  for_each (combine (seq k (mlength gen)) (note_positions (List.length h) gen))
    (fun '(idx, note) =>
       do old <- item olds idx;
       do p <- get (fun h => pitch_at h old);
       set_pitch note p)
    (mkWorld (h ++ List.map obj_of gen ++ tail) r)
  = Ok (tt, mkWorld (h ++ List.map obj_of (assign_pitches qs gen) ++ tail) r).
Proof.
  induction gen as [|e t IH]; intros h tail olds k qs r H Hlen.
  - reflexivity.
  - destruct e as [p d|d].
    + rewrite mlength_cons_note in *.
      inversion H as [Hd Hq|s q rest qs' Hs H' Hd Hq];
        [subst qs; simpl in Hlen; lia|].
      subst qs.
      assert (Hk : olds !! k = Some s).
      { rewrite <- (Nat.add_0_r k), <- lookup_drop, <- Hd. reflexivity. }
      assert (Hrest : drop (S k) olds = rest).
      { pose proof (drop_S olds s k Hk) as E. rewrite <- Hd in E.
        now injection E. }
      cbn [seq note_positions combine for_each assign_pitches List.map obj_of].
      assert (E1 : (do old <- item olds k;
                    do p0 <- get (fun h0 => pitch_at h0 old);
                    set_pitch (List.length h) p0)
                     (mkWorld (h ++ (ONote p d :: List.map obj_of t) ++ tail) r)
                   = Ok (tt, mkWorld (h ++ (ONote q d :: List.map obj_of t)
                                        ++ tail) r)).
      { unfold item. rewrite Hk. unfold bind, ret, get. cbn [heap].
        rewrite (pitch_at_extend h _ s q Hs).
        unfold set_pitch. cbn [heap rand].
        rewrite <- !app_comm_cons. unfold loc.
        rewrite lookup_middle, insert_middle. reflexivity. }
      rewrite (bind_step _ _ _ _ _ E1).
      specialize (IH (h ++ [ONote q d]) tail olds (S k) qs' r).
      rewrite length_snoc, <- !shift_head in IH.
      rewrite <- !app_comm_cons. apply IH.
      * rewrite Hrest. eapply Forall2_impl; [exact H'|].
        intros s' q' Hq. now apply pitch_at_extend.
      * simpl in Hlen. lia.
    + rewrite mlength_cons_rest in *.
      cbn [note_positions assign_pitches List.map obj_of].
      specialize (IH (h ++ [ORest d]) tail olds k qs r).
      rewrite length_snoc, <- !shift_head in IH.
      rewrite <- !app_comm_cons. apply IH.
      * eapply Forall2_impl; [exact H|].
        intros s' q' Hq. now apply pitch_at_extend.
      * exact Hlen.
Qed.

Lemma get_Ok {A} (f : Heap -> option A) (w w' : World) (a : A) :
  get f w = Ok (a, w') -> w' = w /\ f (heap w) = Some a.
Proof.
  unfold get. destruct (f (heap w)) as [x|]; [|discriminate].
  intros H. injection H as <- <-. split; reflexivity.
Qed.

Lemma melody_duration_Ok (c : loc) (w w' : World) (d : number) :
  melody_duration c w = Ok (d, w') -> w' = w.
Proof.
  unfold melody_duration, stream_duration. intros H.
  apply bind_Ok in H as (t & w1 & Ht & H).
  apply bind_Ok in Ht as (st & w2 & Hst & Ht).
  apply get_Ok in Hst as [-> _]. inv_ret Ht.
  apply number_of_Q_Ok in H. exact H.
Qed.

Lemma melody_grid_size_Ok (c : loc) (w w' : World) (g : float) :
  melody_grid_size c w = Ok (g, w') -> w' = w.
Proof.
  unfold melody_grid_size, grid_size, py_reduce. intros H.
  apply bind_Ok in H as (evs & w1 & Hevs & H).
  apply get_Ok in Hevs as [-> _].
  apply bind_Ok in H as (d & w2 & Hd & H).
  apply float_of_Fraction_Ok in H as ->.
  destruct (List.map quarterLength evs); [discriminate|].
  inv_ret Hd. reflexivity.
Qed.

(** X18: whenever [ChangeRhythm] returns, the melody it returns has the
    pitches of the input melody, in the same order and as many. *)
Theorem ChangeRhythm_keeps_pitches (w w' : World) (m result : loc)
    (evs : list Event) (duration grid : option float)
    (duration_mode : DurationMode) (note_duration : option float) :
  events_at (heap w) m = Some evs ->
  ChangeRhythm m duration grid duration_mode note_duration w
  = Ok (result, w') ->
  exists out,
    events_at (heap w') result = Some out
    /\ pitches_of out = pitches_of evs.
Proof.
  intros Hm H. unfold ChangeRhythm in H.
  rewrite (bind_step _ _ _ _ _ (deepcopy_run m w evs Hm)) in H.
  set (h := heap w) in *.
  set (Se := OStream (seq (List.length h) (List.length evs))
               (stored_offsets h m)) in *.
  set (h1 := h ++ List.map obj_of evs ++ [Se]) in *.
  set (c := (List.length h + List.length evs)%nat) in *.
  apply bind_Ok in H as (dur & s1 & Hdur & H).
  assert (Hs1 : s1 = mkWorld h1 (rand w)).
  { destruct duration as [d|]; [destruct (float_truthy d)|];
      try (unfold ret in Hdur; congruence);
      apply melody_duration_Ok in Hdur; exact Hdur. }
  subst s1. clear Hdur.
  apply bind_Ok in H as (g & s1 & Hg & H).
  assert (Hs1 : s1 = mkWorld h1 (rand w)).
  { destruct grid as [g0|]; [destruct (float_truthy g0)|];
      try (unfold ret in Hg; congruence);
      apply melody_grid_size_Ok in Hg; exact Hg. }
  subst s1. clear Hg.
  pose proof (melody_length_laid_out (offs := stored_offsets h m)
                h [] evs (rand w)) as Hl.
  cbv zeta in Hl. fold Se h1 c in Hl.
  rewrite (bind_step _ _ _ _ _ Hl) in H.
  apply bind_Ok in H. destruct H as (another & s2 & Hg & H).
  unfold GenerateMelodyH in Hg.
  apply bind_Ok in Hg. destruct Hg as (st & s3 & Hgen & Hnew).
  apply liftR_Ok in Hgen as (r' & Hgen & ->). cbn [heap rand] in *.
  rewrite new_stream_run in Hnew. cbn [heap rand] in Hnew.
  injection Hnew as <- <-.
  set (gen := events st) in *.
  assert (Hlen : mlength gen = mlength evs).
  { rewrite <- (Nat2Z.id (mlength evs)).
    eapply GenerateMelody_mlength, GenerateMelody_Stream.
    exists st. split; [exact Hgen | reflexivity]. }
  set (Sg := OStream (seq (List.length h1) (List.length gen)) (offsets st))
    in *.
  assert (N1 : melody_notes (List.length h1 + List.length gen)%nat
                 (mkWorld (h1 ++ List.map obj_of gen ++ [Sg]) r')
               = Ok (note_positions (List.length h1) gen,
                     mkWorld (h1 ++ List.map obj_of gen ++ [Sg]) r')).
  { unfold melody_notes, get. cbn [heap]. subst Sg.
    now rewrite notes_at_laid_out. }
  rewrite (bind_step _ _ _ _ _ N1) in H.
  assert (N2 : melody_notes c
                 (mkWorld (h1 ++ List.map obj_of gen ++ [Sg]) r')
               = Ok (note_positions (List.length h) evs,
                     mkWorld (h1 ++ List.map obj_of gen ++ [Sg]) r')).
  { unfold melody_notes, get. cbn [heap]. subst h1 c Se.
    rewrite <- !app_assoc. cbn [app]. now rewrite notes_at_laid_out. }
  rewrite (bind_step _ _ _ _ _ N2) in H.
  rewrite length_note_positions in H.
  assert (Hsrc : Forall2 (fun s q => pitch_at h1 s = Some q)
                   (drop 0 (note_positions (List.length h) evs))
                   (pitches_of evs)).
  { rewrite drop_0.
    pose proof (positions_laid_out 0 evs h [Se]) as P. cbn [Nat.add] in P.
    eapply Forall2_impl; [exact P|].
    intros s q (k & -> & Hk). exact Hk. }
  pose proof (copy_by_index_run gen h1 [Sg]
                (note_positions (List.length h) evs) 0 (pitches_of evs) r'
                Hsrc) as Ep.
  rewrite length_pitches_of in Ep. specialize (Ep ltac:(lia)).
  rewrite (bind_step _ _ _ _ _ Ep) in H. inv_ret H.
  exists (assign_pitches (pitches_of evs) gen). cbn [heap].
  split.
  - subst Sg. rewrite <- (length_assign_pitches (pitches_of evs) gen).
    apply events_at_laid_out.
  - apply pitches_of_assign. rewrite length_pitches_of. lia.
Qed.

Lemma ChangeRhythm_keeps_pitches_witness :
  exists out,
    events_at
      (heap (state_after
               (ChangeRhythm sample_melody (Some 8%float) None DMinimum None)
               sample_world))
      (value_of (ChangeRhythm sample_melody (Some 8%float) None DMinimum None)
         sample_world 0%nat)
    = Some out
    /\ pitches_of out
       = pitches_of [Note pitch_C 1; Rest 1; Note pitch_D 2; Note pitch_E 1].
Proof.
  apply (ChangeRhythm_keeps_pitches sample_world
           (state_after
              (ChangeRhythm sample_melody (Some 8%float) None DMinimum None)
              sample_world)
           sample_melody
           (value_of
              (ChangeRhythm sample_melody (Some 8%float) None DMinimum None)
              sample_world 0%nat)
           [Note pitch_C 1; Rest 1; Note pitch_D 2; Note pitch_E 1]
           (Some 8%float) None DMinimum None);
    vm_compute; reflexivity.
Defined.

(** X19: [ChangeRhythm] on a melody without events raises [TypeError]
    unless a non-zero grid size is given: the grid size of the input is
    then asked for, and it is a reduction over an empty sequence. *)
Theorem ChangeRhythm_empty_melody_raises (w : World) (m : loc)
    (duration grid : option float) (duration_mode : DurationMode)
    (note_duration : option float) :
  events_at (heap w) m = Some [] ->
  match grid with Some g => float_truthy g = false | None => True end ->
  ChangeRhythm m duration grid duration_mode note_duration w
  = Raise TypeError.
Proof.
  intros Hm Hg. unfold ChangeRhythm.
  rewrite (bind_step _ _ _ _ _ (deepcopy_run m w [] Hm)).
  cbn [List.length List.map seq app]. rewrite Nat.add_0_r.
  set (w1 := mkWorld _ (rand w)).
  assert (Hc : heap w1 !! List.length (heap w)
               = Some (OStream [] (stored_offsets (heap w) m))).
  { subst w1. cbn [heap]. apply lookup_middle. }
  assert (Ed : melody_duration (List.length (heap w)) w1
               = Ok (NFloat 0, w1)).
  { assert (Es : stream_at (heap w1) (List.length (heap w)) = Some []).
    { unfold stream_at, events_at, elements_at, offsets_at. unfold loc in *.
      rewrite Hc. cbn [events_of]. now rewrite combine_nil. }
    unfold melody_duration, stream_duration.
    rewrite (bind_step _ _ _ _ _
               (bind_step _ _ _ _ _ (get_run _ w1 _ Es))).
    reflexivity. }
  assert (Eg : melody_grid_size (List.length (heap w)) w1 = Raise TypeError).
  { unfold melody_grid_size, get, events_at, elements_at, bind.
    unfold loc in *. rewrite Hc. reflexivity. }
  assert (E1 : exists d,
            match duration with
            | Some d =>
                if float_truthy d then ret (NFloat d)
                else melody_duration (List.length (heap w))
            | None => melody_duration (List.length (heap w))
            end w1 = Ok (d, w1)).
  { destruct duration as [d|]; [destruct (float_truthy d)|]; eauto. }
  destruct E1 as [d E1]. rewrite (bind_step _ _ _ _ _ E1).
  unfold bind at 1. destruct grid as [g|]; [rewrite Hg|]; rewrite Eg;
    reflexivity.
Qed.

Lemma ChangeRhythm_empty_melody_raises_witness :
  ChangeRhythm 0%nat (Some 4%float) None DRandom None
    (mkWorld [OStream [] []] sample_draws)
  = Raise TypeError.
Proof.
  apply (ChangeRhythm_empty_melody_raises
           (mkWorld [OStream [] []] sample_draws)
           0%nat (Some 4%float) None DRandom None).
  - vm_compute; reflexivity.
  - exact I.
Defined.


(** ** The pitch-changing operations introduce no pitch *)

Section Closed.

Variables (P : list Pitch) (b : nat) (c : loc) (N : list loc).
Hypothesis N_fresh : Forall (fun n => (b <= n)%nat) N.

Lemma closed_ret {A} (a : A) (post : A -> Prop) :
  post a -> closed P b c N (ret a) post.
Proof. intros Hp w a' w' Hw H. inv_ret H. auto. Qed.

Lemma closed_raise {A} e (post : A -> Prop) :
  closed P b c N (raise e) post.
Proof. intros w a w' _ H. discriminate. Qed.

Lemma closed_bind {A B} (p : M World A) (k : A -> M World B)
    (mid : A -> Prop) (post : B -> Prop) :
  closed P b c N p mid -> (forall a, mid a -> closed P b c N (k a) post) ->
  closed P b c N (bind p k) post.
Proof.
  intros Hp Hk w r w' Hw H. inv_bind H.
  destruct (Hp _ _ _ Hw Ha) as [Hw1 Hmid].
  exact (Hk _ Hmid _ _ _ Hw1 H).
Qed.

Lemma closed_weaken {A} (p : M World A) (mid post : A -> Prop) :
  closed P b c N p mid -> (forall a, mid a -> post a) ->
  closed P b c N p post.
Proof.
  intros Hp Himp w a w' Hw H. destruct (Hp _ _ _ Hw H). auto.
Qed.

Lemma closed_liftR {A} (p : M Rand A) :
  closed P b c N (liftR p) (fun a => exists r r', p r = Ok (a, r')).
Proof.
  intros w a w' Hw H. apply liftR_Ok in H as (r' & H & ->).
  split; [exact Hw | eauto].
Qed.

Lemma closed_get_pitch (n : loc) :
  (b <= n)%nat ->
  closed P b c N (get (fun h => pitch_at h n)) (fun p => In p P).
Proof.
  intros Hn w p w' Hw H. unfold get in H.
  destruct (pitch_at (heap w) n) as [q|] eqn:E; [|discriminate].
  injection H as <- <-. split; [exact Hw|].
  destruct Hw as (_ & _ & Hp). eauto.
Qed.

Lemma closed_get_note (n : loc) :
  (b <= n)%nat ->
  closed P b c N (get (fun h => note_at h n))
    (fun o => exists p d, o = ONote p d /\ In p P).
Proof.
  intros Hn w o w' Hw H. unfold get in H.
  destruct (note_at (heap w) n) as [o'|] eqn:E; [|discriminate].
  injection H as <- <-. split; [exact Hw|].
  destruct Hw as (_ & _ & Hp). unfold note_at in E.
  destruct (heap w !! n) as [[p d|d|els]|] eqn:El; try discriminate.
  injection E as <-. exists p, d. split; [reflexivity|].
  apply (Hp n p Hn). unfold pitch_at. unfold loc in *. now rewrite El.
Qed.

Lemma closed_melody_notes :
  closed P b c N (melody_notes c) (fun ns => ns = N).
Proof.
  intros w ns w' Hw H. unfold melody_notes, get in H.
  destruct Hw as (Hb & Hn & Hp). rewrite Hn in H. injection H as <- <-.
  repeat split; assumption.
Qed.

Lemma closed_melody_length :
  closed P b c N (melody_length c) (fun _ => True).
Proof.
  unfold melody_length. eapply closed_bind; [apply closed_melody_notes|].
  intros ns _. apply closed_ret. exact I.
Qed.

Lemma notes_at_extend (h ext : Heap) (s : loc) (ns : list loc) :
  notes_at h s = Some ns -> notes_at (h ++ ext) s = Some ns.
Proof.
  unfold notes_at. destruct (elements_at h s) as [els|] eqn:E; [|discriminate].
  rewrite (elements_at_extend h ext s els E). clear E.
  revert ns; induction els as [|l t IH]; intros ns H; [exact H|].
  cbn [note_locs] in *.
  destruct (h !! l) as [o|] eqn:El; [|discriminate].
  rewrite (lookup_app_l_Some _ _ _ _ El).
  destruct (note_locs h t) as [ns0|].
  - now rewrite (IH ns0 eq_refl).
  - destruct o; discriminate.
Qed.

Lemma closed_alloc_note (p : Pitch) (d : Q) :
  In p P -> closed P b c N (alloc (ONote p d)) (fun l => (b <= l)%nat).
Proof.
  intros Hin w l w' (Hb & Hn & Hp) H. unfold alloc in H.
  injection H as <- <-. unfold closed_state. cbn [heap]. split; [|exact Hb].
  split; [rewrite List.length_app; lia|].
  split; [apply notes_at_extend, Hn|].
  intros l q Hl Hq. unfold pitch_at in Hq.
  destruct (decide (l < List.length (heap w))%nat) as [Hlt|Hge].
  - rewrite lookup_app_l in Hq by exact Hlt. exact (Hp l q Hl Hq).
  - rewrite lookup_app_r in Hq by lia.
    destruct (l - List.length (heap w))%nat as [|k]; simpl in Hq.
    + injection Hq as <-. exact Hin.
    + discriminate.
Qed.

Lemma note_locs_set_pitch (h : Heap) (l : loc) (p q : Pitch) (d : Q)
    (els : list loc) :
  h !! l = Some (ONote q d) ->
  note_locs (<[l := ONote p d]> h) els = note_locs h els.
Proof.
  intros Hl. induction els as [|x t IH]; [reflexivity|].
  cbn [note_locs]. rewrite IH.
  destruct (decide (l = x)) as [<-|Hne].
  - rewrite list_lookup_insert_eq by (eapply lookup_lt_Some, Hl).
    now rewrite Hl.
  - now rewrite list_lookup_insert_ne by exact Hne.
Qed.

Lemma closed_set_pitch (l : loc) (p : Pitch) :
  In p P -> closed P b c N (set_pitch l p) (fun _ => True).
Proof.
  intros Hin w a w' (Hb & Hn & Hp) H. unfold set_pitch in H.
  destruct (heap w !! l) as [[q d|d|els]|] eqn:El; try discriminate.
  injection H as <- <-. unfold closed_state. cbn [heap]. split; [|exact I].
  split; [now rewrite length_insert|]. split.
  - unfold notes_at, elements_at in *.
    destruct (decide (l = c)) as [->|Hne].
    + rewrite El in Hn. discriminate.
    + rewrite list_lookup_insert_ne by exact Hne. unfold loc in *.
      destruct (heap w !! c) as [[?|?|els]|]; try discriminate.
      pose proof (note_locs_set_pitch (heap w) l p q d els El) as E.
      unfold loc in *. now rewrite E.
  - intros l' q' Hl' Hq'. unfold pitch_at in Hq'.
    destruct (decide (l = l')) as [<-|Hne].
    + rewrite list_lookup_insert_eq in Hq'
        by (eapply lookup_lt_Some, El).
      injection Hq' as <-. exact Hin.
    + rewrite list_lookup_insert_ne in Hq' by exact Hne.
      exact (Hp l' q' Hl' Hq').
Qed.

Lemma closed_traverse {A B} (f : A -> M World B) (l : list A)
    (post : B -> Prop) :
  (forall x, In x l -> closed P b c N (f x) post) ->
  closed P b c N (traverse f l) (Forall post).
Proof.
  induction l as [|x t IH]; intros Hf; cbn [traverse].
  - apply closed_ret. constructor.
  - eapply closed_bind; [apply Hf; now left|]. intros y Hy.
    eapply closed_bind; [apply IH; intros z Hz; apply Hf; now right|].
    intros ys Hys. apply closed_ret. now constructor.
Qed.

Lemma closed_for_each {A} (f : A -> M World unit) (l : list A) :
  (forall x, In x l -> closed P b c N (f x) (fun _ => True)) ->
  closed P b c N (for_each l f) (fun _ => True).
Proof.
  induction l as [|x t IH]; intros Hf; cbn [for_each].
  - apply closed_ret. exact I.
  - eapply closed_bind; [apply Hf; now left|]. intros _ _.
    apply IH. intros z Hz. apply Hf. now right.
Qed.

Lemma closed_item {A} (l : list A) (i : nat) :
  closed P b c N (item l i) (fun x => In x l).
Proof.
  unfold item. destruct (l !! i) as [x|] eqn:E.
  - apply closed_ret. apply list_elem_of_In. eapply list_elem_of_lookup_2, E.
  - apply closed_raise.
Qed.

Lemma closed_dict_item (mapping : list (Pitch * Pitch)) (key : Pitch) :
  closed P b c N (dict_item mapping key)
    (fun v => In v (List.map snd mapping)).
Proof.
  induction mapping as [|[k v] t IH]; cbn [dict_item].
  - apply closed_raise.
  - destruct (pitch_eqb k key).
    + apply closed_ret. now left.
    + eapply closed_weaken; [exact IH|]. intros v' Hv'. now right.
Qed.

Lemma closed_pairs_of (l : list loc) :
  closed P b c N (pairs_of l)
    (fun ps => forall x y, In (x, y) ps -> In x l /\ In y l)
  /\ forall z, closed P b c N (pairs_of (z :: l))
       (fun ps => forall x y, In (x, y) ps -> In x (z :: l) /\ In y (z :: l)).
Proof.
  induction l as [|y t [IH1 IH2]].
  - split; [apply closed_ret; intros ? ? [] | intros z; apply closed_raise].
  - split; [apply IH2|]. intros z.
    change (pairs_of (z :: y :: t))
      with (do rest <- @pairs_of World loc t; ret ((z, y) :: rest)).
    eapply closed_bind; [exact IH1|]. intros rest Hrest.
    apply closed_ret. intros x1 y1 [E|Hin].
    + injection E as <- <-. split; [now left | right; now left].
    + destruct (Hrest _ _ Hin). split; right; right; assumption.
Qed.

Lemma closed_liftR_any {A} (p : M Rand A) :
  closed P b c N (liftR p) (fun _ => True).
Proof. eapply closed_weaken; [apply closed_liftR | auto]. Qed.

Lemma closed_copy_pitches (pairs : list (loc * loc)) :
  (forall note other, In (note, other) pairs -> (b <= other)%nat) ->
  closed P b c N (copy_pitches pairs) (fun _ => True).
Proof.
  intros Hsrc. unfold copy_pitches. apply closed_for_each.
  intros [note other] Hin.
  eapply closed_bind; [apply closed_get_pitch, (Hsrc note other Hin)|].
  intros p Hp. apply closed_set_pitch, Hp.
Qed.

Lemma closed_deepcopy_notes (ns : list loc) :
  Forall (fun n => (b <= n)%nat) ns ->
  closed P b c N (deepcopy_notes ns) (Forall (fun n => (b <= n)%nat)).
Proof.
  intros Hns. unfold deepcopy_notes. apply closed_traverse.
  intros n Hn. rewrite List.Forall_forall in Hns.
  eapply closed_bind; [apply closed_get_note, Hns, Hn|].
  intros o (p & d & -> & Hp). apply closed_alloc_note, Hp.
Qed.


Lemma closed_apply {A} (prog : M World A) (post : A -> Prop) w a w' :
  closed P b c N prog post ->
  closed_state P b c N w -> prog w = Ok (a, w') ->
  closed_state P b c N w' /\ post a.
Proof. intros Hk Hw H. exact (Hk w a w' Hw H). Qed.

Lemma ChangePitch_closed (m : loc) (amount_mode : AmountMode)
    (amount : option Z) (pitches : option (list Pitch))
    (w w1 w' : World) (result : loc) :
  (forall ps p, pitches = Some ps -> In p ps -> In p P) ->
  deepcopy m w = Ok (c, w1) -> closed_state P b c N w1 ->
  ChangePitch m amount_mode amount pitches w = Ok (result, w') ->
  closed_state P b c N w' /\ result = c.
Proof.
  intros Hgiven Hcopy Hw1 H. unfold ChangePitch in H.
  rewrite (bind_step _ _ _ _ _ Hcopy) in H.
  eapply (closed_apply _ (fun r => r = c)) in H; [exact H | | exact Hw1].
  eapply closed_bind; [apply closed_melody_notes|]. intros ns ->.
  eapply closed_bind.
  { apply closed_traverse. intros n Hn. apply closed_get_pitch.
    rewrite List.Forall_forall in N_fresh. auto. }
  intros own Hown. cbv zeta.
  set (candidates := distinct _).
  assert (Hc : forall p, In p candidates -> In p P).
  { intros p Hp. subst candidates. apply (proj1 (In_distinct _ _)) in Hp.
    rewrite List.Forall_forall in Hown.
    destruct pitches as [[|q t]|]; auto.
    apply (Hgiven (q :: t) p eq_refl Hp). }
  eapply (closed_bind _ _ (fun _ => True)).
  { destruct amount_mode; try (apply closed_ret; exact I).
    eapply closed_bind; [apply closed_liftR_any|]. intros a _.
    apply closed_ret. exact I. }
  intros amount' _.
  eapply (closed_bind _ _ (fun _ => True)).
  { destruct amount_mode; try (apply closed_ret; exact I).
    destruct (amount_unset amount'); [apply closed_raise|].
    destruct amount' as [a|]; [|apply closed_ret; exact I].
    destruct (_ <? a)%Z; [apply closed_raise | apply closed_ret; exact I]. }
  intros _ _.
  eapply (closed_bind _ _ (fun _ => True)).
  { destruct amount' as [k|]; [apply closed_liftR_any | apply closed_raise]. }
  intros notes_to_change _.
  eapply closed_bind.
  { apply closed_for_each. intros note _.
    eapply closed_bind; [apply closed_liftR|].
    intros q (r & r' & Hq). apply closed_set_pitch, Hc.
    eapply choice_In, Hq. }
  intros _ _. apply closed_ret. reflexivity.
Qed.

Lemma SwapPitch_closed (m : loc) (amount_mode : AmountMode)
    (amount : option Z) (w w1 w' : World) (result : loc) :
  deepcopy m w = Ok (c, w1) -> closed_state P b c N w1 ->
  SwapPitch m amount_mode amount w = Ok (result, w') ->
  closed_state P b c N w' /\ result = c.
Proof.
  intros Hcopy Hw1 H. unfold SwapPitch in H.
  rewrite (bind_step _ _ _ _ _ Hcopy) in H.
  eapply (closed_apply _ (fun r => r = c)) in H; [exact H | | exact Hw1].
  eapply closed_bind; [apply closed_melody_length|]. intros length _.
  cbv zeta.
  eapply closed_bind; [apply closed_liftR_any|]. intros random_amount _.
  destruct (_ <? 2)%Z; [apply closed_raise|].
  destruct (amount_unset _); [apply closed_raise|].
  eapply closed_bind; [apply closed_melody_notes|]. intros ns ->.
  eapply (closed_bind _ _ (Forall (fun n => (b <= n)%nat))).
  { destruct (amount_for _ _ _ _ _) as [a|]; [|apply closed_raise].
    eapply closed_weaken; [apply closed_liftR|].
    intros picked (r & r' & Hs).
    eapply sample_incl; [exact Hs | exact N_fresh]. }
  intros picked Hpicked.
  eapply (closed_bind _ _ (Forall (fun n => (b <= n)%nat))).
  { eapply closed_weaken; [apply closed_liftR|].
    intros shuffled (r & r' & Hs).
    eapply shuffle_incl; [exact Hs | exact Hpicked]. }
  intros notes_to_change Hnotes.
  eapply closed_bind; [apply (proj1 (closed_pairs_of notes_to_change))|].
  intros batches Hbatches.
  eapply closed_bind.
  { apply closed_for_each. intros [note_1 note_2] Hin.
    destruct (Hbatches _ _ Hin) as [H1 H2].
    rewrite List.Forall_forall in Hnotes.
    eapply closed_bind; [apply closed_get_pitch; auto|]. intros p1 Hp1.
    eapply closed_bind; [apply closed_get_pitch; auto|]. intros p2 Hp2.
    eapply closed_bind; [apply closed_set_pitch, Hp2|]. intros _ _.
    apply closed_set_pitch, Hp1. }
  intros _ _. apply closed_ret. reflexivity.
Qed.

Lemma ShiftPitch_closed (m : loc) (amount_mode : AmountMode)
    (amount : option Z) (w w1 w' : World) (result : loc) :
  deepcopy m w = Ok (c, w1) -> closed_state P b c N w1 ->
  ShiftPitch m amount_mode amount w = Ok (result, w') ->
  closed_state P b c N w' /\ result = c.
Proof.
  intros Hcopy Hw1 H. unfold ShiftPitch in H.
  rewrite (bind_step _ _ _ _ _ Hcopy) in H.
  eapply (closed_apply _ (fun r => r = c)) in H; [exact H | | exact Hw1].
  eapply closed_bind; [apply closed_melody_length|]. intros length _.
  cbv zeta.
  eapply closed_bind; [apply closed_liftR_any|]. intros random_amount _.
  destruct (_ <? 2)%Z; [apply closed_ret; reflexivity|].
  destruct (amount_unset _); [apply closed_raise|].
  eapply closed_bind; [apply closed_melody_notes|]. intros ns ->.
  eapply closed_bind; [apply closed_deepcopy_notes, N_fresh|].
  intros copies Hcopies.
  eapply (closed_bind _ _ (Forall (fun n => (b <= n)%nat))).
  { destruct (amount_for _ _ _ _ _) as [a|]; [|apply closed_raise].
    apply closed_ret. unfold slice_from, slice_to.
    apply Forall_app. split; [apply Forall_drop | apply Forall_take];
      exact Hcopies. }
  intros shifted Hshifted.
  eapply closed_bind.
  { apply closed_copy_pitches. intros note other Hin.
    rewrite List.Forall_forall in Hshifted.
    apply Hshifted. eapply in_combine_r, Hin. }
  intros _ _. apply closed_ret. reflexivity.
Qed.

Lemma ShufflePitch_closed (m : loc) (amount_mode : AmountMode)
    (amount : option Z) (w w1 w' : World) (result : loc) :
  deepcopy m w = Ok (c, w1) -> closed_state P b c N w1 ->
  ShufflePitch m amount_mode amount w = Ok (result, w') ->
  closed_state P b c N w' /\ result = c.
Proof.
  intros Hcopy Hw1 H. unfold ShufflePitch in H.
  rewrite (bind_step _ _ _ _ _ Hcopy) in H.
  eapply (closed_apply _ (fun r => r = c)) in H; [exact H | | exact Hw1].
  eapply closed_bind; [apply closed_melody_length|]. intros length _.
  cbv zeta.
  eapply closed_bind; [apply closed_liftR_any|]. intros random_amount _.
  destruct (_ <? 2)%Z; [apply closed_ret; reflexivity|].
  destruct (amount_unset _); [apply closed_raise|].
  destruct (amount_for _ _ _ _ _) as [a|]; [|apply closed_raise].
  destruct (_ <? a)%Z; [apply closed_raise|].
  eapply closed_bind; [apply closed_melody_notes|]. intros ns ->.
  eapply closed_bind; [apply closed_liftR_any|]. intros note_indexes _.
  eapply closed_bind; [apply closed_liftR_any|]. intros shuffled_indexes _.
  eapply closed_bind.
  { apply closed_traverse. intros si _.
    eapply closed_bind; [apply closed_item|]. intros n Hn.
    apply closed_get_pitch. rewrite List.Forall_forall in N_fresh. auto. }
  intros shuffled_pitches Hpitches.
  eapply closed_bind.
  { apply closed_for_each. intros [note_index shuffled_pitch] Hin.
    eapply closed_bind; [apply closed_item|]. intros n _.
    apply closed_set_pitch. rewrite List.Forall_forall in Hpitches.
    apply Hpitches. eapply in_combine_r, Hin. }
  intros _ _. apply closed_ret. reflexivity.
Qed.

Lemma RemapPitch_closed (m : loc) (amount_mode : AmountMode)
    (amount : option Z) (w w1 w' : World) (result : loc) :
  deepcopy m w = Ok (c, w1) -> closed_state P b c N w1 ->
  RemapPitch m amount_mode amount w = Ok (result, w') ->
  closed_state P b c N w' /\ result = c.
Proof.
  intros Hcopy Hw1 H. unfold RemapPitch in H.
  rewrite (bind_step _ _ _ _ _ Hcopy) in H.
  eapply (closed_apply _ (fun r => r = c)) in H; [exact H | | exact Hw1].
  eapply closed_bind; [apply closed_melody_length|]. intros length _.
  cbv zeta.
  eapply closed_bind; [apply closed_liftR_any|]. intros random_amount _.
  destruct (_ <? 2)%Z; [apply closed_ret; reflexivity|].
  destruct (amount_unset _); [apply closed_raise|].
  destruct (amount_for _ _ _ _ _) as [a|]; [|apply closed_raise].
  destruct (_ <? a)%Z; [apply closed_raise|].
  eapply closed_bind; [apply closed_melody_notes|]. intros ns ->.
  eapply (closed_bind _ _ (Forall (fun n => (b <= n)%nat))).
  { eapply closed_weaken; [apply closed_liftR|].
    intros picked (r & r' & Hs).
    eapply sample_incl; [exact Hs | exact N_fresh]. }
  intros notes_to_change Hnotes.
  eapply closed_bind.
  { apply closed_traverse. intros n Hn. apply closed_get_pitch.
    rewrite List.Forall_forall in Hnotes. auto. }
  intros pitches Hpitches.
  eapply (closed_bind _ _ (Forall (fun p => In p P))).
  { eapply closed_weaken; [apply closed_liftR|].
    intros shuffled (r & r' & Hs).
    eapply shuffle_incl; [exact Hs|].
    apply List.Forall_forall. intros p Hp.
    apply (proj1 (In_distinct _ _)) in Hp.
    rewrite List.Forall_forall in Hpitches. auto. }
  intros shuffled_pitches Hshuffled.
  eapply closed_bind.
  { apply closed_for_each. intros note Hn.
    eapply closed_bind.
    { apply closed_get_pitch. rewrite List.Forall_forall in Hnotes. auto. }
    intros p _.
    eapply closed_bind; [apply closed_dict_item|]. intros q Hq.
    apply closed_set_pitch. rewrite List.Forall_forall in Hshuffled.
    apply Hshuffled. apply List.in_map_iff in Hq as ([k v] & <- & Hkv).
    eapply in_combine_r, Hkv. }
  intros _ _. apply closed_ret. reflexivity.
Qed.

Lemma RevertPitch_closed (m : loc) (w w1 w' : World) (result : loc) :
  deepcopy m w = Ok (c, w1) -> closed_state P b c N w1 ->
  RevertPitch m w = Ok (result, w') ->
  closed_state P b c N w' /\ result = c.
Proof.
  intros Hcopy Hw1 H. unfold RevertPitch in H.
  rewrite (bind_step _ _ _ _ _ Hcopy) in H.
  eapply (closed_apply _ (fun r => r = c)) in H; [exact H | | exact Hw1].
  eapply closed_bind; [apply closed_melody_length|]. intros length _.
  destruct (_ <? 2)%Z; [apply closed_ret; reflexivity|].
  eapply closed_bind; [apply closed_melody_notes|]. intros ns ->.
  eapply closed_bind; [apply closed_deepcopy_notes, N_fresh|].
  intros copies Hcopies. cbv zeta.
  eapply closed_bind.
  { apply closed_copy_pitches. intros note other Hin.
    rewrite List.Forall_forall in Hcopies.
    apply Hcopies, in_rev. eapply in_combine_r, Hin. }
  intros _ _. apply closed_ret. reflexivity.
Qed.

Lemma note_locs_events (h : Heap) (els : list loc) :
  forall ns, note_locs h els = Some ns ->
  exists evs, events_of h els = Some evs
              /\ Forall2 (fun n p => pitch_at h n = Some p) ns (pitches_of evs).
Proof.
  induction els as [|l t IH]; intros ns H; cbn [note_locs events_of] in *.
  - injection H as <-. exists []. split; [reflexivity | constructor].
  - destruct (h !! l) as [[p d|d|s]|] eqn:El; try discriminate;
      destruct (note_locs h t) as [ns0|]; try discriminate;
      injection H as <-; destruct (IH ns0 eq_refl) as (evs & -> & Hall);
      cbn [event_of].
    + exists (Note p d :: evs). split; [reflexivity|].
      cbn [pitches_of]. constructor; [|exact Hall].
      unfold pitch_at. unfold loc in *. now rewrite El.
    + exists (Rest d :: evs). split; [reflexivity | exact Hall].
Qed.

Lemma closed_state_pitches (w : World) :
  closed_state P b c N w ->
  exists evs, events_at (heap w) c = Some evs
              /\ forall p, In p (pitches_of evs) -> In p P.
Proof.
  intros (_ & Hn & Hp). unfold notes_at, events_at in *.
  destruct (elements_at (heap w) c) as [els|]; [|discriminate].
  destruct (note_locs_events _ _ _ Hn) as (evs & He & Hall).
  exists evs. split; [exact He|]. intros p Hin.
  rewrite List.Forall_forall in N_fresh.
  clear He Hn. induction Hall as [|n q ns qs Hq _ IH].
  - destruct Hin.
  - destruct Hin as [<-|Hin].
    + apply (Hp n q); [apply N_fresh; now left | exact Hq].
    + apply IH; [|exact Hin]. intros x Hx. apply N_fresh. now right.
Qed.

End Closed.

Lemma note_positions_ge (evs : list Event) :
  forall base, Forall (fun n => (base <= n)%nat) (note_positions base evs).
Proof.
  induction evs as [|[p d|d] t IH]; intros base; cbn [note_positions].
  - constructor.
  - constructor; [lia|].
    eapply Forall_impl; [apply IH|]. intros n Hn. simpl in Hn. lia.
  - eapply Forall_impl; [apply IH|]. intros n Hn. simpl in Hn. lia.
Qed.

Lemma pitch_in_block {offs : list Q} (evs : list Event) (tail : list loc) :
  forall (k : nat) (p : Pitch),
  pitch_at (List.map obj_of evs ++ [OStream tail offs]) k = Some p ->
  In p (pitches_of evs).
Proof.
  unfold pitch_at.
  induction evs as [|e t IH]; intros k p H.
  - destruct k as [|[|k]]; discriminate.
  - destruct k as [|k].
    + destruct e as [q d|d]; simpl in H; [|discriminate].
      injection H as <-. now left.
    + specialize (IH k p H). destruct e; [now right | exact IH].
Qed.

Lemma closed_state_start {offs : list Q} (P : list Pitch) (h : Heap)
    (evs : list Event) (r : Rand) :
  (forall p, In p (pitches_of evs) -> In p P) ->
  closed_state P (List.length h) (List.length h + List.length evs)%nat
    (note_positions (List.length h) evs)
    (mkWorld (h ++ List.map obj_of evs
              ++ [OStream (seq (List.length h) (List.length evs)) offs]) r).
Proof.
  intros HP. unfold closed_state. cbn [heap]. split; [|split].
  - rewrite List.length_app. lia.
  - apply notes_at_laid_out.
  - intros l p Hl Hp. apply HP. unfold pitch_at in Hp.
    rewrite lookup_app_r in Hp by exact Hl.
    exact (pitch_in_block evs _ (l - List.length h) p Hp).
Qed.

(** X20: the pitch-changing operations introduce no pitch.  Whenever
    [ChangePitch], [SwapPitch], [ShiftPitch], [ShufflePitch], [RemapPitch]
    or [RevertPitch] returns, every pitch of the melody it returns is a
    pitch of the input melody or, for [ChangePitch], one of the pitches
    given to it. *)
Theorem pitch_operations_introduce_no_pitch (op : Operation) (m result : loc)
    (w w' : World) (evs : list Event) :
  pitch_input op = Some m ->
  call op w = Ok (result, w') ->
  events_at (heap w) m = Some evs ->
  exists evs',
    events_at (heap w') result = Some evs'
    /\ forall p, In p (pitches_of evs') ->
                 In p (pitches_of evs) \/ In p (offered_pitches op).
Proof.
  intros Hop H Hm.
  pose proof (deepcopy_run m w evs Hm) as Hcopy.
  pose proof (note_positions_ge evs (List.length (heap w))) as Hfresh.
  pose proof (closed_state_start (offs := stored_offsets (heap w) m)
                (pitches_of evs ++ offered_pitches op)
                (heap w) evs (rand w)
                (fun p Hp => in_or_app _ _ p (or_introl Hp))) as Hstart.
  assert (Hend : closed_state (pitches_of evs ++ offered_pitches op)
                   (List.length (heap w))
                   (List.length (heap w) + List.length evs)%nat
                   (note_positions (List.length (heap w)) evs) w'
                 /\ result = (List.length (heap w) + List.length evs)%nat).
  { destruct op; try discriminate; injection Hop as ->; cbn [call] in H.
    - eapply ChangePitch_closed; try eassumption.
      intros ps p -> Hp. apply in_or_app. right. exact Hp.
    - eapply SwapPitch_closed; eassumption.
    - eapply ShiftPitch_closed; eassumption.
    - eapply ShufflePitch_closed; eassumption.
    - eapply RemapPitch_closed; eassumption.
    - eapply RevertPitch_closed; eassumption. }
  destruct Hend as [Hend ->].
  destruct (closed_state_pitches _ _ _ _ Hfresh w' Hend) as (evs' & He & Hp).
  exists evs'. split; [exact He|].
  intros p Hin. apply in_app_or, Hp, Hin.
Qed.

Lemma pitch_operations_introduce_no_pitch_witness :
  exists evs',
    events_at
      (heap (state_after (call (CallChangePitch sample_melody AMaximum None
                                  (Some [pitch_G])))
               sample_world))
      (value_of (call (CallChangePitch sample_melody AMaximum None
                         (Some [pitch_G])))
         sample_world 0%nat)
    = Some evs'
    /\ forall p, In p (pitches_of evs') ->
         In p (pitches_of [Note pitch_C 1; Rest 1; Note pitch_D 2;
                           Note pitch_E 1])
         \/ In p (offered_pitches
                    (CallChangePitch sample_melody AMaximum None
                       (Some [pitch_G]))).
Proof.
  apply (pitch_operations_introduce_no_pitch
           (CallChangePitch sample_melody AMaximum None (Some [pitch_G]))
           sample_melody
           (value_of (call (CallChangePitch sample_melody AMaximum None
                              (Some [pitch_G])))
              sample_world 0%nat)
           sample_world
           (state_after (call (CallChangePitch sample_melody AMaximum None
                                 (Some [pitch_G])))
              sample_world)
           [Note pitch_C 1; Rest 1; Note pitch_D 2; Note pitch_E 1]);
    vm_compute; reflexivity.
Defined.


(** ** [SwapPitch] and [ShufflePitch] rearrange the pitches *)

Lemma notes_at_set_pitch (h : Heap) (l c : loc) (p q : Pitch) (d : Q) :
  h !! l = Some (ONote q d) ->
  notes_at (<[l := ONote p d]> h) c = notes_at h c.
Proof.
  intros El. unfold notes_at, elements_at.
  destruct (decide (l = c)) as [<-|Hne].
  - rewrite list_lookup_insert_eq by (eapply lookup_lt_Some, El).
    now rewrite El.
  - rewrite list_lookup_insert_ne by exact Hne. unfold loc in *.
    destruct (h !! c) as [[?|?|els]|]; try reflexivity.
    exact (note_locs_set_pitch h l p q d els El).
Qed.

Lemma pitch_or_insert (h : Heap) (l n : loc) (p : Pitch) (d : Q) :
  (l < List.length h)%nat ->
  pitch_or (<[l := ONote p d]> h) n
  = if decide (n = l) then p else pitch_or h n.
Proof.
  intros Hl. unfold pitch_or, pitch_at.
  destruct (decide (n = l)) as [->|Hne].
  - now rewrite list_lookup_insert_eq by exact Hl.
  - now rewrite list_lookup_insert_ne by congruence.
Qed.

Lemma set_pitch_Ok (l : loc) (p : Pitch) (w w' : World) :
  set_pitch l p w = Ok (tt, w') ->
  exists q d, heap w !! l = Some (ONote q d)
              /\ w' = mkWorld (<[l := ONote p d]> (heap w)) (rand w).
Proof.
  unfold set_pitch.
  destruct (heap w !! l) as [[q d|d|els]|]; try discriminate.
  intros H. injection H as <-. eauto.
Qed.

Lemma get_pitch_Ok (n : loc) (w w' : World) (p : Pitch) :
  get (fun h => pitch_at h n) w = Ok (p, w') ->
  w' = w /\ pitch_at (heap w) n = Some p /\ pitch_or (heap w) n = p.
Proof.
  unfold get, pitch_or. destruct (pitch_at (heap w) n) as [q|]; [|discriminate].
  intros H. injection H as <- <-. auto.
Qed.

Lemma swap_run (c n1 n2 : loc) (w w' : World) :
  (do p1 <- get (fun h => pitch_at h n1);
   do p2 <- get (fun h => pitch_at h n2);
   do _ <- set_pitch n1 p2;
   set_pitch n2 p1) w = Ok (tt, w') ->
  notes_at (heap w') c = notes_at (heap w) c
  /\ rand w' = rand w
  /\ forall n, pitch_or (heap w') n = pitch_or (heap w) (transpose n1 n2 n).
Proof.
  intros H.
  apply bind_Ok in H. destruct H as (p1 & s1 & G1 & H).
  apply get_pitch_Ok in G1 as (-> & _ & E1).
  apply bind_Ok in H. destruct H as (p2 & s2 & G2 & H).
  apply get_pitch_Ok in G2 as (-> & _ & E2).
  apply bind_Ok in H. destruct H as ([] & s3 & S1 & S2).
  apply set_pitch_Ok in S1 as (q1 & d1 & L1 & ->).
  apply set_pitch_Ok in S2 as (q2 & d2 & L2 & ->).
  cbn [heap rand] in *.
  assert (Hlt1 : (n1 < List.length (heap w))%nat)
    by (eapply lookup_lt_Some, L1).
  assert (Hlt2 : (n2 < List.length (<[n1 := ONote p2 d1]> (heap w)))%nat)
    by (eapply lookup_lt_Some, L2).
  split; [|split; [reflexivity|]].
  - rewrite (notes_at_set_pitch _ n2 c p1 q2 d2 L2).
    exact (notes_at_set_pitch _ n1 c p2 q1 d1 L1).
  - intros n. rewrite pitch_or_insert by exact Hlt2.
    rewrite pitch_or_insert by exact Hlt1. unfold transpose.
    destruct (decide (n = n2)) as [->|Hn2].
    + destruct (decide (n2 = n1)) as [->|_]; [exact (eq_sym E1)|].
      exact (eq_sym E1).
    + destruct (decide (n = n1)) as [->|Hn1]; [exact (eq_sym E2)|].
      reflexivity.
Qed.

Lemma transpose_involutive (a b n : loc) :
  transpose a b (transpose a b n) = n.
Proof.
  unfold transpose.
  repeat (destruct (decide _); subst; try congruence).
Qed.

Lemma transpose_Permutation (a b : loc) (N : list loc) :
  List.NoDup N -> In a N -> In b N ->
  Permutation (List.map (transpose a b) N) N.
Proof.
  intros Hnd Ha Hb. apply Permutation_map_same_l.
  - apply Finite.Injective_map_NoDup; [|exact Hnd].
    intros x y E. apply (f_equal (transpose a b)) in E.
    now rewrite !transpose_involutive in E.
  - intros x Hx. apply List.in_map_iff in Hx as (y & <- & Hy).
    unfold transpose. repeat (destruct (decide _)); assumption.
Qed.

Lemma swaps_run (c : loc) (N : list loc) (batches : list (loc * loc)) :
  List.NoDup N ->
  (forall x y, In (x, y) batches -> In x N /\ In y N) ->
  forall w w',
    for_each batches
      (fun '(note_1, note_2) =>
         do p1 <- get (fun h => pitch_at h note_1);
         do p2 <- get (fun h => pitch_at h note_2);
         do _ <- set_pitch note_1 p2;
         set_pitch note_2 p1) w = Ok (tt, w') ->
    notes_at (heap w') c = notes_at (heap w) c
    /\ rand w' = rand w
    /\ Permutation (List.map (pitch_or (heap w')) N)
         (List.map (pitch_or (heap w)) N).
Proof.
  intros Hnd. induction batches as [|[n1 n2] t IH]; intros Hin w w' H.
  - cbn [for_each] in H. unfold ret in H. injection H as <-. auto.
  - cbn [for_each] in H.
    apply bind_Ok in H. destruct H as ([] & w1 & Hswap & H).
    destruct (swap_run c n1 n2 w w1 Hswap) as (Hn1 & Hr1 & Hp1).
    destruct (IH (fun x y Hxy => Hin x y (or_intror Hxy)) w1 w' H)
      as (Hn & Hr & Hp).
    destruct (Hin n1 n2 (or_introl eq_refl)) as [Hi1 Hi2].
    split; [congruence|]. split; [congruence|].
    rewrite Hp.
    rewrite (List.map_ext _ _ Hp1 N), <- List.map_map.
    apply Permutation_map, transpose_Permutation; assumption.
Qed.

Lemma pairs_of_In (l : list loc) :
  (forall (w w' : World) ps,
     pairs_of l w = Ok (ps, w') ->
     w' = w /\ forall x y, In (x, y) ps -> In x l /\ In y l)
  /\ forall z (w w' : World) ps,
       pairs_of (z :: l) w = Ok (ps, w') ->
       w' = w /\ forall x y, In (x, y) ps -> In x (z :: l) /\ In y (z :: l).
Proof.
  induction l as [|y t [IH1 IH2]].
  - split.
    + intros w w' ps H. cbn in H. inv_ret H. split; [reflexivity|].
      intros ? ? [].
    + intros z w w' ps H. discriminate.
  - split; [apply IH2|]. intros z w w' ps H.
    change (pairs_of (z :: y :: t))
      with (do rest <- @pairs_of World loc t; ret ((z, y) :: rest)) in H.
    apply bind_Ok in H. destruct H as (rest & w1 & Hrest & H).
    inv_ret H. destruct (IH1 _ _ _ Hrest) as [-> Hin].
    split; [reflexivity|]. intros x1 y1 [E|Hx].
    + injection E as <- <-. split; [now left | right; now left].
    + destruct (Hin _ _ Hx). split; right; right; assumption.
Qed.

Lemma NoDup_note_positions (evs : list Event) :
  forall base, List.NoDup (note_positions base evs).
Proof.
  induction evs as [|[p d|d] t IH]; intros base; cbn [note_positions].
  - constructor.
  - constructor; [|apply IH]. intros Hin.
    pose proof (note_positions_ge t (S base)) as Hge.
    rewrite List.Forall_forall in Hge. specialize (Hge _ Hin). lia.
  - apply IH.
Qed.

Lemma notes_events (h : Heap) (c : loc) (N : list loc) :
  notes_at h c = Some N ->
  exists evs, events_at h c = Some evs
              /\ pitches_of evs = List.map (pitch_or h) N.
Proof.
  unfold notes_at, events_at. intros Hn.
  destruct (elements_at h c) as [els|]; [|discriminate].
  destruct (note_locs_events _ _ _ Hn) as (evs & He & Hall).
  exists evs. split; [exact He|].
  clear He Hn. induction Hall as [|n q ns qs Hq _ IH]; [reflexivity|].
  cbn [List.map]. unfold pitch_or at 1. rewrite Hq. now f_equal.
Qed.

Lemma laid_out_pitches {offs : list Q} (h tail : Heap) (evs : list Event) :
  pitches_of evs
  = List.map (pitch_or (h ++ List.map obj_of evs
                        ++ OStream (seq (List.length h) (List.length evs))
                             offs :: tail))
      (note_positions (List.length h) evs).
Proof.
  destruct (notes_events _ _ _ (notes_at_laid_out (offs := offs) h tail evs))
    as (evs0 & He & Hp).
  rewrite events_at_laid_out in He. injection He as <-. exact Hp.
Qed.

(** X21: whenever [SwapPitch] returns, the pitches of the melody it
    returns are those of the input melody in another order: exchanging
    pitches in pairs loses none and adds none, counted with repetitions. *)
Theorem SwapPitch_permutes (w w' : World) (m result : loc) (evs : list Event)
    (amount_mode : AmountMode) (amount : option Z) :
  events_at (heap w) m = Some evs ->
  SwapPitch m amount_mode amount w = Ok (result, w') ->
  exists evs',
    events_at (heap w') result = Some evs'
    /\ Permutation (pitches_of evs') (pitches_of evs).
Proof.
  intros Hm H. unfold SwapPitch in H.
  pose proof (melody_length_laid_out (offs := stored_offsets (heap w) m)
                (heap w) [] evs (rand w)) as Hl.
  cbv zeta in Hl.
  rewrite (bind_step _ _ _ _ _ (deepcopy_run m w evs Hm)) in H.
  rewrite (bind_step _ _ _ _ _ Hl) in H. cbv zeta in H.
  apply bind_Ok in H. destruct H as (ra & w1 & Hra & H).
  apply liftR_Ok in Hra as (r1 & _ & ->). cbn [heap rand] in H.
  destruct (_ <? 2)%Z in H; [discriminate|].
  destruct (amount_unset _) in H; [discriminate|].
  set (h := heap w) in *.
  set (c := (List.length h + List.length evs)%nat) in *.
  set (N := note_positions (List.length h) evs).
  set (h1 := h ++ List.map obj_of evs
             ++ [OStream (seq (List.length h) (List.length evs))
                   (stored_offsets h m)]) in *.
  assert (Hn1 : notes_at h1 c = Some N) by apply notes_at_laid_out.
  assert (En : melody_notes c (mkWorld h1 r1) = Ok (N, mkWorld h1 r1)).
  { unfold melody_notes, get. cbn [heap]. now rewrite Hn1. }
  rewrite (bind_step _ _ _ _ _ En) in H.
  apply bind_Ok in H. destruct H as (picked & w2 & Hpick & H).
  destruct (amount_for _ _ _ _ _) as [a|] in Hpick; [|discriminate].
  apply liftR_Ok in Hpick as (r2 & Hpick & ->). cbn [heap rand] in H.
  apply (fun E => sample_incl _ _ _ _ _ (fun n => In n N) E
                    (proj2 (List.Forall_forall _ _) (fun x Hx => Hx)))
    in Hpick.
  apply bind_Ok in H. destruct H as (shuffled & w3 & Hsh & H).
  apply liftR_Ok in Hsh as (r3 & Hsh & ->). cbn [heap rand] in H.
  apply (fun E => shuffle_incl _ _ _ _ (fun n => In n N) E Hpick) in Hsh.
  apply bind_Ok in H. destruct H as (batches & w4 & Hb & H).
  apply (proj1 (pairs_of_In shuffled)) in Hb as [-> Hb].
  apply bind_Ok in H. destruct H as ([] & w5 & Hswaps & H). inv_ret H.
  rewrite List.Forall_forall in Hsh.
  destruct (swaps_run c N batches (NoDup_note_positions evs _)
              (fun x y Hxy => conj (Hsh x (proj1 (Hb x y Hxy)))
                                   (Hsh y (proj2 (Hb x y Hxy))))
              _ _ Hswaps) as (Hn & _ & Hp).
  cbn [heap] in Hn, Hp. rewrite Hn1 in Hn.
  destruct (notes_events _ _ _ Hn) as (evs' & He & Hq).
  exists evs'. split; [exact He|].
  rewrite Hq, Hp. subst N h1. now rewrite <- laid_out_pitches.
Qed.


Lemma SwapPitch_permutes_witness :
  exists evs',
    events_at
      (heap (state_after (SwapPitch sample_melody AMinimum None) sample_world))
      (value_of (SwapPitch sample_melody AMinimum None) sample_world 0%nat)
    = Some evs'
    /\ Permutation (pitches_of evs')
         (pitches_of [Note pitch_C 1; Rest 1; Note pitch_D 2; Note pitch_E 1]).
Proof.
  apply (SwapPitch_permutes sample_world
           (state_after (SwapPitch sample_melody AMinimum None) sample_world)
           sample_melody
           (value_of (SwapPitch sample_melody AMinimum None) sample_world 0%nat)
           [Note pitch_C 1; Rest 1; Note pitch_D 2; Note pitch_E 1]
           AMinimum None);
    vm_compute; reflexivity.
Defined.

Lemma item_Ok {A} (l : list A) (i : nat) (w w' : World) (x d : A) :
  item l i w = Ok (x, w') -> w' = w /\ nth i l d = x /\ In x l.
Proof.
  unfold item. destruct (l !! i) as [y|] eqn:E; [|discriminate].
  intros H. inv_ret H. split; [reflexivity|]. split.
  - rewrite nth_lookup, E. reflexivity.
  - apply list_elem_of_In. eapply list_elem_of_lookup_2, E.
Qed.

(** The first loop of [ShufflePitch] reads the pitches and changes
    nothing. *)
Lemma read_run (ns : list loc) (indexes : list Z) :
  forall (w w' : World) (vals : list Pitch),
    traverse (fun si => do n <- item ns (Z.to_nat si);
                        get (fun h => pitch_at h n)) indexes w
    = Ok (vals, w') ->
    w' = w
    /\ vals = List.map (fun si => pitch_or (heap w)
                                    (nth (Z.to_nat si) ns 0%nat)) indexes.
Proof.
  induction indexes as [|si t IH]; intros w w' vals H; cbn [traverse] in H.
  - inv_ret H. auto.
  - apply bind_Ok in H. destruct H as (p & w1 & Hp & H).
    apply bind_Ok in Hp. destruct Hp as (n & w0 & Hn & Hp).
    apply (item_Ok _ _ _ _ _ 0%nat) in Hn as (-> & Hn & _).
    apply get_pitch_Ok in Hp as (-> & _ & Hp).
    apply bind_Ok in H. destruct H as (ps & w2 & Ht & H). inv_ret H.
    destruct (IH _ _ _ Ht) as [-> ->].
    split; [reflexivity|]. subst n p. reflexivity.
Qed.

(** The second loop of [ShufflePitch] writes the pitches at the chosen
    notes and touches nothing else. *)
Lemma write_run (c : loc) (ns : list loc) (indexes : list Z) :
  forall (vals : list Pitch) (w w' : World),
    List.length vals = List.length indexes ->
    for_each (combine indexes vals)
      (fun '(note_index, shuffled_pitch) =>
         do n <- item ns (Z.to_nat note_index);
         set_pitch n shuffled_pitch) w = Ok (tt, w') ->
    notes_at (heap w') c = notes_at (heap w) c
    /\ rand w' = rand w
    /\ (forall n, ~ In n (List.map (fun i => nth (Z.to_nat i) ns 0%nat) indexes)
                  -> pitch_or (heap w') n = pitch_or (heap w) n)
    /\ (List.NoDup (List.map (fun i => nth (Z.to_nat i) ns 0%nat) indexes) ->
        List.map (pitch_or (heap w'))
          (List.map (fun i => nth (Z.to_nat i) ns 0%nat) indexes) = vals).
Proof.
  induction indexes as [|i t IH]; intros vals w w' Hlen H.
  - destruct vals; [|discriminate]. cbn in H. unfold ret in H.
    injection H as <-. auto.
  - destruct vals as [|v vals]; [discriminate|].
    cbn [combine for_each] in H.
    apply bind_Ok in H. destruct H as ([] & w1 & Hset & H).
    apply bind_Ok in Hset. destruct Hset as (n & w0 & Hn & Hset).
    apply (item_Ok _ _ _ _ _ 0%nat) in Hn as (-> & Hn & _).
    apply set_pitch_Ok in Hset as (q & d & Hl & ->).
    assert (Hlt : (n < List.length (heap w))%nat)
      by (eapply lookup_lt_Some, Hl).
    destruct (IH vals _ _ ltac:(simpl in Hlen; lia) H)
      as (Hnotes & Hrand & Hout & Hin).
    cbn [heap rand] in *. rewrite !List.map_cons. unfold loc in *.
    rewrite Hn.
    split; [|split; [exact Hrand|split]].
    + rewrite Hnotes. exact (notes_at_set_pitch _ n c v q d Hl).
    + intros x Hx. rewrite Hout by (intros Hc; apply Hx; now right).
      rewrite pitch_or_insert by exact Hlt.
      destruct (decide _) as [->|_]; [|reflexivity].
      exfalso. apply Hx. now left.
    + intros Hnd. inversion Hnd as [|? ? Hnotin Hnd']; subst.
      f_equal; [|exact (Hin Hnd')].
      rewrite (Hout _ Hnotin), pitch_or_insert by exact Hlt.
      destruct (decide _); congruence.
Qed.

Lemma scatter_Permutation (f f' : loc -> Pitch) (N T S : list loc) :
  List.NoDup N -> List.NoDup T -> incl T N -> Permutation S T ->
  List.map f' T = List.map f S ->
  (forall n, ~ In n T -> f' n = f n) ->
  Permutation (List.map f' N) (List.map f N).
Proof.
  intros HN HT Hincl HS Hmap Hout.
  set (R := List.filter (fun n => negb (existsb (Nat.eqb n) T)) N).
  assert (HR : forall n, In n R <-> In n N /\ ~ In n T).
  { intros n. subst R. rewrite List.filter_In, negb_true_iff.
    split; intros [H1 H2]; (split; [exact H1|]).
    - intros Hin. assert (E : existsb (Nat.eqb n) T = true).
      { apply existsb_exists. exists n. split; [exact Hin|].
        apply Nat.eqb_refl. }
      congruence.
    - destruct (existsb (Nat.eqb n) T) eqn:E; [|reflexivity].
      apply existsb_exists in E as (x & Hx & Hxn).
      apply Nat.eqb_eq in Hxn. subst x. contradiction. }
  assert (HP : Permutation N (T ++ R)).
  { apply Permutation.NoDup_Permutation; [exact HN| |].
    - apply List.NoDup_app; [exact HT | apply List.NoDup_filter, HN |].
      intros a Ha HaR. apply HR in HaR as [_ HaR]. contradiction.
    - intros x. rewrite in_app_iff, HR. split.
      + intros Hx. destruct (in_dec Nat.eq_dec x T); auto.
      + intros [Hx|[Hx _]]; auto. }
  rewrite (Permutation_map f' HP), (Permutation_map f HP).
  rewrite !List.map_app, Hmap.
  apply Permutation_app.
  - apply Permutation_map, HS.
  - assert (E : List.map f' R = List.map f R).
    { apply List.map_ext_in. intros n Hn. apply Hout, HR, Hn. }
    now rewrite E.
Qed.

Lemma sample_NoDup_In {A} (l : list A) (k : Z) r res r' :
  sample l k r = Ok (res, r') -> List.NoDup l ->
  List.NoDup res /\ forall x, In x res -> In x l.
Proof.
  unfold sample. destruct (_ || _); [discriminate|]. intros H Hnd. split.
  - eapply sample_go_NoDup; eassumption.
  - intros x Hx. eapply sample_go_In; eassumption.
Qed.

(** X22: whenever [ShufflePitch] returns, the pitches of the melody it
    returns are those of the input melody in another order, counted with
    repetitions: the chosen notes receive the pitches of the same notes,
    read before any of them is written. *)
Theorem ShufflePitch_permutes (w w' : World) (m result : loc)
    (evs : list Event) (amount_mode : AmountMode) (amount : option Z) :
  events_at (heap w) m = Some evs ->
  ShufflePitch m amount_mode amount w = Ok (result, w') ->
  exists evs',
    events_at (heap w') result = Some evs'
    /\ Permutation (pitches_of evs') (pitches_of evs).
Proof.
  intros Hm H. unfold ShufflePitch in H.
  pose proof (melody_length_laid_out (offs := stored_offsets (heap w) m)
                (heap w) [] evs (rand w)) as Hl.
  cbv zeta in Hl.
  rewrite (bind_step _ _ _ _ _ (deepcopy_run m w evs Hm)) in H.
  rewrite (bind_step _ _ _ _ _ Hl) in H. cbv zeta in H.
  apply bind_Ok in H. destruct H as (ra & w1 & Hra & H).
  apply liftR_Ok in Hra as (r1 & _ & ->). cbn [heap rand] in H.
  set (h := heap w) in *.
  set (c := (List.length h + List.length evs)%nat) in *.
  set (N := note_positions (List.length h) evs).
  set (h1 := h ++ List.map obj_of evs
             ++ [OStream (seq (List.length h) (List.length evs))
                   (stored_offsets h m)]) in *.
  assert (Hn1 : notes_at h1 c = Some N) by apply notes_at_laid_out.
  destruct (_ <? 2)%Z in H.
  { inv_ret H. cbn [heap]. exists evs. split; [|reflexivity].
    apply events_at_laid_out. }
  destruct (amount_unset _) in H; [discriminate|].
  destruct (amount_for _ _ _ _ _) as [a|] in H; [|discriminate].
  destruct (_ <? a)%Z in H; [discriminate|].
  assert (En : melody_notes c (mkWorld h1 r1) = Ok (N, mkWorld h1 r1)).
  { unfold melody_notes, get. cbn [heap]. now rewrite Hn1. }
  rewrite (bind_step _ _ _ _ _ En) in H.
  apply bind_Ok in H. destruct H as (idx & w2 & Hidx & H).
  apply liftR_Ok in Hidx as (r2 & Hidx & ->). cbn [heap rand] in H.
  apply sample_NoDup_In in Hidx as [Hnd Hrange];
    [|apply NoDup_py_range].
  apply bind_Ok in H. destruct H as (sidx & w3 & Hsh & H).
  apply liftR_Ok in Hsh as (r3 & Hsh & ->). cbn [heap rand] in H.
  apply shuffle_Permutation in Hsh.
  apply bind_Ok in H. destruct H as (vals & w4 & Hread & H).
  apply read_run in Hread as [-> Hvals]. cbn [heap] in Hvals.
  apply bind_Ok in H. destruct H as ([] & w5 & Hwrite & H). inv_ret H.
  assert (Hlen : List.length vals = List.length idx).
  { rewrite Hvals, List.length_map. now apply Permutation_length. }
  destruct (write_run c N idx vals _ _ Hlen Hwrite)
    as (Hn & _ & Hout & Hin).
  cbn [heap] in Hn, Hout, Hin. rewrite Hn1 in Hn.
  set (g := fun i : Z => nth (Z.to_nat i) N 0%nat) in *.
  assert (HN : List.NoDup N) by apply NoDup_note_positions.
  assert (Hbound : forall i, In i idx ->
                     (Z.to_nat i < List.length N)%nat /\ (0 <= i)%Z).
  { intros i Hi. apply Hrange, In_py_range in Hi.
    subst N. rewrite length_note_positions. lia. }
  assert (HT : List.NoDup (List.map g idx)).
  { apply Finite.Injective_map_NoDup_in; [|exact Hnd].
    intros x y Hx Hy E. subst g. cbv beta in E.
    destruct (Hbound x Hx), (Hbound y Hy).
    apply (proj1 (List.NoDup_nth N 0%nat) HN) in E; lia. }
  destruct (notes_events _ _ _ Hn) as (evs' & He & Hq).
  exists evs'. split; [exact He|].
  rewrite Hq, (laid_out_pitches (offs := stored_offsets h m) h [] evs). fold h1 N.
  apply (scatter_Permutation _ _ N (List.map g idx) (List.map g sidx)).
  - exact HN.
  - exact HT.
  - intros n Hn'. apply List.in_map_iff in Hn' as (i & <- & Hi).
    apply nth_In, Hbound, Hi.
  - apply Permutation_map. exact Hsh.
  - rewrite (Hin HT), Hvals, List.map_map. reflexivity.
  - exact Hout.
Qed.

Lemma ShufflePitch_permutes_witness :
  exists evs',
    events_at
      (heap (state_after (ShufflePitch sample_melody AMaximum None)
               sample_world))
      (value_of (ShufflePitch sample_melody AMaximum None) sample_world 0%nat)
    = Some evs'
    /\ Permutation (pitches_of evs')
         (pitches_of [Note pitch_C 1; Rest 1; Note pitch_D 2; Note pitch_E 1]).
Proof.
  apply (ShufflePitch_permutes sample_world
           (state_after (ShufflePitch sample_melody AMaximum None)
              sample_world)
           sample_melody
           (value_of (ShufflePitch sample_melody AMaximum None)
              sample_world 0%nat)
           [Note pitch_C 1; Rest 1; Note pitch_D 2; Note pitch_E 1]
           AMaximum None);
    vm_compute; reflexivity.
Defined.


(** ** [RemapPitch] renames the pitches *)

Lemma dict_item_Ok (mapping : list (Pitch * Pitch)) (p q : Pitch)
    (w w' : World) :
  dict_item mapping p w = Ok (q, w') -> w' = w /\ q = remap mapping p.
Proof.
  induction mapping as [|[k v] t IH]; cbn [dict_item remap]; intros H.
  - discriminate.
  - destruct (pitch_eqb k p); [inv_ret H; auto | exact (IH H)].
Qed.

Lemma remap_combine_In (D : list Pitch) :
  forall (Sh : list Pitch) (p : Pitch),
    List.length D = List.length Sh -> In p D ->
    In (remap (combine D Sh) p) Sh.
Proof.
  induction D as [|k D' IH]; intros Sh p Hlen Hp; [destruct Hp|].
  destruct Sh as [|v Sh']; [discriminate|]. cbn [combine remap].
  unfold pitch_eqb. destruct (bool_decide_reflect (k = p)) as [_|Hne].
  - now left.
  - right. apply IH; [simpl in Hlen; lia|].
    destruct Hp as [Hp|Hp]; [contradiction | exact Hp].
Qed.

Lemma remap_inj (D : list Pitch) :
  forall (Sh : list Pitch) (p q : Pitch),
    List.NoDup Sh -> List.length D = List.length Sh ->
    In p D -> In q D ->
    remap (combine D Sh) p = remap (combine D Sh) q -> p = q.
Proof.
  induction D as [|k D' IH]; intros Sh p q Hnd Hlen Hp Hq E; [destruct Hp|].
  destruct Sh as [|v Sh']; [discriminate|].
  inversion Hnd as [|? ? Hv Hnd']; subst.
  assert (Hlen' : List.length D' = List.length Sh') by (simpl in Hlen; lia).
  cbn [combine remap] in E. unfold pitch_eqb in E.
  destruct (bool_decide_reflect (k = p)) as [<-|Hnp],
           (bool_decide_reflect (k = q)) as [<-|Hnq].
  - reflexivity.
  - exfalso. apply Hv. rewrite E. apply remap_combine_In; [exact Hlen'|].
    destruct Hq as [Hq|Hq]; [contradiction | exact Hq].
  - exfalso. apply Hv. rewrite <- E. apply remap_combine_In; [exact Hlen'|].
    destruct Hp as [Hp|Hp]; [contradiction | exact Hp].
  - apply (IH Sh'); try assumption.
    + destruct Hp as [Hp|Hp]; [contradiction | exact Hp].
    + destruct Hq as [Hq|Hq]; [contradiction | exact Hq].
Qed.

Lemma read_pitches_run (T : list loc) :
  forall (w w' : World) (vals : list Pitch),
    traverse (fun n => get (fun h => pitch_at h n)) T w = Ok (vals, w') ->
    w' = w /\ vals = List.map (pitch_or (heap w)) T.
Proof.
  induction T as [|n t IH]; intros w w' vals H; cbn [traverse] in H.
  - inv_ret H. auto.
  - apply bind_Ok in H. destruct H as (p & w1 & Hp & H).
    apply get_pitch_Ok in Hp as (-> & _ & Hp).
    apply bind_Ok in H. destruct H as (ps & w2 & Ht & H). inv_ret H.
    destruct (IH _ _ _ Ht) as [-> ->].
    split; [reflexivity|]. subst p. reflexivity.
Qed.

(** The loop of [RemapPitch]: every chosen note gets the image of its own
    pitch, the other notes are left alone. *)
Lemma remap_run (c : loc) (mapping : list (Pitch * Pitch)) (T : list loc) :
  forall (w w' : World),
    List.NoDup T ->
    for_each T (fun note =>
                  do p <- get (fun h => pitch_at h note);
                  do q <- dict_item mapping p;
                  set_pitch note q) w = Ok (tt, w') ->
    notes_at (heap w') c = notes_at (heap w) c
    /\ (forall n, ~ In n T -> pitch_or (heap w') n = pitch_or (heap w) n)
    /\ (forall n, In n T ->
          pitch_or (heap w') n = remap mapping (pitch_or (heap w) n)).
Proof.
  induction T as [|t T' IH]; intros w w' Hnd H.
  - cbn in H. unfold ret in H. injection H as <-.
    split; [reflexivity|]. split; [reflexivity | intros n []].
  - cbn [for_each] in H. inversion Hnd as [|? ? Ht Hnd']; subst.
    apply bind_Ok in H. destruct H as ([] & w1 & Hstep & H).
    apply bind_Ok in Hstep. destruct Hstep as (p & w0 & Hp & Hstep).
    apply get_pitch_Ok in Hp as (-> & _ & Hp).
    apply bind_Ok in Hstep. destruct Hstep as (q & w0 & Hq & Hset).
    apply dict_item_Ok in Hq as [-> Hq].
    apply set_pitch_Ok in Hset as (q0 & d & Hl & ->).
    assert (Hlt : (t < List.length (heap w))%nat)
      by (eapply lookup_lt_Some, Hl).
    destruct (IH _ _ Hnd' H) as (Hnotes & Hout & Hin).
    cbn [heap] in *. split; [|split].
    + rewrite Hnotes. exact (notes_at_set_pitch _ t c q q0 d Hl).
    + intros n Hn. rewrite Hout by (intros Hc; apply Hn; now right).
      rewrite pitch_or_insert by exact Hlt.
      destruct (decide _) as [->|_]; [|reflexivity].
      exfalso. apply Hn. now left.
    + intros n [<-|Hn].
      * rewrite (Hout _ Ht), pitch_or_insert by exact Hlt.
        destruct (decide _); congruence.
      * rewrite (Hin n Hn), pitch_or_insert by exact Hlt.
        destruct (decide _) as [->|_]; [contradiction | reflexivity].
Qed.

Lemma Forall2_map_same {A B} (R : B -> B -> Prop) (f f' : A -> B)
    (l : list A) :
  (forall x, In x l -> R (f' x) (f x)) ->
  Forall2 R (List.map f' l) (List.map f l).
Proof.
  induction l as [|x t IH]; intros H; cbn [List.map]; constructor.
  - apply H. now left.
  - apply IH. intros y Hy. apply H. now right.
Qed.

Lemma sample_length {A} (l : list A) (k : Z) r res r' :
  sample l k r = Ok (res, r') -> List.length res = Z.to_nat k.
Proof.
  unfold sample. destruct (_ || _); [discriminate|]. intros H.
  now apply sample_go_spec in H as [H _].
Qed.

(** X23: whenever [RemapPitch] returns, the result is the input with its
    pitches renamed.  There is a renaming of the pitches of the chosen
    notes among themselves, one to one, such that every note either keeps
    its pitch or carries the new name of the pitch it had: notes chosen
    with equal pitches stay equal and notes chosen with different pitches
    stay different.  In [Maximum] mode every note is renamed. *)
Theorem RemapPitch_renames (w w' : World) (m result : loc)
    (evs : list Event) (amount_mode : AmountMode) (amount : option Z) :
  events_at (heap w) m = Some evs ->
  RemapPitch m amount_mode amount w = Ok (result, w') ->
  exists evs' (sigma : Pitch -> Pitch) (changed : list Pitch),
    events_at (heap w') result = Some evs'
    /\ (forall p q, In p changed -> In q changed ->
                    sigma p = sigma q -> p = q)
    /\ (forall p, In p changed -> In (sigma p) changed)
    /\ Forall2 (fun p' p => p' = p \/ (In p changed /\ p' = sigma p))
         (pitches_of evs') (pitches_of evs)
    /\ (amount_mode = AMaximum ->
        pitches_of evs' = List.map sigma (pitches_of evs)).
Proof.
  intros Hm H. unfold RemapPitch in H.
  pose proof (melody_length_laid_out (offs := stored_offsets (heap w) m)
                (heap w) [] evs (rand w)) as Hl.
  cbv zeta in Hl.
  rewrite (bind_step _ _ _ _ _ (deepcopy_run m w evs Hm)) in H.
  rewrite (bind_step _ _ _ _ _ Hl) in H. cbv zeta in H.
  apply bind_Ok in H. destruct H as (ra & w1 & Hra & H).
  apply liftR_Ok in Hra as (r1 & _ & ->). cbn [heap rand] in H.
  set (h := heap w) in *.
  set (c := (List.length h + List.length evs)%nat) in *.
  set (N := note_positions (List.length h) evs).
  set (h1 := h ++ List.map obj_of evs
             ++ [OStream (seq (List.length h) (List.length evs))
                   (stored_offsets h m)]) in *.
  assert (Hn1 : notes_at h1 c = Some N) by apply notes_at_laid_out.
  destruct (_ <? 2)%Z in H.
  { inv_ret H. cbn [heap]. exists evs, (fun p => p), [].
    split; [apply events_at_laid_out|].
    split; [intros ? ? []|]. split; [intros ? []|]. split.
    - clear. induction (pitches_of evs); constructor; auto.
    - intros _. now rewrite List.map_id. }
  destruct (amount_unset _) in H; [discriminate|].
  destruct (amount_for _ _ _ _ _) as [a|] eqn:Ea in H; [|discriminate].
  destruct (_ <? a)%Z in H; [discriminate|].
  assert (En : melody_notes c (mkWorld h1 r1) = Ok (N, mkWorld h1 r1)).
  { unfold melody_notes, get. cbn [heap]. now rewrite Hn1. }
  rewrite (bind_step _ _ _ _ _ En) in H.
  apply bind_Ok in H. destruct H as (T & w2 & HT & H).
  apply liftR_Ok in HT as (r2 & HT & ->). cbn [heap rand] in H.
  pose proof (sample_length _ _ _ _ _ HT) as HTlen.
  apply sample_NoDup_In in HT as [HTnd HTin];
    [|apply NoDup_note_positions].
  apply bind_Ok in H. destruct H as (vals & w3 & Hread & H).
  apply read_pitches_run in Hread as [-> Hvals]. cbn [heap] in Hvals.
  cbv zeta in H.
  set (D := distinct vals) in *.
  apply bind_Ok in H. destruct H as (Sh & w4 & Hsh & H).
  apply liftR_Ok in Hsh as (r3 & Hsh & ->). cbn [heap rand] in H.
  apply shuffle_Permutation in Hsh.
  apply bind_Ok in H. destruct H as ([] & w5 & Hloop & H). inv_ret H.
  destruct (remap_run c (combine D Sh) T _ _ HTnd Hloop)
    as (Hn & Hout & Hin).
  cbn [heap] in Hn, Hout, Hin. rewrite Hn1 in Hn.
  assert (HD : List.NoDup D)
    by (subst D; apply NoDup_ListNoDup, NoDup_remove_dups).
  assert (HSh : List.NoDup Sh)
    by (apply (Permutation_NoDup (Permutation_sym Hsh)), HD).
  assert (Hlen : List.length D = List.length Sh)
    by (symmetry; apply Permutation_length, Hsh).
  assert (HDin : forall n, In n T -> In (pitch_or h1 n) D).
  { intros n Hn'. subst D. apply In_distinct. rewrite Hvals.
    apply List.in_map, Hn'. }
  destruct (notes_events _ _ _ Hn) as (evs' & He & Hq).
  exists evs', (remap (combine D Sh)), D.
  split; [exact He|]. split; [|split; [|split]].
  - intros p q Hp Hq'. now apply remap_inj.
  - intros p Hp. apply (Permutation_in _ Hsh).
    now apply remap_combine_In.
  - rewrite Hq, (laid_out_pitches (offs := stored_offsets h m) h [] evs). fold h1 N.
    apply Forall2_map_same. intros n Hn'.
    destruct (in_dec Nat.eq_dec n T) as [Hyes|Hno].
    + right. split; [apply HDin, Hyes | apply Hin, Hyes].
    + left. apply Hout, Hno.
  - intros ->. cbn [amount_for] in Ea. injection Ea as <-.
    assert (Hall : incl N T).
    { apply List.NoDup_length_incl; [exact HTnd| |exact HTin].
      rewrite HTlen, Nat2Z.id. subst N.
      now rewrite length_note_positions. }
    rewrite Hq, (laid_out_pitches (offs := stored_offsets h m) h [] evs). fold h1 N.
    rewrite List.map_map. apply List.map_ext_in.
    intros n Hn'. apply Hin, Hall, Hn'.
Qed.

Lemma RemapPitch_renames_witness :
  exists evs' (sigma : Pitch -> Pitch) (changed : list Pitch),
    events_at
      (heap (state_after (RemapPitch sample_melody AMaximum None)
               sample_world))
      (value_of (RemapPitch sample_melody AMaximum None) sample_world 0%nat)
    = Some evs'
    /\ (forall p q, In p changed -> In q changed ->
                    sigma p = sigma q -> p = q)
    /\ (forall p, In p changed -> In (sigma p) changed)
    /\ Forall2 (fun p' p => p' = p \/ (In p changed /\ p' = sigma p))
         (pitches_of evs')
         (pitches_of [Note pitch_C 1; Rest 1; Note pitch_D 2; Note pitch_E 1])
    /\ (AMaximum = AMaximum ->
        pitches_of evs'
        = List.map sigma
            (pitches_of [Note pitch_C 1; Rest 1; Note pitch_D 2;
                         Note pitch_E 1])).
Proof.
  apply (RemapPitch_renames sample_world
           (state_after (RemapPitch sample_melody AMaximum None) sample_world)
           sample_melody
           (value_of (RemapPitch sample_melody AMaximum None)
              sample_world 0%nat)
           [Note pitch_C 1; Rest 1; Note pitch_D 2; Note pitch_E 1]
           AMaximum None);
    vm_compute; reflexivity.
Defined.


(** ** [ChangePitch] changes a bounded number of notes *)

(** The loop of [ChangePitch]: only the picked notes are written. *)
Lemma change_run (c : loc) (pitches : list Pitch) (picked : list loc) :
  forall (w w' : World),
    for_each picked (fun note =>
                       do random_pitch <- liftR (choice pitches);
                       set_pitch note random_pitch) w = Ok (tt, w') ->
    notes_at (heap w') c = notes_at (heap w) c
    /\ forall n, ~ In n picked -> pitch_or (heap w') n = pitch_or (heap w) n.
Proof.
  induction picked as [|t T IH]; intros w w' H.
  - cbn in H. unfold ret in H. injection H as <-. auto.
  - cbn [for_each] in H.
    apply bind_Ok in H. destruct H as ([] & w1 & Hstep & H).
    apply bind_Ok in Hstep. destruct Hstep as (p & w0 & Hp & Hset).
    apply liftR_Ok in Hp as (r' & _ & ->).
    apply set_pitch_Ok in Hset as (q & d & Hl & ->). cbn [heap rand] in *.
    assert (Hlt : (t < List.length (heap w))%nat)
      by (eapply lookup_lt_Some, Hl).
    destruct (IH _ _ H) as (Hnotes & Hout). cbn [heap] in *. split.
    + rewrite Hnotes. exact (notes_at_set_pitch _ t c p q d Hl).
    + intros n Hn. rewrite Hout by (intros Hc; apply Hn; now right).
      rewrite pitch_or_insert by exact Hlt.
      destruct (decide _) as [->|_]; [|reflexivity].
      exfalso. apply Hn. now left.
Qed.

Lemma changed_count_bound (f f' : loc -> Pitch) (N picked : list loc) :
  List.NoDup N ->
  (forall n, ~ In n picked -> f' n = f n) ->
  (changed_count (List.map f' N) (List.map f N) <= List.length picked)%nat.
Proof.
  intros HN Hout. unfold changed_count.
  set (differs := fun n : loc => negb (pitch_eqb (f' n) (f n))).
  assert (E : List.filter (fun '(a, b) => negb (pitch_eqb a b))
                (combine (List.map f' N) (List.map f N))
              = List.map (fun n => (f' n, f n)) (List.filter differs N)).
  { clear. induction N as [|n t IH]; [reflexivity|].
    cbn [List.map combine List.filter]. subst differs. cbv beta.
    destruct (negb (pitch_eqb (f' n) (f n))); cbn [List.map]; now rewrite IH. }
  rewrite E, List.length_map.
  apply List.NoDup_incl_length; [apply List.NoDup_filter, HN|].
  intros n Hn. apply List.filter_In in Hn as [_ Hn]. subst differs.
  cbv beta in Hn.
  destruct (in_dec Nat.eq_dec n picked) as [Hyes|Hno]; [exact Hyes|].
  rewrite (Hout n Hno) in Hn. unfold pitch_eqb in Hn.
  rewrite bool_decide_eq_true_2 in Hn by reflexivity. discriminate.
Qed.

(** X24: whenever [ChangePitch] returns, at most [amount] notes of the
    result differ in pitch from the input: 1 in [Minimum] mode, the drawn
    number in [Random] mode, the number of notes in [Maximum] mode, the
    given number in [Fixed] mode.  All other notes keep their pitch. *)
Theorem ChangePitch_changes_at_most_amount (w w' : World) (m result : loc)
    (evs : list Event) (amount_mode : AmountMode) (amount : option Z)
    (pitches : option (list Pitch)) :
  events_at (heap w) m = Some evs ->
  ChangePitch m amount_mode amount pitches w = Ok (result, w') ->
  exists evs' (k : Z),
    events_at (heap w') result = Some evs'
    /\ match amount_mode with
       | AMinimum => k = 1%Z
       | AMaximum => k = Z.of_nat (mlength evs)
       | ARandom => (1 <= k <= Z.of_nat (mlength evs))%Z
       | AFixed => amount = Some k /\ (k <= Z.of_nat (mlength evs))%Z
       end
    /\ List.length (pitches_of evs') = List.length (pitches_of evs)
    /\ (changed_count (pitches_of evs') (pitches_of evs) <= Z.to_nat k)%nat.
Proof.
  intros Hm H. unfold ChangePitch in H.
  rewrite (bind_step _ _ _ _ _ (deepcopy_run m w evs Hm)) in H.
  set (h := heap w) in *.
  set (c := (List.length h + List.length evs)%nat) in *.
  set (N := note_positions (List.length h) evs).
  set (h1 := h ++ List.map obj_of evs
             ++ [OStream (seq (List.length h) (List.length evs))
                   (stored_offsets h m)]) in *.
  assert (Hn1 : notes_at h1 c = Some N) by apply notes_at_laid_out.
  assert (En : melody_notes c (mkWorld h1 (rand w))
               = Ok (N, mkWorld h1 (rand w))).
  { unfold melody_notes, get. cbn [heap]. now rewrite Hn1. }
  rewrite (bind_step _ _ _ _ _ En) in H.
  apply bind_Ok in H. destruct H as (own & w1 & Hown & H).
  apply read_pitches_run in Hown as [-> _]. cbv zeta in H.
  assert (HNlen : List.length N = mlength evs)
    by (subst N; apply length_note_positions).
  rewrite HNlen in H.
  apply bind_Ok in H. destruct H as (amount' & w2 & Ham & H).
  assert (Hw2 : heap w2 = h1
                /\ match amount_mode with
                   | AMinimum => amount' = Some 1%Z
                   | AMaximum => amount' = Some (Z.of_nat (mlength evs))
                   | ARandom => exists k, amount' = Some k
                                  /\ (1 <= k <= Z.of_nat (mlength evs))%Z
                   | AFixed => amount' = amount
                   end).
  { destruct amount_mode; try (inv_ret Ham; auto).
    apply bind_Ok in Ham. destruct Ham as (a & w0 & Ha & Ham). inv_ret Ham.
    apply liftR_randint_Ok in Ha as [Hrange [r' ->]]. eauto. }
  destruct Hw2 as [Hh2 Hmode].
  apply bind_Ok in H. destruct H as ([] & w3 & Hcheck & H).
  assert (Hw3 : w3 = w2
                /\ (amount_mode = AFixed ->
                    exists k, amount' = Some k
                              /\ (k <= Z.of_nat (mlength evs))%Z)).
  { destruct amount_mode; try (unfold ret in Hcheck; injection Hcheck as <-;
                               split; [reflexivity | discriminate]).
    destruct (amount_unset amount') eqn:Eu; [discriminate|].
    destruct amount' as [a|]; [|discriminate].
    destruct (Z.ltb_spec (Z.of_nat (mlength evs)) a); [discriminate|].
    unfold ret in Hcheck. injection Hcheck as <-.
    split; [reflexivity|]. intros _. exists a. split; [reflexivity | lia]. }
  destruct Hw3 as [-> Hfixed].
  apply bind_Ok in H. destruct H as (picked & w4 & Hpick & H).
  destruct amount' as [k|]; [|discriminate].
  apply liftR_Ok in Hpick as (r4 & Hpick & ->).
  apply choices_go_spec in Hpick as [Hplen _].
  apply bind_Ok in H. destruct H as ([] & w5 & Hloop & H). inv_ret H.
  destruct (change_run c _ picked _ _ Hloop) as (Hn & Hout).
  cbn [heap] in Hn, Hout. rewrite Hh2 in Hn, Hout. rewrite Hn1 in Hn.
  destruct (notes_events _ _ _ Hn) as (evs' & He & Hq).
  exists evs', k. split; [exact He|]. split; [|split].
  - destruct amount_mode;
      first [ congruence
            | destruct Hmode as (k' & E & Hk); injection E as <-; exact Hk
            | destruct (Hfixed eq_refl) as (k' & E & Hk); injection E as <-;
              split; [congruence | exact Hk] ].
  - rewrite Hq, (laid_out_pitches (offs := stored_offsets h m) h [] evs). fold h1 N.
    now rewrite !List.length_map.
  - rewrite Hq, (laid_out_pitches (offs := stored_offsets h m) h [] evs). fold h1 N.
    rewrite <- Hplen.
    apply changed_count_bound; [apply NoDup_note_positions | exact Hout].
Qed.

Lemma ChangePitch_changes_at_most_amount_witness :
  exists evs' (k : Z),
    events_at
      (heap (state_after
               (ChangePitch sample_melody AMinimum None (Some [pitch_G]))
               sample_world))
      (value_of (ChangePitch sample_melody AMinimum None (Some [pitch_G]))
         sample_world 0%nat)
    = Some evs'
    /\ k = 1%Z
    /\ List.length (pitches_of evs')
       = List.length
           (pitches_of [Note pitch_C 1; Rest 1; Note pitch_D 2; Note pitch_E 1])
    /\ (changed_count (pitches_of evs')
          (pitches_of [Note pitch_C 1; Rest 1; Note pitch_D 2; Note pitch_E 1])
        <= Z.to_nat k)%nat.
Proof.
  apply (ChangePitch_changes_at_most_amount sample_world
           (state_after
              (ChangePitch sample_melody AMinimum None (Some [pitch_G]))
              sample_world)
           sample_melody
           (value_of (ChangePitch sample_melody AMinimum None (Some [pitch_G]))
              sample_world 0%nat)
           [Note pitch_C 1; Rest 1; Note pitch_D 2; Note pitch_E 1]
           AMinimum None (Some [pitch_G]));
    vm_compute; reflexivity.
Defined.
